(** * 64bit Map Weaver: leak detector, diff renderer and refinement controller

    A shallow embedding of
    - the worker script of [utils/imageDiff.ts] ([colorDistanceSq],
      [crossProduct], [getConvexHull], [polygonArea],
      [performLeakDetection], [performDiffing]) and its main-thread wrappers
      [hasBlueprintLeaks] and [generateDiffMap];
    - the hook [useMapGeneration] ([generateMap], [manualRefine],
      [clearGeneration]);
    - the path helpers [simplifyPath] and [isPointNearPolyline] of
      [utils/vectorUtils.ts], over an abstract distance.

    Numbers.  Every JavaScript number below is an integer (pixel channels,
    indices, coordinates, cross products, shoelace sums) or half of one (the
    hull area), far below 2^53 for any bitmap a canvas can hold, so the
    double arithmetic of the source is exact and is modelled in [Z] and [Q].
    The one rounded operation is [clusterSize / hullArea]; its result is only
    compared with 0.75, and the comparison of the rounded quotient agrees
    with the comparison of the exact one as long as twice the hull area stays
    below 2^52. *)

From stdpp Require Import base list numbers sorting strings.
From Stdlib Require Import ZArith QArith Qabs Lia.

Open Scope Z_scope.

(** ** Typed arrays

    A [Uint8Array] used as a bit mask is a [list bool].  Reading outside the
    array yields [undefined], which is falsy; writing outside it does
    nothing, exactly like stdpp's list insert. *)

Definition isSet (a : list bool) (i : nat) : bool :=
  match a !! i with
  | Some b => b
  | None => false
  end.

Definition setBit (a : list bool) (i : nat) : list bool := <[i := true]> a.

(** ** Geometry helpers of the worker *)

Record Point := mkPoint { ptx : Z; pty : Z }.

#[global] Instance Point_eq_dec : EqDecision Point.
Proof. solve_decision. Defined.

(** [crossProduct]: the turn direction of three points. *)
Definition crossProduct (p1 p2 p3 : Point) : Z :=
  (ptx p2 - ptx p1) * (pty p3 - pty p1) - (pty p2 - pty p1) * (ptx p3 - ptx p1).

(** The comparator handed to [sort]: [a.x !== b.x ? a.x - b.x : a.y - b.y]. *)
Definition comparePoints (a b : Point) : Z :=
  if decide (ptx a ≠ ptx b) then ptx a - ptx b else pty a - pty b.

(** [a] may stay in front of [b] when the comparator is not positive. *)
Definition pointLe (a b : Point) : Prop := comparePoints a b <= 0.

#[global] Instance pointLe_dec a b : Decision (pointLe a b).
Proof. unfold pointLe. apply _. Defined.

(** The comparator orders the points totally. *)
#[global] Instance pointLe_total : Total pointLe.
Proof.
  intros a b. unfold pointLe, comparePoints. repeat case_decide; lia.
Qed.

#[global] Instance pointLe_trans : Transitive pointLe.
Proof.
  intros a b c. unfold pointLe, comparePoints. repeat case_decide; lia.
Qed.

#[global] Instance pointLe_antisym : AntiSymm (=) pointLe.
Proof.
  intros [ax ay] [bx by_]. unfold pointLe, comparePoints. simpl.
  repeat case_decide; intros; f_equal; lia.
Qed.

(** [Array.prototype.sort] returns the sorted permutation of its input.  The
    comparator is zero on equal points only, so that permutation is unique
    and any sorting algorithm computes it; merge sort is used here. *)
Definition sortPoints (points : list Point) : list Point :=
  merge_sort pointLe points.

(** The inner [while] of [buildHull]: pop while the last two hull points and
    the new point do not make a strict left turn.  The hull is kept as a
    stack, last element first. *)
Fixpoint popWhile (hull : list Point) (point : Point) : list Point :=
  match hull with
  | last :: (prev :: _) as rest =>
      if decide (crossProduct prev last point <= 0) then popWhile rest point
      else hull
  | _ => hull
  end.

(** One round of the [for] loop of [buildHull]: pop, then push. *)
Definition pushPoint (hull : list Point) (point : Point) : list Point :=
  point :: popWhile hull point.

(** [buildHull], with the hull as a stack. *)
Definition buildHullStack (points : list Point) : list Point :=
  foldl pushPoint [] points.

Definition buildHull (points : list Point) : list Point :=
  reverse (buildHullStack points).

(** [a.slice(0, -1)]. *)
Definition dropLast {A} (l : list A) : list A := take (length l - 1)%nat l.

(** [getConvexHull]: monotone chain. *)
Definition getConvexHull (points : list Point) : list Point :=
  if decide (length points <= 2)%nat then points
  else
    let sortedPoints := sortPoints points in
    let lowerHull := buildHull sortedPoints in
    let upperHull := buildHull (reverse sortedPoints) in
    dropLast lowerHull ++ dropLast upperHull.

(** The shoelace sum of [polygonArea]: [j] runs one step behind [i] and
    starts at the last point. *)
Fixpoint shoelace (prev : Point) (points : list Point) : Z :=
  match points with
  | [] => 0
  | p :: rest => (ptx prev + ptx p) * (pty prev - pty p) + shoelace p rest
  end.

Definition shoelaceSum (points : list Point) : Z :=
  match last points with
  | Some pj => shoelace pj points
  | None => 0
  end.

(** [polygonArea]: [Math.abs(area / 2.0)]. *)
Definition polygonArea (points : list Point) : Q :=
  Qabs (inject_Z (shoelaceSum points) / 2).

(** ** Bitmaps *)

(** One RGBA entry of an [ImageData.data] array; channels are 0..255. *)
Record Pixel := mkPixel { red : Z; green : Z; blue : Z; alpha : Z }.

#[global] Instance Pixel_eq_dec : EqDecision Pixel.
Proof. solve_decision. Defined.

(** What [getImageData] hands to the analysis: the dimensions and one
    [Pixel] for every four entries of [data]. *)
Record ImageData := mkImageData {
  width : nat;
  height : nat;
  data : list Pixel
}.

(** [getImageData(0, 0, width, height)] always returns a full grid. *)
Definition wellFormed (img : ImageData) : Prop :=
  length (data img) = (width img * height img)%nat.

#[global] Instance wellFormed_dec img : Decision (wellFormed img).
Proof. unfold wellFormed. apply _. Defined.

(** One entry of [blueprintColorsRGB]. *)
Record BlueprintColor := mkBlueprintColor {
  colorId : string;
  colorR : Z;
  colorG : Z;
  colorB : Z
}.

(** [colorDistanceSq]. *)
Definition colorDistanceSq (r1 g1 b1 r2 g2 b2 : Z) : Z :=
  (r1 - r2) ^ 2 + (g1 - g2) ^ 2 + (b1 - b2) ^ 2.

(** ** Queue traversal shared by the two flood fills

    Both the flat-patch pass and the cluster pass run the same loop: shift
    the head of the queue, record it, then look at a list of neighbour
    indices and enqueue and mark those that are unmarked and acceptable.
    [bfs] is that loop over an arbitrary neighbour function; the two passes
    below are written out as in the source and shown to be instances. *)

Section Bfs.
Variable neighbors : nat -> list nat.
Variable accept : nat -> bool.

Definition visit (st : list bool * list nat) (n : nat) : list bool * list nat :=
  if negb (isSet st.1 n) && accept n then (setBit st.1 n, st.2 ++ [n]) else st.

Fixpoint bfs (fuel : nat) (queue : list nat) (visited : list bool)
    (out : list nat) : option (list nat * list bool) :=
  match queue with
  | [] => Some (out, visited)
  | currentIdx :: rest =>
      match fuel with
      | O => None
      | S fuel' =>
          let st := foldl visit (visited, rest) (neighbors currentIdx) in
          bfs fuel' st.2 st.1 (out ++ [currentIdx])
      end
  end.
End Bfs.

(** ** Pass 1: flat patch detection *)

Section FlatPass.
Variables (width height : nat) (data : list Pixel).
Variable flatnessThresholdSq : Z.
Variable clusterSizeThreshold : Z.

(** Top, bottom, left, right, each behind its bounds test. *)
Definition flatNeighbors (currentIdx : nat) : list nat :=
  let x := Z.of_nat (currentIdx mod width) in
  let y := Z.of_nat (currentIdx / width) in
  (if decide (y > 0) then [(currentIdx - width)%nat] else []) ++
  (if decide (y < Z.of_nat height - 1) then [(currentIdx + width)%nat] else []) ++
  (if decide (x > 0) then [(currentIdx - 1)%nat] else []) ++
  (if decide (x < Z.of_nat width - 1) then [(currentIdx + 1)%nat] else []).

(** The colour test against the start pixel.  A missing entry reads as
    [undefined] channels, whose distance is [NaN] and passes no test. *)
Definition isFlatWith (start : Pixel) (neighborIdx : nat) : bool :=
  match data !! neighborIdx with
  | Some n =>
      bool_decide (colorDistanceSq (red start) (green start) (blue start)
                     (red n) (green n) (blue n) < flatnessThresholdSq)
  | None => false
  end.

(** The body of [for (const neighborIdx of neighbors)]. *)
Definition flatVisit (start : Pixel) (st : list bool * list nat)
    (neighborIdx : nat) : list bool * list nat :=
  let '(visitedForFlatness, queue) := st in
  if negb (isSet visitedForFlatness neighborIdx) then
    if isFlatWith start neighborIdx
    then (setBit visitedForFlatness neighborIdx, queue ++ [neighborIdx])
    else st
  else st.

(** The [while (queue.length > 0)] loop of pass 1.  [fuel] bounds the
    number of iterations; [None] means it ran out. *)
Fixpoint floodFill (fuel : nat) (start : Pixel) (queue : list nat)
    (visitedForFlatness : list bool) (flatClusterIndices : list nat)
    : option (list nat * list bool) :=
  match queue with
  | [] => Some (flatClusterIndices, visitedForFlatness)
  | currentIdx :: queue' =>
      match fuel with
      | O => None
      | S fuel' =>
          let flatClusterIndices' := flatClusterIndices ++ [currentIdx] in
          let st := foldl (flatVisit start) (visitedForFlatness, queue')
                      (flatNeighbors currentIdx) in
          floodFill fuel' start st.2 st.1 flatClusterIndices'
      end
  end.

(** [for (const idx of flatClusterIndices) leaks[idx] = 1]. *)
Definition markAll (leaks : list bool) (indices : list nat) : list bool :=
  foldl setBit leaks indices.

(** The region grown from [pixelIndex] when the scan reaches it unvisited. *)
Definition flatRegionAt (start : Pixel) (pixelIndex : nat)
    (visitedForFlatness : list bool) : option (list nat * list bool) :=
  floodFill (width * height) start [pixelIndex]
    (setBit visitedForFlatness pixelIndex) [].

(** The outer [for] of pass 1; [pixels] is the part of [data] from
    [pixelIndex] on. *)
Fixpoint flatPassLoop (pixelIndex : nat) (pixels : list Pixel)
    (visitedForFlatness leaks : list bool) : option (list bool) :=
  match pixels with
  | [] => Some leaks
  | start :: pixels' =>
      if isSet visitedForFlatness pixelIndex
      then flatPassLoop (S pixelIndex) pixels' visitedForFlatness leaks
      else
        match flatRegionAt start pixelIndex visitedForFlatness with
        | None => None
        | Some (flatClusterIndices, visited') =>
            let leaks' :=
              if decide (Z.of_nat (length flatClusterIndices) > clusterSizeThreshold)
              then markAll leaks flatClusterIndices
              else leaks in
            flatPassLoop (S pixelIndex) pixels' visited' leaks'
        end
  end.

(** The regions pass 1 grows, in scan order: the same loop, keeping every
    [flatClusterIndices] instead of marking. *)
Fixpoint flatRegionsLoop (pixelIndex : nat) (pixels : list Pixel)
    (visitedForFlatness : list bool) : option (list (list nat)) :=
  match pixels with
  | [] => Some []
  | start :: pixels' =>
      if isSet visitedForFlatness pixelIndex
      then flatRegionsLoop (S pixelIndex) pixels' visitedForFlatness
      else
        match flatRegionAt start pixelIndex visitedForFlatness with
        | None => None
        | Some (flatClusterIndices, visited') =>
            option_map (cons flatClusterIndices)
              (flatRegionsLoop (S pixelIndex) pixels' visited')
        end
  end.
End FlatPass.

(** [new Uint8Array(n)]. *)
Definition newMask (n : nat) : list bool := replicate n false.

(** Pass 1 as a whole, behind
    [if (flatnessThresholdSq && flatnessThresholdSq > 0)]; an absent
    threshold is [None]. *)
Definition flatPass (img : ImageData) (clusterSizeThreshold : Z)
    (flatnessThresholdSq : option Z) : option (list bool) :=
  let leaks := newMask (width img * height img) in
  match flatnessThresholdSq with
  | Some t =>
      if decide (t > 0)
      then flatPassLoop (width img) (height img) (data img) t clusterSizeThreshold
             0 (data img) (newMask (width img * height img)) leaks
      else Some leaks
  | None => Some leaks
  end.

Definition flatRegions (img : ImageData) (flatnessThresholdSq : Z)
    : option (list (list nat)) :=
  flatRegionsLoop (width img) (height img) (data img) flatnessThresholdSq
    0 (data img) (newMask (width img * height img)).

(** ** Pass 2: blueprint colour matching *)

(** The inner [for (const blueprintColor of blueprintColorsRGB)] with its
    [break]. *)
Definition matchesBlueprint (blueprintColorsRGB : list BlueprintColor)
    (colorMatchThresholdSq : Z) (p : Pixel) : bool :=
  existsb (fun c =>
    bool_decide (colorDistanceSq (red p) (green p) (blue p)
                   (colorR c) (colorG c) (colorB c) < colorMatchThresholdSq))
    blueprintColorsRGB.

(** The outer [for] of pass 2: pixels already flagged are skipped by
    [continue]; the others are flagged when a blueprint colour is near. *)
Fixpoint palettePassLoop (blueprintColorsRGB : list BlueprintColor)
    (colorMatchThresholdSq : Z) (pixelIndex : nat) (pixels : list Pixel)
    (leaks : list bool) : list bool :=
  match pixels with
  | [] => leaks
  | p :: pixels' =>
      let leaks' :=
        if isSet leaks pixelIndex then leaks
        else if matchesBlueprint blueprintColorsRGB colorMatchThresholdSq p
             then setBit leaks pixelIndex
             else leaks in
      palettePassLoop blueprintColorsRGB colorMatchThresholdSq (S pixelIndex)
        pixels' leaks'
  end.

Definition palettePass (img : ImageData) (blueprintColorsRGB : list BlueprintColor)
    (colorMatchThresholdSq : Z) (leaks : list bool) : list bool :=
  palettePassLoop blueprintColorsRGB colorMatchThresholdSq 0 (data img) leaks.

(** ** Pass 3: count and heat map *)

Fixpoint totalLeakedPixels (leaks : list bool) : Z :=
  match leaks with
  | [] => 0
  | b :: rest => (if b then 1 else 0) + totalLeakedPixels rest
  end.

Definition leakHighlight : Pixel := mkPixel 255 0 0 180.
Definition transparent : Pixel := mkPixel 0 0 0 0.

Definition heatmapOf (w h : nat) (leaks : list bool) : ImageData :=
  mkImageData w h (map (fun b : bool => if b then leakHighlight else transparent) leaks).

(** ** Pass 4: cluster and shape analysis *)

Definition searchRadius : Z := 3.

(** The values taken by [ny] and by [nx]: [-searchRadius .. searchRadius]. *)
Definition windowOffsets : list Z := seqZ (- searchRadius) (2 * searchRadius + 1).

Definition SOLIDITY_THRESHOLD : Q := 0.75.

(** The shape test applied to a finished cluster: large enough, a hull of
    more than two points, a positive hull area and a solidity above the
    threshold. *)
Definition isBlob (clusterSizeThreshold : Z) (clusterPoints : list Point) : bool :=
  let clusterSize := Z.of_nat (length clusterPoints) in
  if decide (clusterSize > clusterSizeThreshold) then
    let hull := getConvexHull clusterPoints in
    if decide (2 < length hull)%nat then
      let hullArea := polygonArea hull in
      if Qlt_le_dec 0 hullArea then
        let solidity := (inject_Z clusterSize / hullArea)%Q in
        if Qlt_le_dec SOLIDITY_THRESHOLD solidity then true else false
      else false
    else false
  else false.

Section ClusterPass.
Variables (width height : nat) (leaks : list bool).
Variable clusterSizeThreshold : Z.

Definition pointOf (idx : nat) : Point :=
  mkPoint (Z.of_nat (idx mod width)) (Z.of_nat (idx / width)).

(** The body of the two nested window loops for one offset pair. *)
Definition windowVisit (x y : Z) (ny : Z) (st : list bool * list nat) (nx : Z)
    : list bool * list nat :=
  let '(visited, queue) := st in
  if decide (nx = 0 /\ ny = 0) then st
  else
    let checkX := x + nx in
    let checkY := y + ny in
    if decide (checkX >= 0 /\ checkX < Z.of_nat width /\
               checkY >= 0 /\ checkY < Z.of_nat height)
    then
      let neighborIdx := Z.to_nat (checkY * Z.of_nat width + checkX) in
      if isSet leaks neighborIdx && negb (isSet visited neighborIdx)
      then (setBit visited neighborIdx, queue ++ [neighborIdx])
      else st
    else st.

(** The [while (queue.length > 0)] loop of pass 4. *)
Fixpoint clusterFill (fuel : nat) (queue : list nat) (visited : list bool)
    (clusterPoints : list Point) : option (list Point * list bool) :=
  match queue with
  | [] => Some (clusterPoints, visited)
  | currentIdx :: queue' =>
      match fuel with
      | O => None
      | S fuel' =>
          let x := Z.of_nat (currentIdx mod width) in
          let y := Z.of_nat (currentIdx / width) in
          let clusterPoints' := clusterPoints ++ [mkPoint x y] in
          let st := foldl (fun st ny => foldl (windowVisit x y ny) st windowOffsets)
                      (visited, queue') windowOffsets in
          clusterFill fuel' st.2 st.1 clusterPoints'
      end
  end.

(** The cluster grown from leak pixel [i] when the scan reaches it
    unvisited. *)
Definition clusterAt (i : nat) (visited : list bool)
    : option (list Point * list bool) :=
  clusterFill (width * height) [i] (setBit visited i) [].

(** The outer [for] of pass 4 over the indices still to scan.  Once a blob
    is found [needsRefinement] is set and the next iteration breaks, so
    the loop's value is [true] from there. *)
Fixpoint clusterScan (indices : list nat) (visited : list bool) : option bool :=
  match indices with
  | [] => Some false
  | i :: indices' =>
      if isSet leaks i && negb (isSet visited i) then
        match clusterAt i visited with
        | None => None
        | Some (clusterPoints, visited') =>
            if isBlob clusterSizeThreshold clusterPoints then Some true
            else clusterScan indices' visited'
        end
      else clusterScan indices' visited
  end.

(** Every cluster of the mask, in scan order: the same loop without the
    shape test and its early exit. *)
Fixpoint clustersLoop (indices : list nat) (visited : list bool)
    : option (list (list Point)) :=
  match indices with
  | [] => Some []
  | i :: indices' =>
      if isSet leaks i && negb (isSet visited i) then
        match clusterAt i visited with
        | None => None
        | Some (clusterPoints, visited') =>
            option_map (cons clusterPoints) (clustersLoop indices' visited')
        end
      else clustersLoop indices' visited
  end.
End ClusterPass.

(** Pass 4 as a whole. *)
Definition clusterAnalysis (w h : nat) (leaks : list bool)
    (clusterSizeThreshold : Z) : option bool :=
  clusterScan w h leaks clusterSizeThreshold (seq 0 (length leaks)) (newMask (w * h)).

Definition clusters (w h : nat) (leaks : list bool) : option (list (list Point)) :=
  clustersLoop w h leaks (seq 0 (length leaks)) (newMask (w * h)).

(** ** The analysis of one decoded bitmap: passes 1 to 4 *)

(** The combined leak mask after passes 1 and 2. *)
Definition leakMask (img : ImageData) (blueprintColorsRGB : list BlueprintColor)
    (clusterSizeThreshold colorMatchThresholdSq : Z)
    (flatnessThresholdSq : option Z) : option (list bool) :=
  match flatPass img clusterSizeThreshold flatnessThresholdSq with
  | Some leaks => Some (palettePass img blueprintColorsRGB colorMatchThresholdSq leaks)
  | None => None
  end.

(** The decision on a mask: the fast path, else pass 4. *)
Definition analyzeMask (w h : nat) (leaks : list bool) (clusterSizeThreshold : Z)
    : option bool :=
  if decide (totalLeakedPixels leaks < clusterSizeThreshold) then Some false
  else clusterAnalysis w h leaks clusterSizeThreshold.

(** [needsRefinement] and the heat map for a decoded bitmap. *)
Definition analyzeImage (img : ImageData) (blueprintColorsRGB : list BlueprintColor)
    (clusterSizeThreshold colorMatchThresholdSq : Z)
    (flatnessThresholdSq : option Z) : option (bool * ImageData) :=
  match leakMask img blueprintColorsRGB clusterSizeThreshold colorMatchThresholdSq
          flatnessThresholdSq with
  | None => None
  | Some leaks =>
      match analyzeMask (width img) (height img) leaks clusterSizeThreshold with
      | None => None
      | Some needs => Some (needs, heatmapOf (width img) (height img) leaks)
      end
  end.

(** ** Promises and the worker's surroundings *)

(** How an asynchronous call ends.  [Rejected] is also an exception thrown
    inside an [async] body.  [Pending] is a promise that never settles; in
    this model it only stands for a loop that used up its fuel, which
    [analyzeImage_total] shows does not happen on a full grid. *)
Inductive Promise (A : Type) : Type :=
  | Resolved (value : A)
  | Rejected (error : string)
  | Pending.
Arguments Resolved {A} value.
Arguments Rejected {A} error.
Arguments Pending {A}.

(** Everything outside the analysis that one worker run depends on.  A data
    URL is identified with the bitmap it encodes. *)
Record WorkerEnv := mkWorkerEnv {
  (** [fetch], [createImageBitmap], [drawImage], [getImageData]; [None] when
      the image cannot be decoded. *)
  loadImage : string -> option ImageData;
  (** [canvas.getContext('2d')] is not null. *)
  hasContext : bool;
  (** [heatmapCanvas.getContext('2d')] is not null. *)
  hasHeatmapContext : bool;
  (** [convertToBlob] resolves. *)
  blobConverts : bool;
  (** the [FileReader] ends in [onloadend], not [onerror]. *)
  readerLoads : bool;
  (** the worker raises an uncaught error event ([worker.onerror]). *)
  workerErrors : bool
}.

Record LeakDetectionResult := mkResult {
  needsRefinement : bool;
  leakMapUrl : option ImageData
}.

(** The value of the fail-safe branches. *)
Definition failSafe : LeakDetectionResult := mkResult false None.

(** [putImageData], [convertToBlob] and the [FileReader] promise that ends
    both return paths of [performLeakDetection]. *)
Definition encodeHeatmap (env : WorkerEnv) (needs : bool) (heatmap : ImageData)
    : Promise LeakDetectionResult :=
  if blobConverts env
  then Resolved (mkResult needs (if readerLoads env then Some heatmap else None))
  else Rejected "convertToBlob failed".

(** The [try] block of [performLeakDetection]. *)
Definition leakDetectionBody (env : WorkerEnv) (mapImageSrc : string)
    (blueprintColorsRGB : list BlueprintColor)
    (clusterSizeThreshold colorMatchThresholdSq : Z)
    (flatnessThresholdSq : option Z) : Promise LeakDetectionResult :=
  match loadImage env mapImageSrc with
  | None => Rejected "image could not be loaded"
  | Some img =>
      if negb (hasContext env)
      then Rejected "WORKER: Could not get OffscreenCanvas context."
      else
        match leakMask img blueprintColorsRGB clusterSizeThreshold
                colorMatchThresholdSq flatnessThresholdSq with
        | None => Pending
        | Some leaks =>
            if negb (hasHeatmapContext env)
            then Rejected "WORKER: Could not get heatmap OffscreenCanvas context."
            else
              match analyzeMask (width img) (height img) leaks clusterSizeThreshold with
              | None => Pending
              | Some needs =>
                  encodeHeatmap env needs (heatmapOf (width img) (height img) leaks)
              end
        end
  end.

(** [performLeakDetection]: the [try] block, with the [catch] that turns any
    exception into the fail-safe value. *)
Definition performLeakDetection (env : WorkerEnv) (mapImageSrc : string)
    (blueprintColorsRGB : list BlueprintColor)
    (clusterSizeThreshold colorMatchThresholdSq : Z)
    (flatnessThresholdSq : option Z) : Promise LeakDetectionResult :=
  match leakDetectionBody env mapImageSrc blueprintColorsRGB clusterSizeThreshold
          colorMatchThresholdSq flatnessThresholdSq with
  | Rejected _ => Resolved failSafe
  | settled => settled
  end.

(** ** Diffing *)

Definition diffHighlight : Pixel := mkPixel 255 0 255 180.

(** The test of the diff loop; a missing pixel on the new side reads as
    [undefined] channels and never differs. *)
Definition differs (diffThresholdSq : Z) (p1 : Pixel) (p2 : option Pixel) : bool :=
  match p2 with
  | Some p2 =>
      bool_decide (colorDistanceSq (red p1) (green p1) (blue p1)
                     (red p2) (green p2) (blue p2) > diffThresholdSq)
  | None => false
  end.

(** The [for] loop of [performDiffing]: the overlay and [hasDifference]. *)
Fixpoint diffLoop (diffThresholdSq : Z) (dataBase dataNew : list Pixel)
    : list Pixel * bool :=
  match dataBase with
  | [] => ([], false)
  | p1 :: dataBase' =>
      let rest := diffLoop diffThresholdSq dataBase' (tail dataNew) in
      if differs diffThresholdSq p1 (head dataNew)
      then (diffHighlight :: rest.1, true)
      else (transparent :: rest.1, rest.2)
  end.

(** The [try] block of [performDiffing].  A null 2d context makes the first
    [drawImage] throw a [TypeError]. *)
Definition diffingBody (env : WorkerEnv) (imageBase64 imageNewBase64 : string)
    (diffThresholdSq : Z) : Promise (option ImageData) :=
  match loadImage env imageBase64, loadImage env imageNewBase64 with
  | Some imgBase, Some imgNew =>
      if decide (width imgBase ≠ width imgNew \/ height imgBase ≠ height imgNew)
      then Rejected "WORKER: Image dimensions do not match for diffing."
      else if negb (hasContext env)
      then Rejected "TypeError: ctxBase is null"
      else
        let diff := diffLoop diffThresholdSq (data imgBase) (data imgNew) in
        if negb diff.2 then Resolved None
        else if blobConverts env
        then Resolved (if readerLoads env
                       then Some (mkImageData (width imgBase) (height imgBase) diff.1)
                       else None)
        else Rejected "convertToBlob failed"
  | _, _ => Rejected "image could not be loaded"
  end.

(** [performDiffing]: the [try] block, with the [catch] that logs the
    exception and returns [null]. *)
Definition performDiffing (env : WorkerEnv) (imageBase64 imageNewBase64 : string)
    (diffThresholdSq : Z) : Promise (option ImageData) :=
  match diffingBody env imageBase64 imageNewBase64 diffThresholdSq with
  | Rejected _ => Resolved None
  | settled => settled
  end.

(** ** The main-thread wrappers *)

Inductive MapStyle := photorealistic | pixel.

(** The [switch (mapStyle)] of [hasBlueprintLeaks]:
    [clusterSizeThreshold], [colorMatchThresholdSq], [flatnessThresholdSq]. *)
Definition thresholdsFor (mapStyle : MapStyle) : Z * Z * option Z :=
  match mapStyle with
  | pixel => (1000, 400, None)
  | photorealistic => (400, 100, Some 50)
  end.

(** [hasBlueprintLeaks].  The palette, built from [TERRAIN_MAP] by
    [getBlueprintColorsRGB], is a parameter.  The command posted is always
    ['detectLeaks'], so the worker answers with a result message and
    [onmessage] resolves with it ([leakMapUrl || null] changes nothing on an
    already nullable value); [onerror] resolves with the fail-safe value. *)
Definition hasBlueprintLeaks (env : WorkerEnv) (blueprintColorsRGB : list BlueprintColor)
    (mapImageSrc : string) (mapStyle : MapStyle) : Promise LeakDetectionResult :=
  let '(clusterSizeThreshold, colorMatchThresholdSq, flatnessThresholdSq) :=
    thresholdsFor mapStyle in
  if workerErrors env then Resolved failSafe
  else performLeakDetection env mapImageSrc blueprintColorsRGB clusterSizeThreshold
         colorMatchThresholdSq flatnessThresholdSq.

(** [generateDiffMap]: the command is always ['generateDiff'] with a
    threshold of 100; [onerror] resolves with [null]. *)
Definition generateDiffMap (env : WorkerEnv) (imageBase imageNew : string)
    : Promise (option ImageData) :=
  if workerErrors env then Resolved None
  else performDiffing env imageBase imageNew 100.

(** ** The refinement controller: the hook [useMapGeneration] *)

Module Hook.

Inductive FinalReason := passed_reason | limit_reached.

(** [AnalysisRecord]; images are data URLs.  [isManual] is optional and
    only ever written by [manualRefine]. *)
Record AnalysisRecord := mkRecord {
  revision : Z;
  mapImage : string;
  aiChangeMap : option ImageData;
  leakMap : option ImageData;
  passed : bool;
  isFinal : bool;
  finalReason : option FinalReason;
  isManual : option bool
}.

(** The state cells of the hook.  The status text [loadingMessage] is not
    modelled. *)
Record HookState := mkState {
  isLoading : bool;
  error : option string;
  generatedImage : option string;
  blueprintImage : option string;
  analysisHistory : list AnalysisRecord
}.

Definition initialState : HookState := mkState false None None None [].

(** The collaborators of the hook.  [AiClient] is whatever
    [createAiClient] returns.  A service need not answer the same way
    twice: every call receives the number of external calls the run has
    made before it. *)
Record Services (AiClient : Type) := mkServices {
  (** [String.prototype.trim] *)
  trim : string -> string;
  (** [createAiClient]; [inl] is a thrown error *)
  createAiClient : string -> string + AiClient;
  generatePromptWithLegend : MapStyle -> string;
  generateMapFromDrawing : nat -> AiClient -> string -> string -> Promise string;
  refineGeneratedMap : nat -> AiClient -> string -> MapStyle -> Promise string;
  generateDiffMap : nat -> string -> string -> Promise (option ImageData);
  hasBlueprintLeaks : nat -> string -> MapStyle -> Promise LeakDetectionResult;
  parseErrorMessage : string -> string
}.
Arguments trim {AiClient}.
Arguments createAiClient {AiClient}.
Arguments generatePromptWithLegend {AiClient}.
Arguments generateMapFromDrawing {AiClient}.
Arguments refineGeneratedMap {AiClient}.
Arguments generateDiffMap {AiClient}.
Arguments hasBlueprintLeaks {AiClient}.
Arguments parseErrorMessage {AiClient}.

(** How the [try] block of [generateMap] ends: normally, by an exception,
    or never (an awaited promise that does not settle). *)
Inductive LoopEnd :=
  | Finished (currentMapUrl : string) (passedCheck : bool)
  | Threw (err : string)
  | Stuck.

(** [isFinal ? (passedCheck ? 'passed' : 'limit_reached') : null] *)
Definition reasonFor (isFinal passedCheck : bool) : option FinalReason :=
  if isFinal then Some (if passedCheck then passed_reason else limit_reached)
  else None.

Section WithServices.
Context {AiClient : Type} (svc : Services AiClient).

(** The [while (!passedCheck && refinementCount < maxRefinements)] loop.
    It returns the history as last published by [setAnalysisHistory]
    and how the block ended.  [fuel] bounds the iterations. *)
Fixpoint refinementLoop (fuel : nat) (tick : nat) (aiClient : AiClient)
    (mapStyle : MapStyle) (maxRefinements : Z) (refinementCount : Z)
    (passedCheck : bool) (currentMapUrl : string)
    (localAnalysisHistory : list AnalysisRecord)
    : list AnalysisRecord * LoopEnd :=
  if negb passedCheck && bool_decide (refinementCount < maxRefinements) then
    match fuel with
    | O => (localAnalysisHistory, Stuck)
    | S fuel' =>
        let refinementCount := refinementCount + 1 in
        let previousMapUrl := currentMapUrl in
        match refineGeneratedMap svc tick aiClient currentMapUrl mapStyle with
        | Rejected e => (localAnalysisHistory, Threw e)
        | Pending => (localAnalysisHistory, Stuck)
        | Resolved currentMapUrl =>
            match generateDiffMap svc (tick + 1) previousMapUrl currentMapUrl with
            | Rejected e => (localAnalysisHistory, Threw e)
            | Pending => (localAnalysisHistory, Stuck)
            | Resolved aiChangeMap =>
                match hasBlueprintLeaks svc (tick + 2) currentMapUrl mapStyle with
                | Rejected e => (localAnalysisHistory, Threw e)
                | Pending => (localAnalysisHistory, Stuck)
                | Resolved analysisResult =>
                    let passedCheck := negb (needsRefinement analysisResult) in
                    let isFinalAfterRefinement :=
                      passedCheck || bool_decide (refinementCount >= maxRefinements) in
                    let localAnalysisHistory :=
                      localAnalysisHistory ++
                      [mkRecord (refinementCount + 1) currentMapUrl aiChangeMap
                         (leakMapUrl analysisResult) passedCheck
                         isFinalAfterRefinement
                         (reasonFor isFinalAfterRefinement passedCheck) None] in
                    refinementLoop fuel' (tick + 3) aiClient mapStyle maxRefinements
                      refinementCount passedCheck currentMapUrl
                      localAnalysisHistory
                end
            end
        end
    end
  else (localAnalysisHistory, Finished currentMapUrl passedCheck).

(** The [try] block of [generateMap]. *)
Definition generationRun (aiClient : AiClient) (blueprintData : string)
    (mapStyle : MapStyle) (maxRefinements : Z) : list AnalysisRecord * LoopEnd :=
  match generateMapFromDrawing svc 0 aiClient blueprintData
          (generatePromptWithLegend svc mapStyle) with
  | Rejected e => ([], Threw e)
  | Pending => ([], Stuck)
  | Resolved currentMapUrl =>
      match hasBlueprintLeaks svc 1 currentMapUrl mapStyle with
      | Rejected e => ([], Threw e)
      | Pending => ([], Stuck)
      | Resolved analysisResult =>
          let passedCheck := negb (needsRefinement analysisResult) in
          let isFinalAfterInitial :=
            passedCheck || bool_decide (maxRefinements = 0) in
          let localAnalysisHistory :=
            [mkRecord 1 currentMapUrl None (leakMapUrl analysisResult)
               passedCheck isFinalAfterInitial
               (reasonFor isFinalAfterInitial passedCheck) None] in
          refinementLoop (Z.to_nat maxRefinements) 2 aiClient mapStyle
            maxRefinements 0 passedCheck currentMapUrl localAnalysisHistory
      end
  end.

(** [generateMap].  [vectorObjects] is only tested for emptiness and
    [blueprintData] is what [rasterizeVectorsToImage] returned. *)
Definition generateMap {V : Type} (st : HookState) (vectorObjects : list V)
    (blueprintData : string) (apiKey : string) (mapStyle : MapStyle)
    (maxRefinements : Z) : HookState :=
  if decide (length vectorObjects = 0%nat) then
    mkState (isLoading st)
      (Some "Please draw something on the blueprint before generating a map.")
      (generatedImage st) (blueprintImage st) (analysisHistory st)
  else if decide (trim svc apiKey = "") then
    mkState (isLoading st)
      (Some "An API key is required. Please enter one at the top or ensure the environment key is available.")
      (generatedImage st) (blueprintImage st) (analysisHistory st)
  else
    match createAiClient svc (trim svc apiKey) with
    | inl err =>
        mkState (isLoading st) (Some (parseErrorMessage svc err))
          (generatedImage st) (blueprintImage st) (analysisHistory st)
    | inr aiClient =>
        if decide (blueprintData = "") then
          mkState (isLoading st) (Some "Could not create blueprint image.")
            (generatedImage st) (blueprintImage st) (analysisHistory st)
        else
          match generationRun aiClient blueprintData mapStyle maxRefinements with
          | (history, Finished currentMapUrl _) =>
              mkState false None (Some currentMapUrl) (Some blueprintData) history
          | (history, Threw err) =>
              mkState false (Some (parseErrorMessage svc err)) None
                (Some blueprintData) history
          | (history, Stuck) =>
              mkState true None None (Some blueprintData) history
          end
    end.

(** The in-place update of [manualRefine]: the last record loses its
    final mark when it has one.  The record object is shared with the
    array held in the state, so the state sees the update at once. *)
Definition reopen (r : AnalysisRecord) : AnalysisRecord :=
  if isFinal r
  then mkRecord (revision r) (mapImage r) (aiChangeMap r) (leakMap r)
         (passed r) false None (isManual r)
  else r.

Definition reopenLast (history : list AnalysisRecord) : list AnalysisRecord :=
  match last history with
  | Some lastRevision => dropLast history ++ [reopen lastRevision]
  | None => history
  end.

(** [(lastRevision?.revision || 0) + 1] *)
Definition nextRevision (history : list AnalysisRecord) : Z :=
  match last history with
  | Some lastRevision => revision lastRevision + 1
  | None => 1
  end.

(** [manualRefine].  [!generatedImage] holds for [null] and for the empty
    string. *)
Definition manualRefine (st : HookState) (apiKey : string) (mapStyle : MapStyle)
    : HookState :=
  match generatedImage st with
  | None => st
  | Some previousMapUrl =>
      if decide (previousMapUrl = "") then st
      else if isLoading st then st
      else if decide (trim svc apiKey = "") then
        mkState (isLoading st)
          (Some "An API key is required for manual refinement.")
          (generatedImage st) (blueprintImage st) (analysisHistory st)
      else
        match createAiClient svc (trim svc apiKey) with
        | inl err =>
            mkState (isLoading st) (Some (parseErrorMessage svc err))
              (generatedImage st) (blueprintImage st) (analysisHistory st)
        | inr aiClient =>
            let reopened := reopenLast (analysisHistory st) in
            let stalled :=
              mkState true None (generatedImage st) (blueprintImage st) reopened in
            let failed err :=
              mkState false (Some (parseErrorMessage svc err))
                (generatedImage st) (blueprintImage st) reopened in
            match refineGeneratedMap svc 0 aiClient previousMapUrl mapStyle with
            | Rejected e => failed e
            | Pending => stalled
            | Resolved currentMapUrl =>
                match generateDiffMap svc 1 previousMapUrl currentMapUrl with
                | Rejected e => failed e
                | Pending => stalled
                | Resolved aiChangeMap =>
                    match hasBlueprintLeaks svc 2 currentMapUrl mapStyle with
                    | Rejected e => failed e
                    | Pending => stalled
                    | Resolved analysisResult =>
                        let passedCheck := negb (needsRefinement analysisResult) in
                        let localAnalysisHistory :=
                          reopened ++
                          [mkRecord (nextRevision (analysisHistory st))
                             currentMapUrl aiChangeMap
                             (leakMapUrl analysisResult) passedCheck true
                             (Some (if passedCheck then passed_reason
                                    else limit_reached))
                             (Some true)] in
                        mkState false None (Some currentMapUrl)
                          (blueprintImage st) localAnalysisHistory
                    end
                end
            end
        end
  end.

(** [clearGeneration] *)
Definition clearGeneration (st : HookState) : HookState :=
  mkState (isLoading st) None None None [].
End WithServices.

End Hook.

(** ** Vocabulary of the statements *)

(** The number of entries of a mask that are not set. *)
Fixpoint unmarked (v : list bool) : nat :=
  match v with
  | [] => 0
  | b :: rest => (if b then 0 else 1) + unmarked rest
  end.

(** What a traversal started at [s] over the marks [v0] can reach: [s]
    itself, and every acceptable neighbour, not marked in [v0], of something
    it reaches. *)
Inductive reach (neighbors : nat -> list nat) (accept : nat -> bool)
    (v0 : list bool) (s : nat) : nat -> Prop :=
  | reach_seed : reach neighbors accept v0 s s
  | reach_step p n :
      reach neighbors accept v0 s p ->
      n ∈ neighbors p -> accept n = true -> isSet v0 n = false ->
      reach neighbors accept v0 s n.

(** The loop invariant of a traversal from [s] over the marks [v0]:
    [out] holds the indices taken from the queue so far. *)
Definition bfsInv (neighbors : nat -> list nat) (accept : nat -> bool) (N : nat)
    (v0 : list bool) (s : nat) (queue : list nat) (v : list bool)
    (out : list nat) : Prop :=
  length v = N /\
  NoDup (out ++ queue) /\
  (forall i, i ∈ out ++ queue ->
     (i < N)%nat /\ isSet v0 i = false /\ reach neighbors accept v0 s i) /\
  (forall i, isSet v i = true <-> isSet v0 i = true \/ i ∈ out ++ queue) /\
  (forall p n, p ∈ out -> n ∈ neighbors p -> accept n = true -> isSet v n = true) /\
  s ∈ out ++ queue.

(** The neighbour indices the two window loops of pass 4 look at around
    [idx], in the order of the loops. *)
Definition windowCell (width height : nat) (x y ny nx : Z) : list nat :=
  if decide (nx = 0 /\ ny = 0) then []
  else if decide (x + nx >= 0 /\ x + nx < Z.of_nat width /\
                  y + ny >= 0 /\ y + ny < Z.of_nat height)
       then [Z.to_nat ((y + ny) * Z.of_nat width + (x + nx))]
       else [].

Definition windowNeighbors (width height : nat) (idx : nat) : list nat :=
  let x := Z.of_nat (idx mod width) in
  let y := Z.of_nat (idx / width) in
  ny ← windowOffsets; nx ← windowOffsets; windowCell width height x y ny nx.

(** *** Clusters of a leak mask

    Pixels are named by their coordinates.  Two distinct pixels are
    neighbours when they lie in each other's search window; a cluster is a
    maximal set of leak pixels connected through neighbours. *)

Definition inGrid (w h : nat) (p : Point) : Prop :=
  0 <= ptx p < Z.of_nat w /\ 0 <= pty p < Z.of_nat h.

Definition indexOf (w : nat) (p : Point) : nat :=
  Z.to_nat (pty p * Z.of_nat w + ptx p).

Definition leakAt (w h : nat) (leaks : list bool) (p : Point) : Prop :=
  inGrid w h p /\ isSet leaks (indexOf w p) = true.

Definition adjacent (p q : Point) : Prop :=
  p ≠ q /\ Z.abs (ptx p - ptx q) <= searchRadius /\
  Z.abs (pty p - pty q) <= searchRadius.

Inductive connected (w h : nat) (leaks : list bool) (s : Point) : Point -> Prop :=
  | connected_refl : connected w h leaks s s
  | connected_step p q :
      connected w h leaks s p -> adjacent p q -> leakAt w h leaks q ->
      connected w h leaks s q.

(** [c] lists, without repetition, all the leak pixels connected to one of
    them. *)
Definition isCluster (w h : nat) (leaks : list bool) (c : list Point) : Prop :=
  NoDup c /\
  exists s, leakAt w h leaks s /\ forall p, p ∈ c <-> connected w h leaks s p.

(** The shape test of pass 4, as a proposition. *)
Definition blobShape (clusterSizeThreshold : Z) (c : list Point) : Prop :=
  Z.of_nat (length c) > clusterSizeThreshold /\
  (2 < length (getConvexHull c))%nat /\
  (0 < polygonArea (getConvexHull c))%Q /\
  (SOLIDITY_THRESHOLD < inject_Z (Z.of_nat (length c)) / polygonArea (getConvexHull c))%Q.

(** The same notions on indices, as the scan sees them. *)
Definition componentOf (w h : nat) (leaks : list bool) (s j : nat) : Prop :=
  reach (windowNeighbors w h) (isSet leaks) (newMask (w * h)) s j.

Definition isComponent (w h : nat) (leaks : list bool) (c : list Point) : Prop :=
  exists s out,
    c = pointOf w <$> out /\ NoDup out /\ (s < w * h)%nat /\
    isSet leaks s = true /\ forall j, j ∈ out <-> componentOf w h leaks s j.

(** What the scan of pass 4 maintains about [visited]: only leak pixels are
    marked, and the marked set is closed under leak neighbours. *)
Definition scanInv (w h : nat) (leaks visited : list bool) : Prop :=
  length visited = (w * h)%nat /\
  (forall i, isSet visited i = true -> isSet leaks i = true) /\
  (forall p n, isSet visited p = true -> n ∈ windowNeighbors w h p ->
     isSet leaks n = true -> isSet visited n = true).

(** *** Full grids

    The pixels of a [w] x [h] grid in the order of the comparator: column by
    column, each column from top to bottom. *)
Definition gridColumn (x : Z) (first count : nat) : list Point :=
  (fun y => mkPoint x (Z.of_nat y)) <$> seq first count.

Definition gridColumns (h : nat) (first count : nat) : list Point :=
  seq first count ≫= (fun x => gridColumn (Z.of_nat x) 0 h).

Definition gridPoints (w h : nat) : list Point := gridColumns h 0 w.

(** *** Histories of the controller *)

(** What [finalReason] says about [passed]. *)
Definition reasonAgrees (r : Hook.AnalysisRecord) : Prop :=
  (Hook.finalReason r = Some Hook.passed_reason -> Hook.passed r = true) /\
  (Hook.finalReason r = Some Hook.limit_reached -> Hook.passed r = false).

(** The services answer every call: no awaited promise stays pending. *)
Definition alwaysSettles {AiClient : Type} (svc : Hook.Services AiClient) : Prop :=
  (forall k c b p, Hook.generateMapFromDrawing svc k c b p ≠ Pending) /\
  (forall k c u s, Hook.refineGeneratedMap svc k c u s ≠ Pending) /\
  (forall k a b, Hook.generateDiffMap svc k a b ≠ Pending) /\
  (forall k u s, Hook.hasBlueprintLeaks svc k u s ≠ Pending).

(** The states the hook goes through: it starts in [initialState], and each
    of its three operations may be called with any arguments, against
    services that may answer differently every time. *)
Inductive reachable {AiClient : Type} : Hook.HookState -> Prop :=
  | reachable_initial : reachable Hook.initialState
  | reachable_generateMap (svc : Hook.Services AiClient) st (vectorObjects : list unit)
      blueprintData apiKey mapStyle maxRefinements :
      reachable st ->
      reachable (Hook.generateMap svc st vectorObjects blueprintData apiKey
                   mapStyle maxRefinements)
  | reachable_manualRefine (svc : Hook.Services AiClient) st apiKey mapStyle :
      reachable st -> reachable (Hook.manualRefine svc st apiKey mapStyle)
  | reachable_clearGeneration st :
      reachable st -> reachable (Hook.clearGeneration st).

(** The revision numbers [first], [first + 1], ... of a history. *)
Fixpoint numberedFrom (first : Z) (history : list Hook.AnalysisRecord) : Prop :=
  match history with
  | [] => True
  | r :: rest => Hook.revision r = first /\ numberedFrom (first + 1) rest
  end.

(** Turn tests on explicit points are goals of integer arithmetic. *)
Ltac cross := unfold crossProduct; simpl; nia.

(** *** Sample collaborators

    Services for the examples: the key is used as it is, the client is
    always created, every call resolves, and the analysis made at call
    number [k] of a run reports a leak exactly when [leaky k] holds. *)
Definition scriptedServices (leaky : nat -> bool) : Hook.Services unit :=
  Hook.mkServices unit
    (fun apiKey => apiKey)
    (fun _ => inr tt)
    (fun _ => "prompt")
    (fun _ _ _ _ => Resolved "initial map")
    (fun _ _ _ _ => Resolved "refined map")
    (fun _ _ _ => Resolved None)
    (fun k _ _ => Resolved (mkResult (leaky k) None))
    (fun message => message).

(** *** Degenerate point sets *)

(** No three of the points make a turn: they all lie on one line. *)
Definition collinear (points : list Point) : Prop :=
  forall a b c, a ∈ points -> b ∈ points -> c ∈ points -> crossProduct a b c = 0.

(** *** Records of a run *)

(** A record written while the run goes on: the check failed and the record
    carries no final mark. *)
Definition openRecord (r : Hook.AnalysisRecord) : Prop :=
  Hook.passed r = false /\ Hook.isFinal r = false /\ Hook.finalReason r = None.

(** The record that ends a run. *)
Definition closingRecord (r : Hook.AnalysisRecord) : Prop :=
  Hook.isFinal r = true /\
  Hook.finalReason r
  = Some (if Hook.passed r then Hook.passed_reason else Hook.limit_reached).

(** A final mark sits on the last record only. *)
Definition finalOnlyLast (history : list Hook.AnalysisRecord) : Prop :=
  forall i r, history !! i = Some r -> Hook.isFinal r = true ->
    S i = length history.

(** A record has a [finalReason] exactly when it is final. *)
Definition reasonIffFinal (r : Hook.AnalysisRecord) : Prop :=
  Hook.isFinal r = true <-> Hook.finalReason r ≠ None.

(** The properties of a history that every operation of the hook keeps:
    revisions count up from 1, only the last record can be final, and a
    record has a reason exactly when it is final. *)
Definition historyOk (history : list Hook.AnalysisRecord) : Prop :=
  numberedFrom 1 history /\ finalOnlyLast history /\ Forall reasonIffFinal history.

(** *** More sample collaborators

    As [scriptedServices], but the refine call made at call number [failAt]
    of a run is rejected. *)
Definition failingServices (leaky : nat -> bool) (failAt : nat) : Hook.Services unit :=
  Hook.mkServices unit
    (fun apiKey => apiKey)
    (fun _ => inr tt)
    (fun _ => "prompt")
    (fun _ _ _ _ => Resolved "initial map")
    (fun k _ _ _ => if decide (k = failAt) then Rejected "network down"
                    else Resolved "refined map")
    (fun _ _ _ => Resolved None)
    (fun k _ _ => Resolved (mkResult (leaky k) None))
    (fun message => message).

(** ** Paths: [utils/vectorUtils.ts]

    [perpendicularDistance] divides and takes square roots of doubles.
    [simplifyPath] and [isPointNearPolyline] only compare its results with
    each other and with a tolerance, so the distance is a parameter here and
    its values are rationals: whatever doubles the real function returns
    for the points of one call, rationals in the same order exist (a [NaN],
    which fails every comparison, as a negative number). *)

Section VectorUtils.
Context {VectorPoint : Type}.
Variable perpendicularDistance : VectorPoint -> VectorPoint -> VectorPoint -> Q.

(** The body of the [for] loop of [simplifyPath] at index [i]; the state
    is [(index, dmax)]. *)
Definition farthestStep (points : list VectorPoint) (first lastPoint : VectorPoint)
    (st : nat * Q) (i : nat) : nat * Q :=
  match points !! i with
  | Some p =>
      let d := perpendicularDistance p first lastPoint in
      if Qlt_le_dec st.2 d then (i, d) else st
  | None => st
  end.

(** [for (let i = 1; i < end; i++)] with [end = points.length - 1]. *)
Definition farthest (points : list VectorPoint) (first lastPoint : VectorPoint)
    : nat * Q :=
  foldl (farthestStep points first lastPoint) (0%nat, 0%Q)
    (seq 1 (length points - 2)).

(** [simplifyPath]; [fuel] bounds the depth of the recursion and [None]
    means it was used up. *)
Fixpoint simplifyPath (fuel : nat) (points : list VectorPoint) (epsilon : Q)
    : option (list VectorPoint) :=
  if decide (length points < 3)%nat then Some points
  else
    match fuel with
    | O => None
    | S fuel' =>
        match head points, last points with
        | Some first, Some lastPoint =>
            let st := farthest points first lastPoint in
            let index := st.1 in
            let dmax := st.2 in
            if Qlt_le_dec epsilon dmax then
              match simplifyPath fuel' (take (index + 1) points) epsilon with
              | None => None
              | Some recResults1 =>
                  match simplifyPath fuel' (drop index points) epsilon with
                  | None => None
                  | Some recResults2 => Some (dropLast recResults1 ++ recResults2)
                  end
              end
            else Some [first; lastPoint]
        | _, _ => Some points
        end
    end.

(** [isPointNearPolyline]: some segment is within [threshold]. *)
Definition isPointNearPolyline (point : VectorPoint) (polyline : list VectorPoint)
    (threshold : Q) : bool :=
  if decide (length polyline < 2)%nat then false
  else
    existsb (fun i =>
      match polyline !! i, polyline !! S i with
      | Some a, Some b =>
          if Qlt_le_dec threshold (perpendicularDistance point a b) then false
          else true
      | _, _ => false
      end) (seq 0 (length polyline - 1)).
End VectorUtils.

(** *** Flat regions *)

(** Every pixel of [region] has a colour within [t] of the colour of one of
    its pixels, the one the region was grown from. *)
Definition flatAround (pixels : list Pixel) (t : Z) (region : list nat) : Prop :=
  exists s start,
    s ∈ region /\ pixels !! s = Some start /\
    forall j, j ∈ region ->
      exists p, pixels !! j = Some p /\
        colorDistanceSq (red start) (green start) (blue start)
          (red p) (green p) (blue p) < t.

(** *** Moving a point set *)

Definition translate (dx dy : Z) (p : Point) : Point :=
  mkPoint (ptx p + dx) (pty p + dy).

(** *** Turns of a chain *)

(** Every three consecutive points of [hull] make a strict left turn. *)
Definition leftTurns (hull : list Point) : Prop :=
  forall i a b c,
    hull !! i = Some a -> hull !! S i = Some b -> hull !! S (S i) = Some c ->
    crossProduct a b c > 0.

(** The same for a hull kept as a stack, last point first. *)
Fixpoint stackTurns (stack : list Point) : Prop :=
  match stack with
  | c :: ((b :: a :: _) as rest) => crossProduct a b c > 0 /\ stackTurns rest
  | _ => True
  end.

(** * Proofs *)

(** * Sanity checks of the embedding on small inputs *)

Example polygonArea_unit_square :
  (polygonArea [mkPoint 0 0; mkPoint 1 0; mkPoint 1 1; mkPoint 0 1] == 1)%Q.
Proof. reflexivity. Qed.

Example getConvexHull_square_with_centre :
  getConvexHull [mkPoint 1 1; mkPoint 0 0; mkPoint 2 2; mkPoint 2 0; mkPoint 0 2]
  = [mkPoint 0 0; mkPoint 2 0; mkPoint 2 2; mkPoint 0 2].
Proof. vm_compute. reflexivity. Qed.

(** A 3 x 3 block of a palette colour against a threshold of 4 pixels. *)
Example analyzeImage_block :
  analyzeImage (mkImageData 3 3 (replicate 9 (mkPixel 10 20 30 255)))
    [mkBlueprintColor "a" 10 20 30] 4 100 None
  = Some (true, heatmapOf 3 3 (replicate 9 true)).
Proof. vm_compute. reflexivity. Qed.

(** A 1 x 9 strip of the same colour: one cluster, but a hull of two points. *)
Example analyzeImage_strip :
  analyzeImage (mkImageData 1 9 (replicate 9 (mkPixel 10 20 30 255)))
    [mkBlueprintColor "a" 10 20 30] 4 100 None
  = Some (false, heatmapOf 1 9 (replicate 9 true)).
Proof. vm_compute. reflexivity. Qed.

(** * Bit masks *)

Lemma isSet_lt v i : isSet v i = true -> (i < length v)%nat.
Proof.
  unfold isSet. destruct (v !! i) eqn:E; [|done].
  intros _. by eapply lookup_lt_Some.
Qed.

Lemma length_setBit v i : length (setBit v i) = length v.
Proof. apply length_insert. Qed.

Lemma isSet_setBit_eq v i : (i < length v)%nat -> isSet (setBit v i) i = true.
Proof. intros H. unfold isSet, setBit. by rewrite list_lookup_insert_eq. Qed.

Lemma isSet_setBit_ne v i j : i ≠ j -> isSet (setBit v i) j = isSet v j.
Proof. intros H. unfold isSet, setBit. by rewrite list_lookup_insert_ne. Qed.

Lemma isSet_setBit v i j :
  isSet (setBit v i) j = true <-> isSet v j = true \/ (i = j /\ (i < length v)%nat).
Proof.
  destruct (decide (i = j)) as [->|Hne].
  - split.
    + intros H. right. split; [done|]. apply isSet_lt in H.
      by rewrite length_setBit in H.
    + intros [H|[_ H]]; apply isSet_setBit_eq; [by apply isSet_lt|done].
  - rewrite isSet_setBit_ne by done. tauto.
Qed.

Lemma isSet_newMask n i : isSet (newMask n) i = false.
Proof.
  unfold isSet, newMask. destruct (replicate n false !! i) eqn:E; [|done].
  by apply lookup_replicate in E as [-> _].
Qed.

Lemma length_newMask n : length (newMask n) = n.
Proof. apply length_replicate. Qed.

Lemma unmarked_le v : (unmarked v <= length v)%nat.
Proof. induction v as [|[] v IH]; simpl; lia. Qed.

Lemma unmarked_setBit v i :
  isSet v i = false -> (i < length v)%nat ->
  (unmarked (setBit v i) + 1 = unmarked v)%nat.
Proof.
  revert i. induction v as [|b v IH]; intros i Hset Hlt; simpl in *; [lia|].
  destruct i as [|i]; simpl.
  - unfold isSet in Hset. simpl in Hset. subst b. lia.
  - unfold setBit in IH. rewrite <- (IH i); [lia| |lia].
    exact Hset.
Qed.

(** * The queue traversal *)

Section BfsFacts.
Variable neighbors : nat -> list nat.
Variable accept : nat -> bool.
Variable N : nat.
Hypothesis neighbors_lt : forall p q, (p < N)%nat -> q ∈ neighbors p -> (q < N)%nat.

(** One sweep over a neighbour list. *)
Lemma foldl_visit ns : forall v q,
  length v = N -> (forall n, n ∈ ns -> (n < N)%nat) ->
  exists added,
    (foldl (visit accept) (v, q) ns).2 = q ++ added /\
    length (foldl (visit accept) (v, q) ns).1 = N /\
    NoDup added /\
    (forall a, a ∈ added <-> a ∈ ns /\ accept a = true /\ isSet v a = false) /\
    (forall i, isSet (foldl (visit accept) (v, q) ns).1 i = true <->
               isSet v i = true \/ i ∈ added) /\
    (unmarked (foldl (visit accept) (v, q) ns).1 + length added = unmarked v)%nat.
Proof.
  induction ns as [|n ns IH]; intros v q Hlen Hns; simpl.
  - exists []. rewrite app_nil_r.
    split_and!; [done|done|constructor| | |simpl; lia].
    + intros a. rewrite elem_of_nil. tauto.
    + intros i. rewrite elem_of_nil. tauto.
  - assert (Hn : (n < N)%nat) by (apply Hns; left).
    assert (Hns' : forall m, m ∈ ns -> (m < N)%nat) by (intros m Hm; apply Hns; by right).
    destruct (isSet v n) eqn:Hv.
    + replace (visit accept (v, q) n) with (v, q)
        by (unfold visit; simpl; by rewrite Hv).
      destruct (IH v q Hlen Hns') as (added & E1 & E2 & E3 & E4 & E5 & E6).
      exists added. split_and!; [done|done|done| |done|done].
      intros a. rewrite E4, elem_of_cons. split; [tauto|].
      intros ([->|Ha] & Hacc & Hu); [congruence|tauto].
    + destruct (accept n) eqn:Hacc.
      * replace (visit accept (v, q) n) with (setBit v n, q ++ [n])
          by (unfold visit; simpl; by rewrite Hv, Hacc).
        destruct (IH (setBit v n) (q ++ [n])) as (added & E1 & E2 & E3 & E4 & E5 & E6);
          [by rewrite length_setBit|done|].
        assert (Hnot : n ∉ added).
        { intros Hin. apply E4 in Hin as (_ & _ & Hu).
          rewrite isSet_setBit_eq in Hu by lia. done. }
        exists (n :: added). split_and!.
        -- rewrite E1. by rewrite <- app_assoc.
        -- done.
        -- by constructor.
        -- intros a. rewrite !elem_of_cons, E4. split.
           ++ intros [->|(Ha & ? & Hu)]; [tauto|].
              split_and!; [tauto|done|].
              destruct (decide (n = a)) as [->|Hne].
              ** rewrite isSet_setBit_eq in Hu by lia. done.
              ** by rewrite isSet_setBit_ne in Hu.
           ++ intros (Ha & Ha2 & Hu). destruct (decide (a = n)) as [->|Hne]; [by left|].
              right. split_and!; [tauto|done|].
              by rewrite isSet_setBit_ne.
        -- intros i. rewrite E5, isSet_setBit, elem_of_cons. split.
           ++ intros [[Hi|[-> _]]|Hi]; tauto.
           ++ intros [Hi|[->|Hi]]; [tauto| |tauto]. left. right. split; [done|lia].
        -- simpl. pose proof (unmarked_setBit v n Hv ltac:(lia)). lia.
      * replace (visit accept (v, q) n) with (v, q)
          by (unfold visit; simpl; by rewrite Hv, Hacc).
        destruct (IH v q Hlen Hns') as (added & E1 & E2 & E3 & E4 & E5 & E6).
        exists added. split_and!; [done|done|done| |done|done].
        intros a. rewrite E4, elem_of_cons. split; [tauto|].
        intros ([->|Ha] & Hacc' & Hu); [congruence|tauto].
Qed.

Variable v0 : list bool.
Variable s : nat.

(** With enough fuel the loop ends, and the invariant holds at its end. *)
Lemma bfs_run fuel : forall q v out,
  bfsInv neighbors accept N v0 s q v out ->
  (length q + unmarked v <= fuel)%nat ->
  exists out' v',
    bfs neighbors accept fuel q v out = Some (out', v') /\
    bfsInv neighbors accept N v0 s [] v' out'.
Proof.
  induction fuel as [|fuel IH]; intros q v out Hinv Hfuel.
  - destruct q as [|c q]; [|simpl in Hfuel; lia].
    exists out, v. done.
  - destruct q as [|c q]; [exists out, v; done|].
    destruct Hinv as (Hlen & Hnd & Hel & Hmk & Hdone & Hseed).
    assert (Hc : (c < N)%nat).
    { apply Hel. apply elem_of_app. right. left. }
    destruct (foldl_visit (neighbors c) v q Hlen (fun n => neighbors_lt c n Hc))
      as (added & E1 & E2 & E3 & E4 & E5 & E6).
    simpl. rewrite E1.
    apply IH.
    + split_and!.
      * done.
      * rewrite <- app_assoc. simpl.
        replace (out ++ c :: q ++ added) with ((out ++ c :: q) ++ added)
          by (by rewrite <- app_assoc).
        apply NoDup_app. split_and!; [done| |done].
        intros i Hi Ha. apply E4 in Ha as (_ & _ & Hu).
        assert (isSet v i = true) by (apply Hmk; by right). congruence.
      * intros i Hi.
        assert (Hi' : i ∈ out ++ c :: q \/ i ∈ added).
        { rewrite ?elem_of_app, ?elem_of_cons, ?elem_of_nil in *. tauto. }
        destruct Hi' as [Hi'|Hi']; [by apply Hel|].
        apply E4 in Hi' as (Hn & Hacc & Hu).
        split_and!.
        -- by eapply neighbors_lt.
        -- destruct (isSet v0 i) eqn:E0; [|done].
           assert (isSet v i = true) by (apply Hmk; by left). congruence.
        -- eapply reach_step; [|done|done|].
           ++ apply Hel. apply elem_of_app. right. left.
           ++ destruct (isSet v0 i) eqn:E0; [|done].
              assert (isSet v i = true) by (apply Hmk; by left). congruence.
      * intros i. rewrite E5, Hmk.
        rewrite ?elem_of_app, ?elem_of_cons, ?elem_of_nil. tauto.
      * intros p n Hp Hn Hacc.
        apply E5. apply elem_of_app in Hp as [Hp|Hp].
        -- left. by eapply Hdone.
        -- apply list_elem_of_singleton in Hp as ->.
           destruct (isSet v n) eqn:Ev; [by left|].
           right. apply E4. done.
      * rewrite ?elem_of_app, ?elem_of_cons, ?elem_of_nil in *. tauto.
    + rewrite length_app. simpl in Hfuel. lia.
Qed.

(** At the end of the loop [out] is exactly what [s] reaches. *)
Lemma bfsInv_final v out :
  bfsInv neighbors accept N v0 s [] v out ->
  length v = N /\ NoDup out /\
  (forall i, i ∈ out <-> reach neighbors accept v0 s i) /\
  (forall i, i ∈ out -> (i < N)%nat /\ isSet v0 i = false) /\
  (forall i, isSet v i = true <-> isSet v0 i = true \/ i ∈ out).
Proof.
  unfold bfsInv. rewrite app_nil_r.
  intros (Hlen & Hnd & Hel & Hmk & Hdone & Hseed).
  split_and!; [done|done| | |done].
  - intros i. split; [apply Hel|].
    induction 1 as [|p n Hp IH Hn Hacc Hu]; [done|].
    assert (Hm : isSet v n = true) by (by eapply Hdone).
    apply Hmk in Hm as [Hm|Hm]; [congruence|done].
  - intros i Hi. split; by apply Hel.
Qed.

(** The traversal from a fresh seed: [queue = [s]], [visited[s] = 1]. *)
Lemma bfs_from_seed :
  length v0 = N -> (s < N)%nat -> isSet v0 s = false ->
  exists out v,
    bfs neighbors accept N [s] (setBit v0 s) [] = Some (out, v) /\
    length v = N /\ NoDup out /\
    (forall i, i ∈ out <-> reach neighbors accept v0 s i) /\
    (forall i, i ∈ out -> (i < N)%nat /\ isSet v0 i = false) /\
    (forall i, isSet v i = true <-> isSet v0 i = true \/ i ∈ out).
Proof.
  intros Hlen Hs Hu.
  destruct (bfs_run N [s] (setBit v0 s) []) as (out & v & Hrun & Hinv).
  - split_and!.
    + by rewrite length_setBit.
    + simpl. apply NoDup_singleton.
    + simpl. intros i Hi. apply list_elem_of_singleton in Hi as ->.
      split_and!; [done|done|constructor].
    + simpl. intros i. rewrite isSet_setBit, list_elem_of_singleton.
      split.
      * intros [H|[-> _]]; tauto.
      * intros [H| ->]; [tauto|]. right. split; [done|lia].
    + intros p n Hp. by apply elem_of_nil in Hp.
    + simpl. apply list_elem_of_singleton. done.
  - simpl. pose proof (unmarked_setBit v0 s Hu ltac:(lia)).
    pose proof (unmarked_le v0). lia.
  - exists out, v. split; [done|]. by apply bfsInv_final.
Qed.
End BfsFacts.

(** * The two flood fills are instances of the queue traversal *)

Lemma foldl_pointwise {A B} (f g : A -> B -> A) (l : list B) (a : A) :
  (forall a b, f a b = g a b) -> foldl f a l = foldl g a l.
Proof.
  intros E. revert a. induction l as [|b l IH]; intros a; simpl; [done|].
  by rewrite E, IH.
Qed.

Lemma foldl_bind {A B C} (f : A -> B -> A) (g : C -> list B) (l : list C) (a : A) :
  foldl f a (l ≫= g) = foldl (fun a c => foldl f a (g c)) a l.
Proof.
  revert a. induction l as [|c l IH]; intros a; simpl; [done|].
  by rewrite foldl_app, IH.
Qed.

Lemma flatVisit_visit data t start st n :
  flatVisit data t start st n = visit (isFlatWith data t start) st n.
Proof.
  destruct st as [v q]. unfold flatVisit, visit. simpl.
  destruct (isSet v n); simpl; [done|].
  by destruct (isFlatWith data t start n).
Qed.

Lemma floodFill_bfs w h data t fuel start : forall q v out,
  floodFill w h data t fuel start q v out
  = bfs (flatNeighbors w h) (isFlatWith data t start) fuel q v out.
Proof.
  induction fuel as [|fuel IH]; intros q v out; destruct q as [|c q]; simpl; try done.
  rewrite (foldl_pointwise _ (visit (isFlatWith data t start)))
    by apply flatVisit_visit.
  apply IH.
Qed.

Lemma windowVisit_visit w h leaks x y ny st nx :
  windowVisit w h leaks x y ny st nx
  = foldl (visit (isSet leaks)) st (windowCell w h x y ny nx).
Proof.
  destruct st as [v q]. unfold windowVisit, windowCell.
  destruct (decide (nx = 0 /\ ny = 0)); [done|].
  destruct (decide _); [|done].
  simpl. unfold visit. simpl.
  by rewrite andb_comm.
Qed.

Lemma window_loops w h leaks idx st :
  foldl (fun st ny =>
           foldl (windowVisit w h leaks (Z.of_nat (idx mod w)) (Z.of_nat (idx / w)) ny)
             st windowOffsets) st windowOffsets
  = foldl (visit (isSet leaks)) st (windowNeighbors w h idx).
Proof.
  unfold windowNeighbors. rewrite foldl_bind.
  apply foldl_pointwise. intros a ny.
  rewrite foldl_bind. apply foldl_pointwise. intros a' nx.
  apply windowVisit_visit.
Qed.

Lemma clusterFill_step w h leaks fuel c q v pts :
  clusterFill w h leaks (S fuel) (c :: q) v pts
  = let st := foldl (fun st ny =>
                foldl (windowVisit w h leaks (Z.of_nat (c mod w)) (Z.of_nat (c / w)) ny)
                  st windowOffsets) (v, q) windowOffsets in
    clusterFill w h leaks fuel st.2 st.1
      (pts ++ [mkPoint (Z.of_nat (c mod w)) (Z.of_nat (c / w))]).
Proof. reflexivity. Qed.

Lemma bfs_step neighbors accept fuel c q v out :
  bfs neighbors accept (S fuel) (c :: q) v out
  = let st := foldl (visit accept) (v, q) (neighbors c) in
    bfs neighbors accept fuel st.2 st.1 (out ++ [c]).
Proof. reflexivity. Qed.

Lemma clusterFill_bfs w h leaks fuel : forall q v out,
  clusterFill w h leaks fuel q v (pointOf w <$> out)
  = option_map (fun r => (pointOf w <$> r.1, r.2))
      (bfs (windowNeighbors w h) (isSet leaks) fuel q v out).
Proof.
  induction fuel as [|fuel IH]; intros q v out; destruct q as [|c q];
    [reflexivity|reflexivity|reflexivity|].
  rewrite clusterFill_step, bfs_step. cbv zeta.
  rewrite window_loops.
  replace ((pointOf w <$> out) ++ [mkPoint (Z.of_nat (c mod w)) (Z.of_nat (c / w))])
    with (pointOf w <$> (out ++ [c])) by (by rewrite fmap_app).
  apply IH.
Qed.

(** * Index arithmetic on the grid *)

Lemma grid_index (w h idx : nat) :
  (idx < w * h)%nat ->
  (0 < w)%nat /\ (idx mod w < w)%nat /\ (idx / w < h)%nat /\
  idx = (idx / w * w + idx mod w)%nat.
Proof.
  intros H. assert (Hw : (0 < w)%nat) by (destruct w; simpl in *; lia).
  pose proof (Nat.div_mod idx w ltac:(lia)) as E.
  pose proof (Nat.mod_upper_bound idx w ltac:(lia)) as Hm.
  split_and!; [done|done| |lia].
  apply Nat.Div0.div_lt_upper_bound. lia.
Qed.

Lemma grid_index_of (w x y : nat) :
  (x < w)%nat -> ((y * w + x) mod w = x /\ (y * w + x) / w = y)%nat.
Proof.
  intros H. split.
  - rewrite Nat.add_comm, Nat.Div0.mod_add. by apply Nat.mod_small.
  - rewrite Nat.add_comm, Nat.div_add by lia. rewrite Nat.div_small by done. lia.
Qed.

Lemma flatNeighbors_lt w h p q :
  (p < w * h)%nat -> q ∈ flatNeighbors w h p -> (q < w * h)%nat.
Proof.
  intros Hp. destruct (grid_index w h p Hp) as (Hw & Hx & Hy & E).
  unfold flatNeighbors.
  rewrite ?elem_of_app.
  repeat case_decide; rewrite ?elem_of_cons, ?elem_of_nil; nia.
Qed.

Lemma windowCell_elem w h x y ny nx q :
  q ∈ windowCell w h x y ny nx <->
  ~ (nx = 0 /\ ny = 0) /\ 0 <= x + nx < Z.of_nat w /\ 0 <= y + ny < Z.of_nat h /\
  q = Z.to_nat ((y + ny) * Z.of_nat w + (x + nx)).
Proof.
  unfold windowCell. repeat case_decide; rewrite ?elem_of_cons, ?elem_of_nil; lia.
Qed.

Lemma windowOffsets_elem n : n ∈ windowOffsets <-> -3 <= n <= 3.
Proof. unfold windowOffsets, searchRadius. rewrite elem_of_seqZ. lia. Qed.

Lemma windowNeighbors_elem w h p q :
  q ∈ windowNeighbors w h p <->
  exists nx ny, -3 <= nx <= 3 /\ -3 <= ny <= 3 /\ ~ (nx = 0 /\ ny = 0) /\
    0 <= Z.of_nat (p mod w) + nx < Z.of_nat w /\
    0 <= Z.of_nat (p / w) + ny < Z.of_nat h /\
    q = Z.to_nat ((Z.of_nat (p / w) + ny) * Z.of_nat w + (Z.of_nat (p mod w) + nx)).
Proof.
  unfold windowNeighbors. rewrite list_elem_of_bind. split.
  - intros (ny & Hq & Hny). apply list_elem_of_bind in Hq as (nx & Hq & Hnx).
    apply windowCell_elem in Hq. apply windowOffsets_elem in Hny, Hnx.
    exists nx, ny. tauto.
  - intros (nx & ny & Hnx & Hny & H).
    exists ny. split; [|by apply windowOffsets_elem].
    apply list_elem_of_bind. exists nx. split; [|by apply windowOffsets_elem].
    apply windowCell_elem. tauto.
Qed.

Lemma windowNeighbors_lt w h p q :
  q ∈ windowNeighbors w h p -> (q < w * h)%nat.
Proof.
  intros (nx & ny & _ & _ & _ & Hx & Hy & ->)%windowNeighbors_elem. nia.
Qed.

(** * Pass 4 finds the connected components *)

Lemma reach_unmarked neighbors accept v0 s i :
  isSet v0 s = false -> reach neighbors accept v0 s i -> isSet v0 i = false.
Proof. intros Hs. by induction 1. Qed.

Lemma reach_accept neighbors accept v0 s i :
  accept s = true -> reach neighbors accept v0 s i -> accept i = true.
Proof. intros Hs. by induction 1. Qed.

Lemma reach_lt neighbors accept v0 N s i :
  (forall p q, (p < N)%nat -> q ∈ neighbors p -> (q < N)%nat) ->
  (s < N)%nat -> reach neighbors accept v0 s i -> (i < N)%nat.
Proof. intros Hn Hs. induction 1; [done|]. by eapply Hn. Qed.

Lemma reach_newMask neighbors accept v0 N s i :
  reach neighbors accept v0 s i -> reach neighbors accept (newMask N) s i.
Proof.
  induction 1 as [|p n Hp IH Hn Hacc Hu]; [constructor|].
  eapply reach_step; [done|done|done|apply isSet_newMask].
Qed.

Lemma reach_trans neighbors accept v0 s i j :
  reach neighbors accept v0 s i -> reach neighbors accept v0 i j ->
  reach neighbors accept v0 s j.
Proof.
  intros Hsi. induction 1 as [|p n Hp IH Hn Hacc Hu]; [done|].
  by eapply reach_step.
Qed.

Lemma to_nat_index (w : nat) (x y : Z) :
  0 <= x -> 0 <= y ->
  Z.to_nat (y * Z.of_nat w + x) = (Z.to_nat y * w + Z.to_nat x)%nat.
Proof.
  intros Hx Hy. rewrite Z2Nat.inj_add by nia.
  rewrite Z2Nat.inj_mul by lia. by rewrite Nat2Z.id.
Qed.

Section Window.
Variables (w h : nat) (leaks : list bool).

Lemma pointOf_indexOf (p : Point) :
  inGrid w h p -> pointOf w (indexOf w p) = p /\ (indexOf w p < w * h)%nat.
Proof.
  destruct p as [x y]. unfold inGrid, indexOf, pointOf. simpl. intros [Hx Hy].
  rewrite to_nat_index by lia.
  destruct (grid_index_of w (Z.to_nat x) (Z.to_nat y) ltac:(lia)) as [-> ->].
  split; [f_equal; lia|nia].
Qed.

Lemma indexOf_pointOf (i : nat) :
  (i < w * h)%nat -> indexOf w (pointOf w i) = i /\ inGrid w h (pointOf w i).
Proof.
  intros Hi. destruct (grid_index w h i Hi) as (Hw & Hx & Hy & E).
  unfold indexOf, pointOf, inGrid. simpl. split; [lia|lia].
Qed.

Lemma pointOf_inj (i j : nat) :
  (0 < w)%nat -> pointOf w i = pointOf w j -> i = j.
Proof.
  intros Hw. unfold pointOf. intros [= Hx Hy].
  pose proof (Nat.div_mod i w ltac:(lia)).
  pose proof (Nat.div_mod j w ltac:(lia)). nia.
Qed.

(** The window loops look exactly at the neighbours inside the grid. *)
Lemma windowNeighbors_adjacent (p n : nat) :
  (p < w * h)%nat ->
  n ∈ windowNeighbors w h p <->
  (n < w * h)%nat /\ adjacent (pointOf w p) (pointOf w n).
Proof.
  intros Hp. destruct (grid_index w h p Hp) as (Hw & Hx & Hy & E).
  rewrite windowNeighbors_elem. unfold adjacent, searchRadius. split.
  - intros (nx & ny & Hnx & Hny & Hne & Hbx & Hby & ->).
    set (x := (p mod w)%nat) in *. set (y := (p / w)%nat) in *.
    rewrite to_nat_index by lia.
    destruct (grid_index_of w (Z.to_nat (Z.of_nat x + nx)) (Z.to_nat (Z.of_nat y + ny))
                ltac:(lia)) as [Ex Ey].
    split; [nia|].
    unfold pointOf. rewrite Ex, Ey. fold x y. simpl.
    split_and!; [|lia|lia].
    intros [= H1 H2]. lia.
  - intros (Hn & Hne & Hdx & Hdy).
    destruct (grid_index w h n Hn) as (_ & Hnx & Hny & En).
    unfold pointOf in *. simpl in *.
    exists (Z.of_nat (n mod w) - Z.of_nat (p mod w)),
           (Z.of_nat (n / w) - Z.of_nat (p / w)).
    split_and!; try lia.
    intros [H1 H2]. apply Hne. f_equal; lia.
Qed.

Lemma adjacent_sym p q : adjacent p q -> adjacent q p.
Proof. unfold adjacent. intros (Hne & Hx & Hy). split_and!; [congruence|lia|lia]. Qed.

Lemma windowNeighbors_sym (p n : nat) :
  (p < w * h)%nat -> n ∈ windowNeighbors w h p -> p ∈ windowNeighbors w h n.
Proof.
  intros Hp Hn. apply windowNeighbors_adjacent in Hn as [Hn Ha]; [|done].
  apply windowNeighbors_adjacent; [done|]. split; [done|by apply adjacent_sym].
Qed.

(** Under the scan invariant the marks of earlier clusters never block a
    traversal: it reaches the whole component of its seed. *)
Lemma reach_component visited s i :
  scanInv w h leaks visited -> (s < w * h)%nat ->
  isSet leaks s = true -> isSet visited s = false ->
  reach (windowNeighbors w h) (isSet leaks) visited s i <->
  componentOf w h leaks s i.
Proof.
  intros (Hlen & Hsub & Hclosed) Hs Hleak Hu. unfold componentOf. split.
  - apply reach_newMask.
  - induction 1 as [|p n Hp IH Hn Hacc _]; [constructor|].
    eapply reach_step; [done|done|done|].
    destruct (isSet visited n) eqn:E; [|done].
    assert (Hplt : (p < w * h)%nat).
    { eapply reach_lt; [|exact Hs|exact IH]. intros ? ? _. apply windowNeighbors_lt. }
    assert (isSet visited p = true).
    { eapply Hclosed; [exact E| |].
      - by apply windowNeighbors_sym.
      - eapply reach_accept; [exact Hleak|exact IH]. }
    pose proof (reach_unmarked _ _ _ _ _ Hu IH). congruence.
Qed.

(** One cluster of the scan. *)
Lemma clusterAt_spec visited s :
  scanInv w h leaks visited -> (s < w * h)%nat ->
  isSet leaks s = true -> isSet visited s = false ->
  exists out visited',
    clusterAt w h leaks s visited = Some (pointOf w <$> out, visited') /\
    NoDup out /\
    (forall j, j ∈ out <-> componentOf w h leaks s j) /\
    (forall j, isSet visited' j = true <-> isSet visited j = true \/ j ∈ out) /\
    scanInv w h leaks visited'.
Proof.
  intros Hinv Hs Hleak Hu.
  pose proof Hinv as (Hlen & Hsub & Hclosed).
  destruct (bfs_from_seed (windowNeighbors w h) (isSet leaks) (w * h)
              (fun p q _ => windowNeighbors_lt w h p q) visited s Hlen Hs Hu)
    as (out & v & Hrun & Hlen' & Hnd & Hout & Hfresh & Hmk).
  exists out, v.
  assert (Hcomp : forall j, j ∈ out <-> componentOf w h leaks s j).
  { intros j. rewrite Hout. by apply reach_component. }
  split_and!; [|done|done|done|].
  - unfold clusterAt.
    change (@nil Point) with (pointOf w <$> @nil nat).
    rewrite clusterFill_bfs, Hrun. done.
  - split_and!; [done| |].
    + intros i Hi. apply Hmk in Hi as [Hi|Hi]; [by apply Hsub|].
      apply Hout in Hi. eapply reach_accept; [exact Hleak|exact Hi].
    + intros p n Hp Hn Hacc. apply Hmk.
      apply Hmk in Hp as [Hp|Hp]; [left; by eapply Hclosed|].
      right. apply Hcomp. apply Hcomp in Hp.
      eapply reach_step; [exact Hp|done|done|apply isSet_newMask].
Qed.
End Window.

(** * Connected pixels *)

Section Connected.
Variables (w h : nat) (leaks : list bool).

Lemma connected_leak s p :
  leakAt w h leaks s -> connected w h leaks s p -> leakAt w h leaks p.
Proof. intros Hs. by induction 1. Qed.

Lemma connected_trans s p q :
  connected w h leaks s p -> connected w h leaks p q -> connected w h leaks s q.
Proof.
  intros Hsp. induction 1 as [|q r Hq IH Ha Hl]; [done|].
  by eapply connected_step.
Qed.

Lemma connected_sym s p :
  leakAt w h leaks s -> connected w h leaks s p -> connected w h leaks p s.
Proof.
  intros Hs. induction 1 as [|p q Hp IH Ha Hl]; [constructor|].
  eapply connected_trans; [|exact IH].
  eapply connected_step; [constructor|by apply adjacent_sym|].
  eapply connected_leak; [exact Hs|exact Hp].
Qed.

(** Two clusters that share a pixel list the same pixels. *)
Lemma isCluster_unique c c' p :
  isCluster w h leaks c -> isCluster w h leaks c' -> p ∈ c -> p ∈ c' -> c ≡ₚ c'.
Proof.
  intros (Hnd & s & Hs & Hc) (Hnd' & s' & Hs' & Hc') Hp Hp'.
  apply Hc in Hp. apply Hc' in Hp'.
  assert (Hss' : connected w h leaks s s').
  { eapply connected_trans; [exact Hp|]. by apply connected_sym. }
  apply NoDup_Permutation; [done|done|].
  intros q. rewrite Hc, Hc'. split; intros Hq.
  - eapply connected_trans; [|exact Hq]. by apply connected_sym.
  - eapply connected_trans; [exact Hss'|exact Hq].
Qed.

(** From indices to coordinates. *)
Lemma componentOf_connected s i :
  (s < w * h)%nat -> isSet leaks s = true ->
  componentOf w h leaks s i -> connected w h leaks (pointOf w s) (pointOf w i).
Proof.
  intros Hs Hleak. induction 1 as [|p n Hp IH Hn Hacc _]; [constructor|].
  assert (Hplt : (p < w * h)%nat).
  { eapply reach_lt; [|exact Hs|exact Hp]. intros ? ? _. apply windowNeighbors_lt. }
  apply windowNeighbors_adjacent in Hn as [Hnlt Ha]; [|done].
  eapply connected_step; [exact IH|exact Ha|].
  destruct (indexOf_pointOf w h n Hnlt) as [E Hg].
  split; [done|by rewrite E].
Qed.

Lemma connected_componentOf s q :
  (s < w * h)%nat ->
  connected w h leaks (pointOf w s) q ->
  exists i, q = pointOf w i /\ componentOf w h leaks s i.
Proof.
  intros Hs. induction 1 as [|p q Hp (i & -> & Hi) Ha [Hg Hl]].
  - exists s. split; [done|constructor].
  - destruct (pointOf_indexOf w h q Hg) as [E Hlt].
    exists (indexOf w q). split; [done|].
    assert (Hilt : (i < w * h)%nat).
    { eapply reach_lt; [|exact Hs|exact Hi]. intros ? ? _. apply windowNeighbors_lt. }
    eapply reach_step; [exact Hi| |exact Hl|apply isSet_newMask].
    apply windowNeighbors_adjacent; [done|]. split; [done|by rewrite E].
Qed.

Lemma isComponent_isCluster c :
  isComponent w h leaks c -> isCluster w h leaks c.
Proof.
  intros (s & out & -> & Hnd & Hs & Hleak & Hout).
  destruct (grid_index w h s Hs) as (Hw & _).
  destruct (indexOf_pointOf w h s Hs) as [E Hg].
  split.
  - apply NoDup_fmap_2_strong; [|done].
    intros x y _ _. by apply pointOf_inj.
  - exists (pointOf w s). split; [split; [done|by rewrite E]|].
    intros p. rewrite list_elem_of_fmap. split.
    + intros (i & -> & Hi). apply componentOf_connected; [done|done|by apply Hout].
    + intros Hp. apply connected_componentOf in Hp as (i & -> & Hi); [|done].
      exists i. split; [done|by apply Hout].
Qed.
End Connected.

(** * The scan of pass 4 *)

Lemma scanInv_newMask w h leaks : scanInv w h leaks (newMask (w * h)).
Proof.
  split_and!; [apply length_newMask| |]; intros *; by rewrite isSet_newMask.
Qed.

Lemma scan_spec w h leaks t indices : forall visited,
  scanInv w h leaks visited ->
  (forall i, i ∈ indices -> (i < w * h)%nat) ->
  exists cs,
    clustersLoop w h leaks indices visited = Some cs /\
    clusterScan w h leaks t indices visited = Some (existsb (isBlob t) cs) /\
    Forall (isComponent w h leaks) cs /\
    (forall j, j ∈ indices -> isSet leaks j = true ->
       isSet visited j = true \/ exists c, c ∈ cs /\ pointOf w j ∈ c).
Proof.
  induction indices as [|i indices IH]; intros visited Hinv Hlt.
  - exists []. split_and!; [done|done|constructor|].
    intros j Hj. by apply elem_of_nil in Hj.
  - assert (Hi : (i < w * h)%nat) by (apply Hlt; left).
    assert (Hlt' : forall j, j ∈ indices -> (j < w * h)%nat)
      by (intros j Hj; apply Hlt; by right).
    simpl.
    destruct (isSet leaks i) eqn:Hleak; simpl;
      [destruct (isSet visited i) eqn:Hv; simpl|].
    + destruct (IH visited Hinv Hlt') as (cs & E1 & E2 & E3 & E4).
      exists cs. split_and!; [done|done|done|].
      intros j Hj Hl. apply elem_of_cons in Hj as [->|Hj]; [by left|by apply E4].
    + destruct (clusterAt_spec w h leaks visited i Hinv Hi Hleak Hv)
        as (out & visited' & Hat & Hnd & Hout & Hmk & Hinv').
      rewrite Hat.
      destruct (IH visited' Hinv' Hlt') as (cs & E1 & E2 & E3 & E4).
      exists ((pointOf w <$> out) :: cs). rewrite E1, E2.
      split_and!; [done| | |].
      * simpl. by destruct (isBlob t (pointOf w <$> out)).
      * constructor; [|done]. by exists i, out.
      * intros j Hj Hl.
        assert (Hin : forall k, k ∈ out ->
                  exists c, c ∈ (pointOf w <$> out) :: cs /\ pointOf w k ∈ c).
        { intros k Hk. exists (pointOf w <$> out). split; [left|].
          by apply list_elem_of_fmap_2. }
        apply elem_of_cons in Hj as [->|Hj].
        -- right. apply Hin, Hout. constructor.
        -- destruct (E4 j Hj Hl) as [Hm|(c & Hc & Hjc)].
           ++ apply Hmk in Hm as [Hm|Hm]; [by left|right; by apply Hin].
           ++ right. exists c. split; [by right|done].
    + destruct (IH visited Hinv Hlt') as (cs & E1 & E2 & E3 & E4).
      exists cs. split_and!; [done|done|done|].
      intros j Hj Hl. apply elem_of_cons in Hj as [->|Hj]; [congruence|by apply E4].
Qed.

(** * The hull does not depend on the order of the cluster's pixels *)

Lemma sortPoints_sorted c : StronglySorted pointLe (sortPoints c).
Proof. apply StronglySorted_merge_sort; apply _. Qed.

Lemma sortPoints_perm c c' : c ≡ₚ c' -> sortPoints c = sortPoints c'.
Proof.
  intros E. apply (StronglySorted_unique pointLe); [apply sortPoints_sorted..|].
  unfold sortPoints. by rewrite !merge_sort_Permutation.
Qed.

Lemma sortPoints_of_sorted c : StronglySorted pointLe c -> sortPoints c = c.
Proof.
  intros Hc. apply (StronglySorted_unique pointLe); [apply sortPoints_sorted|done|].
  apply merge_sort_Permutation.
Qed.

Lemma getConvexHull_small c :
  (length c <= 2)%nat -> getConvexHull c = c.
Proof. intros H. unfold getConvexHull. by rewrite decide_True. Qed.

Lemma getConvexHull_large c :
  (2 < length c)%nat ->
  getConvexHull c
  = dropLast (buildHull (sortPoints c)) ++ dropLast (buildHull (reverse (sortPoints c))).
Proof. intros H. unfold getConvexHull. rewrite decide_False by lia. done. Qed.

Lemma blobShape_perm t c c' : c ≡ₚ c' -> blobShape t c -> blobShape t c'.
Proof.
  intros E. pose proof (Permutation_length E) as El.
  unfold blobShape. rewrite <- El.
  destruct (decide (length c <= 2)%nat) as [Hs|Hl].
  - rewrite (getConvexHull_small c Hs). lia.
  - rewrite (getConvexHull_large c), (getConvexHull_large c') by lia.
    by rewrite (sortPoints_perm c c' E).
Qed.

Lemma isBlob_spec t c : isBlob t c = true <-> blobShape t c.
Proof.
  unfold isBlob, blobShape.
  destruct (decide (Z.of_nat (length c) > t)); [|intuition (done || lia)].
  destruct (decide (2 < length (getConvexHull c))%nat); [|intuition (done || lia)].
  destruct (Qlt_le_dec 0 (polygonArea (getConvexHull c))) as [Ha|Ha].
  - destruct (Qlt_le_dec SOLIDITY_THRESHOLD _) as [Hs|Hs]; [tauto|].
    split; [done|]. intros (_ & _ & _ & Hs'). by apply Qle_not_lt in Hs.
  - split; [done|]. intros (_ & _ & Ha' & _). by apply Qle_not_lt in Ha.
Qed.

(** * Counting leak pixels *)

Lemma totalLeakedPixels_clear leaks a :
  isSet leaks a = true ->
  totalLeakedPixels (<[a := false]> leaks) + 1 = totalLeakedPixels leaks.
Proof.
  revert a. induction leaks as [|b leaks IH]; intros a Ha; [done|].
  destruct a as [|a]; simpl.
  - unfold isSet in Ha. simpl in Ha. subst b. lia.
  - rewrite <- (IH a Ha). lia.
Qed.

Lemma isSet_clear_ne leaks a i : a ≠ i -> isSet (<[a := false]> leaks) i = isSet leaks i.
Proof. intros H. unfold isSet. by rewrite list_lookup_insert_ne. Qed.

Lemma totalLeakedPixels_nonneg leaks : 0 <= totalLeakedPixels leaks.
Proof. induction leaks as [|[] leaks IH]; simpl; lia. Qed.

(** Distinct leak indices are at most as many as the leak pixels. *)
Lemma length_le_totalLeakedPixels out : forall leaks,
  NoDup out -> (forall i, i ∈ out -> isSet leaks i = true) ->
  Z.of_nat (length out) <= totalLeakedPixels leaks.
Proof.
  induction out as [|a out IH]; intros leaks Hnd Hall.
  - apply totalLeakedPixels_nonneg.
  - apply NoDup_cons in Hnd as [Ha Hnd].
    rewrite <- (totalLeakedPixels_clear leaks a) by (apply Hall; left).
    specialize (IH (<[a := false]> leaks) Hnd).
    simpl length. rewrite Nat2Z.inj_succ.
    assert (Z.of_nat (length out) <= totalLeakedPixels (<[a:=false]> leaks)); [|lia].
    apply IH. intros i Hi. rewrite isSet_clear_ne.
    + apply Hall. by right.
    + intros ->. done.
Qed.

Lemma isComponent_size w h leaks c :
  isComponent w h leaks c -> Z.of_nat (length c) <= totalLeakedPixels leaks.
Proof.
  intros (s & out & -> & Hnd & Hs & Hleak & Hout).
  rewrite length_fmap. apply length_le_totalLeakedPixels; [done|].
  intros i Hi. apply Hout in Hi. eapply reach_accept; [exact Hleak|exact Hi].
Qed.

(** * Pass 4 on a mask *)

(** The scan ends, and it answers whether some cluster has the blob shape. *)
Lemma clusterAnalysis_spec w h leaks t :
  length leaks = (w * h)%nat ->
  exists cs,
    clusters w h leaks = Some cs /\
    clusterAnalysis w h leaks t = Some (existsb (isBlob t) cs) /\
    Forall (isComponent w h leaks) cs /\
    (forall p, leakAt w h leaks p -> exists c, c ∈ cs /\ p ∈ c).
Proof.
  intros Hlen.
  destruct (scan_spec w h leaks t (seq 0 (length leaks)) (newMask (w * h))
              (scanInv_newMask w h leaks)) as (cs & E1 & E2 & E3 & E4).
  { intros i Hi. apply elem_of_seq in Hi. lia. }
  exists cs. split_and!; [done|done|done|].
  intros p [Hg Hl].
  destruct (pointOf_indexOf w h p Hg) as [E Hlt].
  destruct (E4 (indexOf w p)) as [Hm|Hc]; [apply elem_of_seq; lia|done| |].
  - by rewrite isSet_newMask in Hm.
  - by rewrite E in Hc.
Qed.

Lemma clusterAnalysis_iff w h leaks t :
  length leaks = (w * h)%nat ->
  exists b,
    clusterAnalysis w h leaks t = Some b /\
    (b = true <-> exists c, isCluster w h leaks c /\ blobShape t c).
Proof.
  intros Hlen.
  destruct (clusterAnalysis_spec w h leaks t Hlen) as (cs & _ & E & Hcs & Hall).
  exists (existsb (isBlob t) cs). split; [done|].
  rewrite Forall_forall in Hcs.
  rewrite existsb_exists. split.
  - intros (c & Hc & Hb). apply list_elem_of_In in Hc.
    exists c. split; [by apply isComponent_isCluster, Hcs|by apply isBlob_spec].
  - intros (c & Hcl & Hb).
    pose proof Hcl as (_ & s & Hs & Hc).
    destruct (Hall s Hs) as (c' & Hc' & Hsc').
    exists c'. split; [by apply list_elem_of_In|].
    apply isBlob_spec. apply (blobShape_perm t c c'); [|done].
    apply (isCluster_unique w h leaks c c' s); [done| |by apply Hc; constructor|done].
    by apply isComponent_isCluster, Hcs.
Qed.

(** Below the size threshold no cluster can be a blob. *)
Lemma clusterAnalysis_small w h leaks t :
  length leaks = (w * h)%nat ->
  totalLeakedPixels leaks <= t ->
  clusterAnalysis w h leaks t = Some false.
Proof.
  intros Hlen Hsmall.
  destruct (clusterAnalysis_spec w h leaks t Hlen) as (cs & _ & E & Hcs & _).
  rewrite E. f_equal. apply not_true_is_false. rewrite existsb_exists.
  intros (c & Hc & Hb). apply list_elem_of_In in Hc.
  rewrite Forall_forall in Hcs.
  pose proof (isComponent_size w h leaks c (Hcs c Hc)).
  apply isBlob_spec in Hb as (Hsize & _). lia.
Qed.

(** * Pass 1: the flat patch pass *)

Lemma length_markAll leaks indices : length (markAll leaks indices) = length leaks.
Proof.
  revert leaks. induction indices as [|i indices IH]; intros leaks; [done|].
  unfold markAll in *. simpl. by rewrite IH, length_setBit.
Qed.

Lemma isSet_markAll indices : forall leaks i,
  isSet (markAll leaks indices) i = true <->
  isSet leaks i = true \/ (i ∈ indices /\ (i < length leaks)%nat).
Proof.
  induction indices as [|a indices IH]; intros leaks i.
  - unfold markAll. simpl. rewrite elem_of_nil. tauto.
  - unfold markAll in *. simpl. rewrite IH, isSet_setBit, length_setBit, elem_of_cons.
    split.
    + intros [[H|[-> H]]|[H1 H2]]; tauto.
    + intros [H|[[->|H1] H2]]; tauto.
Qed.

Section FlatPassFacts.
Variables (w h : nat) (data : list Pixel) (t thr : Z).

(** One region of the scan. *)
Lemma flatRegionAt_spec start k visited :
  length visited = (w * h)%nat -> (k < w * h)%nat -> isSet visited k = false ->
  exists region visited',
    flatRegionAt w h data t start k visited = Some (region, visited') /\
    length visited' = (w * h)%nat /\ NoDup region /\
    (forall i, i ∈ region <->
       reach (flatNeighbors w h) (isFlatWith data t start) visited k i) /\
    (forall i, i ∈ region -> (i < w * h)%nat /\ isSet visited i = false) /\
    (forall i, isSet visited' i = true <-> isSet visited i = true \/ i ∈ region).
Proof.
  intros Hlen Hk Hu. unfold flatRegionAt. rewrite floodFill_bfs.
  apply bfs_from_seed; [|done..].
  intros p q. apply flatNeighbors_lt.
Qed.

(** The whole scan: it ends; the mask only grows; a pixel is marked by it
    exactly when it lies in a region larger than the threshold. *)
Lemma flatPassLoop_spec pixels : forall k visited leaks,
  length visited = (w * h)%nat -> length leaks = (w * h)%nat ->
  (k + length pixels <= w * h)%nat ->
  exists leaks' regions,
    flatPassLoop w h data t thr k pixels visited leaks = Some leaks' /\
    flatRegionsLoop w h data t k pixels visited = Some regions /\
    length leaks' = (w * h)%nat /\
    (forall i, isSet leaks' i = true <->
       isSet leaks i = true \/
       exists region, region ∈ regions /\
         Z.of_nat (length region) > thr /\ i ∈ region) /\
    (forall region i, region ∈ regions -> i ∈ region -> (i < w * h)%nat) /\
    (forall i, (k <= i < k + length pixels)%nat ->
       isSet visited i = true \/ exists region, region ∈ regions /\ i ∈ region).
Proof.
  induction pixels as [|start pixels IH]; intros k visited leaks Hv Hl Hk.
  - exists leaks, []. split_and!; [done|done|done| | |].
    + intros i. split; [by left|]. intros [H|(r & Hr & _)]; [done|].
      by apply elem_of_nil in Hr.
    + intros r i Hr. by apply elem_of_nil in Hr.
    + simpl. lia.
  - simpl in Hk. simpl flatPassLoop. simpl flatRegionsLoop.
    destruct (isSet visited k) eqn:Hu.
    + destruct (IH (S k) visited leaks Hv Hl ltac:(lia))
        as (leaks' & regions & E1 & E2 & E3 & E4 & E5 & E6).
      exists leaks', regions. split_and!; [done|done|done|done|done|].
      intros i Hi. destruct (decide (i = k)) as [->|Hne]; [by left|].
      apply E6. simpl in Hi. lia.
    + destruct (flatRegionAt_spec start k visited Hv ltac:(lia) Hu)
        as (region & visited' & Hat & Hv' & Hnd & Hreach & Hin & Hmk).
      rewrite Hat.
      set (leaks1 := if decide (Z.of_nat (length region) > thr)
                     then markAll leaks region else leaks).
      assert (Hl1 : length leaks1 = (w * h)%nat).
      { unfold leaks1. case_decide; [by rewrite length_markAll|done]. }
      destruct (IH (S k) visited' leaks1 Hv' Hl1 ltac:(lia))
        as (leaks' & regions & E1 & E2 & E3 & E4 & E5 & E6).
      exists leaks', (region :: regions). rewrite E1, E2.
      split_and!; [done|done|done| | |].
      * intros i. rewrite E4. unfold leaks1. split.
        -- intros [H|(r & Hr & Hbig & Hi)].
           ++ case_decide as Hbig; [|by left].
              apply isSet_markAll in H as [H|[H _]]; [by left|].
              right. exists region. split_and!; [left|done|done].
           ++ right. exists r. split_and!; [by right|done|done].
        -- intros [H|(r & Hr & Hbig & Hi)].
           ++ left. case_decide; [|done]. apply isSet_markAll. by left.
           ++ apply elem_of_cons in Hr as [->|Hr].
              ** left. rewrite decide_True by done. apply isSet_markAll.
                 right. split; [done|]. rewrite Hl. by apply Hin.
              ** right. exists r. done.
      * intros r i Hr Hi. apply elem_of_cons in Hr as [->|Hr]; [by apply Hin|].
        by eapply E5.
      * intros i Hi.
        destruct (decide (i = k)) as [->|Hne].
        { right. exists region. split; [left|]. apply Hreach. constructor. }
        destruct (E6 i ltac:(simpl in Hi; lia)) as [Hm|(r & Hr & Hir)].
        -- apply Hmk in Hm as [Hm|Hm]; [by left|].
           right. exists region. split; [left|done].
        -- right. exists r. split; [by right|done].
Qed.

End FlatPassFacts.

(** * Pass 2: the palette pass *)


Lemma length_palettePassLoop colors tol pixels : forall k leaks,
  length (palettePassLoop colors tol k pixels leaks) = length leaks.
Proof.
  induction pixels as [|p pixels IH]; intros k leaks; [done|].
  simpl. rewrite IH. destruct (isSet leaks k); [done|].
  destruct (matchesBlueprint colors tol p); [apply length_setBit|done].
Qed.

Lemma isSet_palettePassLoop colors tol pixels : forall k leaks i,
  isSet (palettePassLoop colors tol k pixels leaks) i = true <->
  isSet leaks i = true \/
  exists p, pixels !! (i - k)%nat = Some p /\ (k <= i < length leaks)%nat /\
            matchesBlueprint colors tol p = true.
Proof.
  induction pixels as [|p pixels IH]; intros k leaks i.
  - simpl. split; [by left|]. intros [H|(q & Hq & _)]; done.
  - simpl. rewrite IH. clear IH.
    set (leaks' := if isSet leaks k then leaks
                   else if matchesBlueprint colors tol p then setBit leaks k else leaks).
    assert (Hlen : length leaks' = length leaks).
    { unfold leaks'. destruct (isSet leaks k); [done|].
      destruct (matchesBlueprint colors tol p); [apply length_setBit|done]. }
    assert (Hset : isSet leaks' i = true <->
                   isSet leaks i = true \/
                   (i = k /\ (k < length leaks)%nat /\ matchesBlueprint colors tol p = true)).
    { unfold leaks'. destruct (isSet leaks k) eqn:Hk.
      - split; [by left|]. intros [H|(-> & _)]; done.
      - destruct (matchesBlueprint colors tol p) eqn:Hm.
        + rewrite isSet_setBit. split.
          * intros [H|[-> H]]; [by left|right; done].
          * intros [H|(-> & H & _)]; [by left|right; done].
        + split; [by left|]. intros [H|(_ & _ & H)]; done. }
    rewrite Hset, Hlen. split.
    + intros [[H|(-> & H1 & H2)]|(q & Hq & Hr & Hm)].
      * by left.
      * right. exists p. rewrite Nat.sub_diag. split_and!; [done|lia|lia|done].
      * right. exists q. split_and!; [|lia|lia|done].
        replace (i - k)%nat with (S (i - S k)) by lia. done.
    + intros [H|(q & Hq & Hr & Hm)]; [by left; left|].
      destruct (decide (i = k)) as [->|Hne].
      * rewrite Nat.sub_diag in Hq. simpl in Hq. injection Hq as ->.
        left. right. split_and!; [done|lia|done].
      * right. exists q. split_and!; [|lia|lia|done].
        replace (i - k)%nat with (S (i - S k)) in Hq by lia. done.
Qed.

(** * Passes 1 and 2 on a bitmap *)

(** Pass 1 on a full grid ends, and marks exactly the pixels of the large
    regions; every pixel lies in some region. *)
Lemma flatPass_some img thr t :
  wellFormed img -> t > 0 ->
  exists mask regions,
    flatPass img thr (Some t) = Some mask /\
    flatRegions img t = Some regions /\
    length mask = (width img * height img)%nat /\
    (forall i, isSet mask i = true <->
       exists region, region ∈ regions /\
         Z.of_nat (length region) > thr /\ i ∈ region) /\
    (forall i, (i < width img * height img)%nat <->
       exists region, region ∈ regions /\ i ∈ region).
Proof.
  intros Hwf Ht. unfold flatPass, flatRegions. rewrite decide_True by done.
  destruct (flatPassLoop_spec (width img) (height img) (data img) t thr (data img) 0
              (newMask (width img * height img)) (newMask (width img * height img)))
    as (mask & regions & E1 & E2 & E3 & E4 & E5 & E6);
    [apply length_newMask|apply length_newMask|rewrite Hwf; lia|].
  exists mask, regions. split_and!; [done|done|done| |].
  - intros i. rewrite E4, isSet_newMask. split; [|by right].
    intros [H|H]; done.
  - intros i. split.
    + intros Hi. destruct (E6 i) as [H|H]; [rewrite Hwf; lia| |done].
      by rewrite isSet_newMask in H.
    + intros (r & Hr & Hi). by eapply E5.
Qed.

Lemma flatPass_none img thr :
  flatPass img thr None = Some (newMask (width img * height img)).
Proof. reflexivity. Qed.

Lemma flatPass_total img thr flat :
  wellFormed img ->
  exists mask, flatPass img thr flat = Some mask /\
               length mask = (width img * height img)%nat.
Proof.
  intros Hwf. destruct flat as [t|].
  - destruct (decide (t > 0)) as [Ht|Ht].
    + destruct (flatPass_some img thr t Hwf Ht) as (mask & ? & E & _ & Hl & _).
      by exists mask.
    + exists (newMask (width img * height img)). unfold flatPass.
      rewrite decide_False by done. split; [done|apply length_newMask].
  - exists (newMask (width img * height img)). split; [done|apply length_newMask].
Qed.

Lemma leakMask_total img colors thr tol flat :
  wellFormed img ->
  exists mask, leakMask img colors thr tol flat = Some mask /\
               length mask = (width img * height img)%nat.
Proof.
  intros Hwf. destruct (flatPass_total img thr flat Hwf) as (m1 & E & Hl).
  exists (palettePass img colors tol m1). unfold leakMask. rewrite E.
  split; [done|]. unfold palettePass. by rewrite length_palettePassLoop.
Qed.

Lemma analyzeMask_total w h leaks thr :
  length leaks = (w * h)%nat -> exists needs, analyzeMask w h leaks thr = Some needs.
Proof.
  intros Hl. unfold analyzeMask. case_decide; [by exists false|].
  destruct (clusterAnalysis_iff w h leaks thr Hl) as (b & E & _). by exists b.
Qed.

(** On a full grid every loop of the analysis ends within its fuel. *)
Lemma analyzeImage_total img colors thr tol flat :
  wellFormed img ->
  exists needs mask,
    leakMask img colors thr tol flat = Some mask /\
    length mask = (width img * height img)%nat /\
    analyzeMask (width img) (height img) mask thr = Some needs /\
    analyzeImage img colors thr tol flat
    = Some (needs, heatmapOf (width img) (height img) mask).
Proof.
  intros Hwf. destruct (leakMask_total img colors thr tol flat Hwf) as (mask & E & Hl).
  destruct (analyzeMask_total (width img) (height img) mask thr Hl) as (needs & En).
  exists needs, mask. unfold analyzeImage. rewrite E, En. done.
Qed.

(** * The hull of a full grid *)

Lemma pushPoint_keep a b rest p :
  crossProduct a b p > 0 -> pushPoint (b :: a :: rest) p = p :: b :: a :: rest.
Proof. intros H. unfold pushPoint. simpl. rewrite decide_False by lia. done. Qed.

Lemma pushPoint_pop a b rest p :
  crossProduct a b p <= 0 -> pushPoint (b :: a :: rest) p = pushPoint (a :: rest) p.
Proof. intros H. unfold pushPoint. simpl. rewrite decide_True by lia. done. Qed.

Lemma pushPoint_one a p : pushPoint [a] p = [p; a].
Proof. reflexivity. Qed.

Lemma pushPoint_nil p : pushPoint [] p = [p].
Proof. reflexivity. Qed.

Lemma foldl_reverse {A B} (f : A -> B -> A) (l : list B) (a : A) :
  foldl f a (reverse l) = foldr (fun x a => f a x) a l.
Proof.
  induction l as [|x l IH]; [done|].
  rewrite reverse_cons, foldl_app, IH. done.
Qed.

Lemma gridColumn_snoc x first count :
  gridColumn x first (S count)
  = gridColumn x first count ++ [mkPoint x (Z.of_nat (first + count))].
Proof. unfold gridColumn. by rewrite seq_S, fmap_app. Qed.

Lemma gridColumn_cons x first count :
  gridColumn x first (S count)
  = mkPoint x (Z.of_nat first) :: gridColumn x (S first) count.
Proof. reflexivity. Qed.

Lemma gridColumns_snoc h first count :
  gridColumns h first (S count)
  = gridColumns h first count ++ gridColumn (Z.of_nat (first + count)) 0 h.
Proof.
  unfold gridColumns. rewrite seq_S, bind_app. simpl. by rewrite app_nil_r.
Qed.

Lemma gridColumns_cons h first count :
  gridColumns h first (S count)
  = gridColumn (Z.of_nat first) 0 h ++ gridColumns h (S first) count.
Proof. reflexivity. Qed.

(** ** The lower hull: columns left to right, each top to bottom *)

Lemma lower_first_column m :
  foldl pushPoint [] (gridColumn 0 0 (S (S m)))
  = [mkPoint 0 (Z.of_nat (S m)); mkPoint 0 0].
Proof.
  induction m as [|m IH]; [reflexivity|].
  rewrite gridColumn_snoc, foldl_snoc, IH.
  rewrite pushPoint_pop by cross. reflexivity.
Qed.

Lemma lower_column_rest x m :
  0 < x ->
  foldl pushPoint [mkPoint x 0; mkPoint 0 0] (gridColumn x 1 (S m))
  = [mkPoint x (Z.of_nat (S m)); mkPoint x 0; mkPoint 0 0].
Proof.
  intros Hx. induction m as [|m IH].
  - simpl. rewrite pushPoint_keep by cross. done.
  - rewrite gridColumn_snoc, foldl_snoc, IH.
    rewrite pushPoint_pop by cross.
    rewrite pushPoint_keep by cross. done.
Qed.

Lemma lower_columns m n :
  foldl pushPoint [] (gridColumns (S (S m)) 0 (S (S n)))
  = [mkPoint (Z.of_nat (S n)) (Z.of_nat (S m)); mkPoint (Z.of_nat (S n)) 0; mkPoint 0 0].
Proof.
  induction n as [|n IH].
  - rewrite gridColumns_snoc, foldl_app.
    replace (gridColumns (S (S m)) 0 1) with (gridColumn 0 0 (S (S m)))
      by (unfold gridColumns; simpl; by rewrite app_nil_r).
    rewrite lower_first_column.
    rewrite gridColumn_cons. simpl foldl.
    rewrite pushPoint_pop by cross. rewrite pushPoint_one.
    apply (lower_column_rest 1 m). lia.
  - rewrite gridColumns_snoc, foldl_app, IH.
    rewrite gridColumn_cons. simpl foldl.
    rewrite pushPoint_pop by cross.
    rewrite pushPoint_pop by cross. rewrite pushPoint_one.
    apply (lower_column_rest (Z.of_nat (0 + S (S n))) m). lia.
Qed.

(** ** The upper hull: the same list backwards *)

Lemma upper_last_column x top m : forall j,
  top = (j + S m)%nat ->
  foldr (fun p hull => pushPoint hull p) [mkPoint x (Z.of_nat top)]
    (gridColumn x j (S m))
  = [mkPoint x (Z.of_nat j); mkPoint x (Z.of_nat top)].
Proof.
  induction m as [|m IH]; intros j Ht.
  - reflexivity.
  - rewrite gridColumn_cons. cbn [foldr].
    rewrite (IH (S j)) by lia.
    rewrite pushPoint_pop by cross. reflexivity.
Qed.

Lemma upper_column_rest x o top m : forall j,
  x < ptx o -> pty o = Z.of_nat top -> top = (j + S m)%nat ->
  foldr (fun p hull => pushPoint hull p) [mkPoint x (Z.of_nat top); o]
    (gridColumn x j (S m))
  = [mkPoint x (Z.of_nat j); mkPoint x (Z.of_nat top); o].
Proof.
  intros j Hx Ho. revert j. induction m as [|m IH]; intros j Ht.
  - simpl. rewrite pushPoint_keep by cross. done.
  - rewrite gridColumn_cons. cbn [foldr].
    rewrite (IH (S j)) by lia.
    rewrite pushPoint_pop by cross.
    rewrite pushPoint_keep by cross. done.
Qed.

Lemma upper_columns m n : forall k,
  foldr (fun p hull => pushPoint hull p) [] (gridColumns (S (S m)) k (S (S n)))
  = [mkPoint (Z.of_nat k) 0; mkPoint (Z.of_nat k) (Z.of_nat (S m));
     mkPoint (Z.of_nat (k + S n)) (Z.of_nat (S m))].
Proof.
  induction n as [|n IH]; intros k.
  - rewrite gridColumns_cons, foldr_app.
    replace (gridColumns (S (S m)) (S k) 1) with (gridColumn (Z.of_nat (S k)) 0 (S (S m)))
      by (unfold gridColumns; simpl; by rewrite app_nil_r).
    rewrite (gridColumn_snoc _ 0 (S m)), foldr_app. cbn [foldr app].
    rewrite pushPoint_nil, Nat.add_0_l.
    rewrite (upper_last_column (Z.of_nat (S k)) (S m) m 0%nat) by lia.
    rewrite (gridColumn_snoc _ 0 (S m)), foldr_app. cbn [foldr app].
    rewrite pushPoint_pop by cross. rewrite pushPoint_one.
    replace (k + 1)%nat with (S k) by lia.
    apply (upper_column_rest (Z.of_nat k) (mkPoint (Z.of_nat (S k)) (Z.of_nat (S m)))
             (S m) m 0%nat); simpl; lia.
  - rewrite gridColumns_cons, foldr_app, IH.
    rewrite (gridColumn_snoc _ 0 (S m)), foldr_app. cbn [foldr app].
    rewrite pushPoint_pop by cross.
    rewrite pushPoint_pop by cross. rewrite pushPoint_one.
    replace (S k + S n)%nat with (k + S (S n))%nat by lia.
    apply (upper_column_rest (Z.of_nat k)
             (mkPoint (Z.of_nat (k + S (S n))) (Z.of_nat (S m))) (S m) m 0%nat);
      simpl; lia.
Qed.

(** ** The grid as a list of points *)

Lemma elem_of_gridColumn x first count p :
  p ∈ gridColumn x first count <->
  ptx p = x /\ Z.of_nat first <= pty p < Z.of_nat (first + count).
Proof.
  unfold gridColumn. rewrite list_elem_of_fmap. split.
  - intros (y & -> & Hy). apply elem_of_seq in Hy. simpl. lia.
  - intros [Hx Hy]. exists (Z.to_nat (pty p)). split.
    + destruct p as [px py]. simpl in *. f_equal; lia.
    + apply elem_of_seq. lia.
Qed.

Lemma elem_of_gridColumns h first count p :
  p ∈ gridColumns h first count <->
  Z.of_nat first <= ptx p < Z.of_nat (first + count) /\ 0 <= pty p < Z.of_nat h.
Proof.
  unfold gridColumns. rewrite list_elem_of_bind. split.
  - intros (x & Hp & Hx). apply elem_of_gridColumn in Hp. apply elem_of_seq in Hx. lia.
  - intros [Hx Hy]. exists (Z.to_nat (ptx p)). split.
    + apply elem_of_gridColumn. lia.
    + apply elem_of_seq. lia.
Qed.

Lemma elem_of_gridPoints w h p : p ∈ gridPoints w h <-> inGrid w h p.
Proof. unfold gridPoints, inGrid. rewrite elem_of_gridColumns. simpl. lia. Qed.

Lemma length_gridColumn x first count : length (gridColumn x first count) = count.
Proof. unfold gridColumn. by rewrite length_fmap, length_seq. Qed.

Lemma length_gridColumns h count : forall first,
  length (gridColumns h first count) = (count * h)%nat.
Proof.
  induction count as [|count IH]; intros first; [done|].
  rewrite gridColumns_cons, length_app, length_gridColumn, IH. lia.
Qed.

Lemma length_gridPoints w h : length (gridPoints w h) = (w * h)%nat.
Proof. apply length_gridColumns. Qed.

Lemma gridColumn_sorted x count : forall first,
  StronglySorted pointLe (gridColumn x first count).
Proof.
  induction count as [|count IH]; intros first; [constructor|].
  rewrite gridColumn_cons. constructor; [apply IH|].
  apply Forall_forall. intros p Hp. apply elem_of_gridColumn in Hp.
  unfold pointLe, comparePoints. simpl. case_decide; lia.
Qed.

Lemma gridColumns_sorted h count : forall first,
  StronglySorted pointLe (gridColumns h first count).
Proof.
  induction count as [|count IH]; intros first; [constructor|].
  rewrite gridColumns_cons.
  apply StronglySorted_app_2; [|apply gridColumn_sorted|apply IH].
  intros p q Hp Hq. apply elem_of_gridColumn in Hp. apply elem_of_gridColumns in Hq.
  unfold pointLe, comparePoints. case_decide; lia.
Qed.

Lemma gridPoints_sorted w h : StronglySorted pointLe (gridPoints w h).
Proof. apply gridColumns_sorted. Qed.

Lemma NoDup_gridColumn x first count : NoDup (gridColumn x first count).
Proof.
  unfold gridColumn. apply NoDup_fmap_2; [|apply NoDup_seq].
  intros a b E. injection E. lia.
Qed.

Lemma NoDup_gridColumns h count : forall first, NoDup (gridColumns h first count).
Proof.
  induction count as [|count IH]; intros first; [constructor|].
  rewrite gridColumns_cons. apply NoDup_app. split_and!.
  - apply NoDup_gridColumn.
  - intros p Hp Hq. apply elem_of_gridColumn in Hp. apply elem_of_gridColumns in Hq. lia.
  - apply IH.
Qed.

Lemma NoDup_gridPoints w h : NoDup (gridPoints w h).
Proof. apply NoDup_gridColumns. Qed.

(** ** Hull and area of a grid with at least two columns and two rows *)

Lemma getConvexHull_gridPoints n m :
  getConvexHull (gridPoints (S (S n)) (S (S m)))
  = [mkPoint 0 0; mkPoint (Z.of_nat (S n)) 0;
     mkPoint (Z.of_nat (S n)) (Z.of_nat (S m)); mkPoint 0 (Z.of_nat (S m))].
Proof.
  rewrite getConvexHull_large by (rewrite length_gridPoints; lia).
  rewrite sortPoints_of_sorted by apply gridPoints_sorted.
  unfold buildHull, buildHullStack, gridPoints.
  rewrite foldl_reverse, lower_columns, upper_columns.
  reflexivity.
Qed.

Lemma polygonArea_gridPoints n m :
  (polygonArea (getConvexHull (gridPoints (S (S n)) (S (S m))))
   == inject_Z (Z.of_nat (S n) * Z.of_nat (S m)))%Q.
Proof.
  rewrite getConvexHull_gridPoints. unfold polygonArea, shoelaceSum.
  cbn [last shoelace ptx pty].
  set (a := Z.of_nat (S n)). set (b := Z.of_nat (S m)).
  assert (Ha : 0 < a) by (unfold a; lia).
  assert (Hb : 0 < b) by (unfold b; lia).
  replace ((0 + 0) * (b - 0) + ((0 + a) * (0 - 0) + ((a + a) * (0 - b) + ((a + 0) * (b - b) + 0))))
    with (- (2 * (a * b))) by lia.
  assert (E : (inject_Z (- (2 * (a * b))) / 2 == - inject_Z (a * b))%Q).
  { unfold Qeq, Qdiv, Qmult, Qinv, Qopp, inject_Z. simpl. lia. }
  rewrite E, Qabs_opp. apply Qabs_pos.
  unfold Qle, inject_Z. simpl. nia.
Qed.

Lemma blobShape_gridPoints t n m :
  Z.of_nat (S (S n) * S (S m)) > t -> blobShape t (gridPoints (S (S n)) (S (S m))).
Proof.
  intros Ht. unfold blobShape. rewrite length_gridPoints.
  split_and!; [done|rewrite getConvexHull_gridPoints; simpl; lia| |].
  - rewrite polygonArea_gridPoints. unfold Qlt, inject_Z. simpl. nia.
  - rewrite polygonArea_gridPoints. unfold SOLIDITY_THRESHOLD.
    apply Qlt_shift_div_l; unfold Qlt, Qmult, inject_Z; simpl; nia.
Qed.

(** ** A mask with every pixel set is one cluster *)

Section FullMask.
Variables (w h : nat) (leaks : list bool).
Hypothesis full : forall i, (i < w * h)%nat -> isSet leaks i = true.

Lemma full_leakAt p : inGrid w h p -> leakAt w h leaks p.
Proof.
  intros Hp. split; [done|]. apply full. by apply pointOf_indexOf.
Qed.

Lemma full_connected_row a :
  (a < w)%nat -> (0 < h)%nat ->
  connected w h leaks (mkPoint 0 0) (mkPoint (Z.of_nat a) 0).
Proof.
  intros Ha Hh. induction a as [|a IH]; [constructor|].
  apply (connected_step _ _ _ _ (mkPoint (Z.of_nat a) 0)); [apply IH; lia| |].
  - unfold adjacent, searchRadius. simpl. split; [|lia].
    intros [= E]. lia.
  - apply full_leakAt. unfold inGrid. simpl. lia.
Qed.

Lemma full_connected_cell a b :
  (a < w)%nat -> (b < h)%nat ->
  connected w h leaks (mkPoint 0 0) (mkPoint (Z.of_nat a) (Z.of_nat b)).
Proof.
  intros Ha Hb. induction b as [|b IH]; [apply full_connected_row; lia|].
  apply (connected_step _ _ _ _ (mkPoint (Z.of_nat a) (Z.of_nat b))); [apply IH; lia| |].
  - unfold adjacent, searchRadius. simpl. split; [|lia].
    intros [= E]. lia.
  - apply full_leakAt. unfold inGrid. simpl. lia.
Qed.

Lemma full_isCluster :
  (0 < w)%nat -> (0 < h)%nat -> isCluster w h leaks (gridPoints w h).
Proof.
  intros Hw Hh. split; [apply NoDup_gridPoints|].
  assert (Ho : leakAt w h leaks (mkPoint 0 0)).
  { apply full_leakAt. unfold inGrid. simpl. lia. }
  exists (mkPoint 0 0). split; [done|].
  intros p. rewrite elem_of_gridPoints. split.
  - intros [Hx Hy]. destruct p as [x y]. simpl in *.
    replace x with (Z.of_nat (Z.to_nat x)) by lia.
    replace y with (Z.of_nat (Z.to_nat y)) by lia.
    apply full_connected_cell; lia.
  - intros Hc. by destruct (connected_leak w h leaks _ _ Ho Hc).
Qed.

Lemma full_totalLeakedPixels :
  Z.of_nat (w * h) <= totalLeakedPixels leaks.
Proof.
  rewrite <- (length_seq (w * h) 0).
  apply length_le_totalLeakedPixels; [apply NoDup_seq|].
  intros i Hi. apply elem_of_seq in Hi. apply full. lia.
Qed.
End FullMask.

(** A full mask over a grid with at least two columns and two rows, larger
    than the threshold, is a blob. *)
Lemma analyzeMask_full w h leaks t :
  length leaks = (w * h)%nat ->
  (forall i, (i < w * h)%nat -> isSet leaks i = true) ->
  (2 <= w)%nat -> (2 <= h)%nat -> Z.of_nat (w * h) > t ->
  analyzeMask w h leaks t = Some true.
Proof.
  intros Hlen Hfull Hw Hh Ht. unfold analyzeMask.
  pose proof (full_totalLeakedPixels w h leaks Hfull).
  rewrite decide_False by lia.
  destruct (clusterAnalysis_iff w h leaks t Hlen) as (b & E & Hb).
  rewrite E. f_equal. apply Hb.
  exists (gridPoints w h). split; [apply full_isCluster; [done|lia|lia]|].
  destruct w as [|[|n]]; [lia|lia|]. destruct h as [|[|m]]; [lia|lia|].
  by apply blobShape_gridPoints.
Qed.

(** The mask of a bitmap whose pixels all match the palette is full. *)
Lemma leakMask_uniform img colors thr tol flat :
  wellFormed img ->
  (forall p, p ∈ data img -> matchesBlueprint colors tol p = true) ->
  exists mask,
    leakMask img colors thr tol flat = Some mask /\
    length mask = (width img * height img)%nat /\
    forall i, (i < width img * height img)%nat -> isSet mask i = true.
Proof.
  intros Hwf Hall.
  destruct (flatPass_total img thr flat Hwf) as (m1 & E & Hl).
  exists (palettePass img colors tol m1). unfold leakMask. rewrite E.
  unfold palettePass. split_and!; [done|by rewrite length_palettePassLoop|].
  intros i Hi. apply isSet_palettePassLoop.
  destruct (lookup_lt_is_Some_2 (data img) i) as [p Hp]; [rewrite Hwf; lia|].
  right. exists p. rewrite Nat.sub_0_r. split_and!; [done|lia|lia|].
  apply Hall. by eapply list_elem_of_lookup_2.
Qed.

(** A colour at distance 0 from a palette entry matches under any positive
    tolerance. *)
Lemma matchesBlueprint_exact colors tol p c :
  c ∈ colors ->
  colorDistanceSq (red p) (green p) (blue p) (colorR c) (colorG c) (colorB c) = 0 ->
  0 < tol -> matchesBlueprint colors tol p = true.
Proof.
  intros Hc Hd Ht. unfold matchesBlueprint. apply existsb_exists.
  exists c. split; [by apply list_elem_of_In|]. apply bool_decide_eq_true. lia.
Qed.

(** * The diff loop *)

Lemma length_diffLoop t base : forall new,
  length (diffLoop t base new).1 = length base.
Proof.
  induction base as [|p1 base IH]; intros new; [done|].
  simpl. destruct (differs t p1 (head new)); simpl; by rewrite IH.
Qed.

Lemma lookup_tail {A} (l : list A) i : tail l !! i = l !! S i.
Proof. by destruct l. Qed.

Lemma head_lookup0 {A} (l : list A) : head l = l !! 0%nat.
Proof. by destruct l. Qed.


(** The overlay is magenta exactly where the pixels differ. *)
Lemma diffLoop_overlay t base : forall new i p1,
  base !! i = Some p1 ->
  (diffLoop t base new).1 !! i
  = Some (if differs t p1 (new !! i) then diffHighlight else transparent).
Proof.
  induction base as [|p base IH]; intros new i p1 Hi; [done|].
  destruct i as [|i].
  - simpl in Hi. injection Hi as ->. simpl. rewrite <- (head_lookup0 new).
    by destruct (differs t p1 (head new)).
  - simpl in Hi. simpl.
    destruct (differs t p (head new)); simpl; rewrite (IH _ _ _ Hi), lookup_tail; done.
Qed.


Lemma colorDistanceSq_same r g b : colorDistanceSq r g b r g b = 0.
Proof. unfold colorDistanceSq. rewrite !Z.sub_diag. reflexivity. Qed.

Lemma colorDistanceSq_nonneg r1 g1 b1 r2 g2 b2 :
  0 <= colorDistanceSq r1 g1 b1 r2 g2 b2.
Proof. unfold colorDistanceSq. nia. Qed.

Lemma colorDistanceSq_sym r1 g1 b1 r2 g2 b2 :
  colorDistanceSq r1 g1 b1 r2 g2 b2 = colorDistanceSq r2 g2 b2 r1 g1 b1.
Proof. unfold colorDistanceSq. nia. Qed.

(** * [performDiffing] *)

(** The [catch] leaves no rejection. *)
Lemma performDiffing_settles env a b t :
  exists r, performDiffing env a b t = Resolved r.
Proof.
  unfold performDiffing.
  destruct (diffingBody env a b t) as [r|e|] eqn:E; [by exists r|by exists None|].
  unfold diffingBody in E.
  destruct (loadImage env a), (loadImage env b); try done.
  repeat (case_decide || case_match); done.
Qed.

Lemma diffingBody_mismatch env a b imgBase imgNew t :
  loadImage env a = Some imgBase -> loadImage env b = Some imgNew ->
  width imgBase ≠ width imgNew \/ height imgBase ≠ height imgNew ->
  diffingBody env a b t
  = Rejected "WORKER: Image dimensions do not match for diffing.".
Proof.
  intros Ea Eb Hd. unfold diffingBody. rewrite Ea, Eb. by rewrite decide_True.
Qed.

(** With a working canvas and encoder the result is decided by
    [hasDifference] alone. *)
Lemma performDiffing_same_size env a b imgBase imgNew t :
  loadImage env a = Some imgBase -> loadImage env b = Some imgNew ->
  width imgBase = width imgNew -> height imgBase = height imgNew ->
  hasContext env = true -> blobConverts env = true -> readerLoads env = true ->
  performDiffing env a b t
  = Resolved
      (let diff := diffLoop t (data imgBase) (data imgNew) in
       if diff.2 then Some (mkImageData (width imgBase) (height imgBase) diff.1)
       else None).
Proof.
  intros Ea Eb Hw Hh Hc Hb Hr. unfold performDiffing, diffingBody.
  rewrite Ea, Eb, Hc, Hb, Hr. rewrite decide_False by tauto. simpl.
  by destruct (diffLoop t (data imgBase) (data imgNew)).2.
Qed.

(** * [performLeakDetection] *)

Lemma performLeakDetection_catch env src colors thr tol flat e :
  leakDetectionBody env src colors thr tol flat = Rejected e ->
  performLeakDetection env src colors thr tol flat = Resolved failSafe.
Proof. intros E. unfold performLeakDetection. by rewrite E. Qed.

Lemma performLeakDetection_not_rejected env src colors thr tol flat e :
  performLeakDetection env src colors thr tol flat ≠ Rejected e.
Proof.
  unfold performLeakDetection.
  by destruct (leakDetectionBody env src colors thr tol flat).
Qed.

(** The body on a decoded full grid with a working canvas: the analysis
    ends, and only the encoder can still fail. *)
Lemma leakDetectionBody_decoded env src img colors thr tol flat :
  loadImage env src = Some img -> wellFormed img ->
  hasContext env = true -> hasHeatmapContext env = true ->
  exists needs mask,
    leakMask img colors thr tol flat = Some mask /\
    length mask = (width img * height img)%nat /\
    analyzeMask (width img) (height img) mask thr = Some needs /\
    leakDetectionBody env src colors thr tol flat
    = encodeHeatmap env needs (heatmapOf (width img) (height img) mask).
Proof.
  intros El Hwf Hc Hh.
  destruct (analyzeImage_total img colors thr tol flat Hwf)
    as (needs & mask & E1 & Hl & E2 & _).
  exists needs, mask. split_and!; [done..|].
  unfold leakDetectionBody. by rewrite El, Hc, E1, Hh, E2.
Qed.

(** Every way the analysis can break down ends in the fail-safe value. *)
Lemma performLeakDetection_failSafe env src colors thr tol flat :
  (forall img, loadImage env src = Some img -> wellFormed img) ->
  loadImage env src = None \/ hasContext env = false \/
  hasHeatmapContext env = false \/ blobConverts env = false ->
  performLeakDetection env src colors thr tol flat = Resolved failSafe.
Proof.
  intros Hwf Hfail.
  destruct (loadImage env src) as [img|] eqn:El.
  2:{ apply (performLeakDetection_catch _ _ _ _ _ _ "image could not be loaded").
      unfold leakDetectionBody. by rewrite El. }
  destruct (hasContext env) eqn:Hc.
  2:{ apply (performLeakDetection_catch _ _ _ _ _ _
               "WORKER: Could not get OffscreenCanvas context.").
      unfold leakDetectionBody. by rewrite El, Hc. }
  destruct (analyzeImage_total img colors thr tol flat (Hwf img eq_refl))
    as (needs & mask & E1 & Hl & E2 & _).
  destruct (hasHeatmapContext env) eqn:Hh.
  2:{ apply (performLeakDetection_catch _ _ _ _ _ _
               "WORKER: Could not get heatmap OffscreenCanvas context.").
      unfold leakDetectionBody. by rewrite El, Hc, E1, Hh. }
  destruct Hfail as [?|[?|[?|Hb]]]; try done.
  apply (performLeakDetection_catch _ _ _ _ _ _ "convertToBlob failed").
  unfold leakDetectionBody. rewrite El, Hc, E1, Hh, E2. unfold encodeHeatmap.
  by rewrite Hb.
Qed.

(** * The refinement controller *)

Section HookFacts.
Context {AiClient : Type} (svc : Hook.Services AiClient).

Lemma reasonFor_agrees rev url diff leak passedCheck final manual :
  reasonAgrees (Hook.mkRecord rev url diff leak passedCheck final
                  (Hook.reasonFor final passedCheck) manual).
Proof.
  unfold reasonAgrees, Hook.reasonFor. simpl.
  destruct final, passedCheck; split; congruence.
Qed.

Lemma manual_reason_agrees rev url diff leak passedCheck manual :
  reasonAgrees (Hook.mkRecord rev url diff leak passedCheck true
                  (Some (if passedCheck then Hook.passed_reason
                         else Hook.limit_reached)) manual).
Proof. unfold reasonAgrees. simpl. destruct passedCheck; split; congruence. Qed.

Lemma reopen_agrees r : reasonAgrees r -> reasonAgrees (Hook.reopen r).
Proof.
  unfold Hook.reopen. destruct (Hook.isFinal r); [|done].
  intros _. split; simpl; congruence.
Qed.

(** ** The loop *)

Lemma refinementLoop_agrees fuel : forall tick aiClient mapStyle maxRefinements
    refinementCount passedCheck currentMapUrl history,
  Forall reasonAgrees history ->
  Forall reasonAgrees
    (Hook.refinementLoop svc fuel tick aiClient mapStyle maxRefinements
       refinementCount passedCheck currentMapUrl history).1.
Proof.
  induction fuel as [|fuel IH]; intros tick aiClient mapStyle maxRefinements
    refinementCount passedCheck currentMapUrl history Hh; simpl.
  - by destruct (negb passedCheck && bool_decide (refinementCount < maxRefinements)).
  - destruct (negb passedCheck && bool_decide (refinementCount < maxRefinements));
      [|done].
    destruct (Hook.refineGeneratedMap svc tick aiClient currentMapUrl mapStyle)
      as [url| |]; [|done..].
    destruct (Hook.generateDiffMap svc (tick + 1) currentMapUrl url)
      as [diff| |]; [|done..].
    destruct (Hook.hasBlueprintLeaks svc (tick + 2) url mapStyle)
      as [res| |]; [|done..].
    apply IH. apply Forall_app. split; [done|].
    apply Forall_singleton, reasonFor_agrees.
Qed.

Lemma generationRun_agrees aiClient blueprintData mapStyle maxRefinements :
  Forall reasonAgrees
    (Hook.generationRun svc aiClient blueprintData mapStyle maxRefinements).1.
Proof.
  unfold Hook.generationRun.
  destruct (Hook.generateMapFromDrawing svc 0 aiClient blueprintData _)
    as [url| |]; [|constructor..].
  destruct (Hook.hasBlueprintLeaks svc 1 url mapStyle) as [res| |]; [|constructor..].
  apply refinementLoop_agrees, Forall_singleton, reasonFor_agrees.
Qed.

Lemma generateMap_agrees {V} st (vectorObjects : list V) blueprintData apiKey
    mapStyle maxRefinements :
  Forall reasonAgrees (Hook.analysisHistory st) ->
  Forall reasonAgrees
    (Hook.analysisHistory
       (Hook.generateMap svc st vectorObjects blueprintData apiKey mapStyle
          maxRefinements)).
Proof.
  intros Hst. unfold Hook.generateMap.
  destruct (decide (length vectorObjects = 0%nat)); [done|].
  destruct (decide (Hook.trim svc apiKey = "")); [done|].
  destruct (Hook.createAiClient svc (Hook.trim svc apiKey)) as [err|aiClient]; [done|].
  destruct (decide (blueprintData = "")); [done|].
  pose proof (generationRun_agrees aiClient blueprintData mapStyle maxRefinements) as H.
  destruct (Hook.generationRun svc aiClient blueprintData mapStyle maxRefinements)
    as [history [url passedCheck|err|]]; done.
Qed.

(** ** Manual refinement *)

Lemma dropLast_snoc {A} (l : list A) x : dropLast (l ++ [x]) = l.
Proof.
  unfold dropLast. rewrite length_app. simpl.
  replace (length l + 1 - 1)%nat with (length l) by lia.
  by rewrite take_app_length.
Qed.

Lemma reopenLast_snoc history r :
  Hook.reopenLast (history ++ [r]) = history ++ [Hook.reopen r].
Proof. unfold Hook.reopenLast. by rewrite last_snoc, dropLast_snoc. Qed.

Lemma reopenLast_nil : Hook.reopenLast [] = [].
Proof. reflexivity. Qed.

Lemma nextRevision_snoc history r :
  Hook.nextRevision (history ++ [r]) = Hook.revision r + 1.
Proof. unfold Hook.nextRevision. by rewrite last_snoc. Qed.

Lemma length_reopenLast history :
  length (Hook.reopenLast history) = length history.
Proof.
  destruct history as [|r history _] using rev_ind; [done|].
  rewrite reopenLast_snoc, !length_app. done.
Qed.

Lemma reopenLast_agrees history :
  Forall reasonAgrees history -> Forall reasonAgrees (Hook.reopenLast history).
Proof.
  destruct history as [|r history _] using rev_ind; [done|].
  rewrite reopenLast_snoc, !Forall_app, !Forall_singleton.
  intros [H1 H2]. split; [done|by apply reopen_agrees].
Qed.

Lemma manualRefine_agrees st apiKey mapStyle :
  Forall reasonAgrees (Hook.analysisHistory st) ->
  Forall reasonAgrees
    (Hook.analysisHistory (Hook.manualRefine svc st apiKey mapStyle)).
Proof.
  intros Hst. pose proof (reopenLast_agrees _ Hst) as Hre.
  unfold Hook.manualRefine.
  destruct (Hook.generatedImage st) as [img|]; [|done].
  case_decide; [done|]. destruct (Hook.isLoading st); [done|].
  case_decide; [done|].
  destruct (Hook.createAiClient svc (Hook.trim svc apiKey)) as [err|aiClient]; [done|].
  destruct (Hook.refineGeneratedMap svc 0 aiClient img mapStyle) as [url| |]; [|done..].
  destruct (Hook.generateDiffMap svc 1 img url) as [diff| |]; [|done..].
  destruct (Hook.hasBlueprintLeaks svc 2 url mapStyle) as [res| |]; [|done..].
  simpl. apply Forall_app. split; [done|].
  apply Forall_singleton, manual_reason_agrees.
Qed.

(** The run of [manualRefine] when every guard passes and every awaited
    call resolves. *)
Lemma manualRefine_resolved st apiKey mapStyle previousMapUrl aiClient
    currentMapUrl aiChangeMap analysisResult :
  Hook.generatedImage st = Some previousMapUrl -> previousMapUrl ≠ "" ->
  Hook.isLoading st = false ->
  Hook.trim svc apiKey ≠ "" ->
  Hook.createAiClient svc (Hook.trim svc apiKey) = inr aiClient ->
  Hook.refineGeneratedMap svc 0 aiClient previousMapUrl mapStyle
    = Resolved currentMapUrl ->
  Hook.generateDiffMap svc 1 previousMapUrl currentMapUrl = Resolved aiChangeMap ->
  Hook.hasBlueprintLeaks svc 2 currentMapUrl mapStyle = Resolved analysisResult ->
  Hook.manualRefine svc st apiKey mapStyle
  = Hook.mkState false None (Some currentMapUrl) (Hook.blueprintImage st)
      (Hook.reopenLast (Hook.analysisHistory st) ++
       [Hook.mkRecord (Hook.nextRevision (Hook.analysisHistory st))
          currentMapUrl aiChangeMap (leakMapUrl analysisResult)
          (negb (needsRefinement analysisResult)) true
          (Some (if negb (needsRefinement analysisResult)
                 then Hook.passed_reason else Hook.limit_reached))
          (Some true)]).
Proof.
  intros Hg Hne Hl Hk Hc Hr Hd Ha. unfold Hook.manualRefine.
  rewrite Hg, Hl, Hc, Hr, Hd, Ha.
  rewrite !decide_False by done. done.
Qed.
End HookFacts.

Lemma reachable_agrees {AiClient : Type} (st : Hook.HookState) :
  @reachable AiClient st -> Forall reasonAgrees (Hook.analysisHistory st).
Proof.
  induction 1 as [|svc st objs bp key style maxR _ IH|svc st key style _ IH|st _ IH].
  - constructor.
  - by apply generateMap_agrees.
  - by apply manualRefine_agrees.
  - constructor.
Qed.

(** * The claims of the specification *)



(** C2.  When the combined mask of passes 1 and 2 holds fewer leak pixels
    than [clusterSizeThreshold], the decision is [false] by the fast path,
    and pass 4 run on the same mask answers [false] as well. *)
Theorem fast_path_agrees_with_cluster_analysis img colors clusterSizeThreshold
    colorMatchThresholdSq flatnessThresholdSq :
  wellFormed img ->
  exists leaks,
    leakMask img colors clusterSizeThreshold colorMatchThresholdSq
      flatnessThresholdSq = Some leaks /\
    (totalLeakedPixels leaks < clusterSizeThreshold ->
     analyzeMask (width img) (height img) leaks clusterSizeThreshold = Some false /\
     clusterAnalysis (width img) (height img) leaks clusterSizeThreshold
     = Some false).
Proof.
  intros Hwf.
  destruct (leakMask_total img colors clusterSizeThreshold colorMatchThresholdSq
              flatnessThresholdSq Hwf) as (leaks & E & Hl).
  exists leaks. split; [done|]. intros Hfew. split.
  - unfold analyzeMask. by rewrite decide_True.
  - apply clusterAnalysis_small; [done|lia].
Qed.

Lemma fast_path_agrees_with_cluster_analysis_witness :
  exists leaks,
    leakMask (mkImageData 2 1 [mkPixel 10 20 30 255; mkPixel 200 200 200 255])
      [mkBlueprintColor "a" 10 20 30] 400 100 (Some 50) = Some leaks /\
    (totalLeakedPixels leaks < 400 ->
     analyzeMask 2 1 leaks 400 = Some false /\
     clusterAnalysis 2 1 leaks 400 = Some false).
Proof.
  apply (fast_path_agrees_with_cluster_analysis
           (mkImageData 2 1 [mkPixel 10 20 30 255; mkPixel 200 200 200 255])
           [mkBlueprintColor "a" 10 20 30] 400 100 (Some 50)).
  reflexivity.
Defined.

(** C3, as stated, fails: the error thrown for mismatched dimensions is
    caught inside [performDiffing], and the caller receives a plain [null].
    Here a 1 x 1 bitmap is diffed against a 2 x 1 bitmap. *)
Lemma mismatched_diff_resolves_null :
  let base := mkImageData 1 1 [mkPixel 0 0 0 255] in
  let new := mkImageData 2 1 [mkPixel 0 0 0 255; mkPixel 0 0 0 255] in
  let env :=
    mkWorkerEnv (fun src => if decide (src = "base") then Some base else Some new)
      true true true true false in
  width base ≠ width new /\
  performDiffing env "base" "new" 100 = Resolved None /\
  generateDiffMap env "base" "new" = Resolved None.
Proof. split; [simpl; lia|]. split; reflexivity. Qed.

(** C3, amended.  For bitmaps whose widths or heights differ the [try] block
    of [performDiffing] throws the dimension error, and the [catch] of the
    same function turns it into the normal result [null]: [performDiffing]
    and [generateDiffMap] resolve with [null]. *)
Theorem dimension_mismatch_is_caught env imageBase imageNew imgBase imgNew
    diffThresholdSq :
  loadImage env imageBase = Some imgBase ->
  loadImage env imageNew = Some imgNew ->
  width imgBase ≠ width imgNew \/ height imgBase ≠ height imgNew ->
  diffingBody env imageBase imageNew diffThresholdSq
  = Rejected "WORKER: Image dimensions do not match for diffing." /\
  performDiffing env imageBase imageNew diffThresholdSq = Resolved None /\
  generateDiffMap env imageBase imageNew = Resolved None.
Proof.
  intros Ea Eb Hd.
  assert (E : forall t, performDiffing env imageBase imageNew t = Resolved None).
  { intros t. unfold performDiffing.
    by rewrite (diffingBody_mismatch env _ _ imgBase imgNew t Ea Eb Hd). }
  split_and!; [by eapply diffingBody_mismatch|apply E|].
  unfold generateDiffMap. destruct (workerErrors env); [done|apply E].
Qed.

Lemma dimension_mismatch_is_caught_witness :
  let base := mkImageData 1 1 [mkPixel 0 0 0 255] in
  let new := mkImageData 1 2 [mkPixel 0 0 0 255; mkPixel 9 9 9 255] in
  let env :=
    mkWorkerEnv (fun src => if decide (src = "base") then Some base else Some new)
      true true true true false in
  diffingBody env "base" "new" 100
  = Rejected "WORKER: Image dimensions do not match for diffing." /\
  performDiffing env "base" "new" 100 = Resolved None /\
  generateDiffMap env "base" "new" = Resolved None.
Proof.
  intros base new env.
  apply (dimension_mismatch_is_caught env "base" "new" base new 100).
  - reflexivity.
  - reflexivity.
  - right. simpl. lia.
Defined.

(** C4, as stated, fails: a strip one pixel wide, filled with a palette
    colour and holding 401 pixels against the threshold of 400, is one
    cluster whose hull has only two points, so it is not flagged. *)
Lemma uniform_strip_is_not_flagged :
  let img := mkImageData 1 401 (replicate 401 (mkPixel 34 139 34 255)) in
  let env := mkWorkerEnv (fun _ => Some img) true true true true false in
  let palette := [mkBlueprintColor "forest" 34 139 34] in
  wellFormed img /\
  Z.of_nat (length (data img)) > (thresholdsFor photorealistic).1.1 /\
  colorDistanceSq 34 139 34 34 139 34 = 0 /\
  0 < (thresholdsFor photorealistic).1.2 /\
  hasBlueprintLeaks env palette "map" photorealistic
  = Resolved (mkResult false (Some (heatmapOf 1 401 (replicate 401 true)))).
Proof. split_and!; [reflexivity|reflexivity|reflexivity|reflexivity|]. vm_compute. reflexivity. Qed.

(** C4, amended.  For every palette with a positive colour-match tolerance,
    a bitmap at least two pixels wide and two pixels high, every pixel of
    which is at squared distance 0 from one entry of the palette, and which
    holds more pixels than the cluster size threshold, yields
    [needsRefinement = true]. *)
Theorem uniform_block_needs_refinement env mapImageSrc img colors c
    clusterSizeThreshold colorMatchThresholdSq flatnessThresholdSq :
  loadImage env mapImageSrc = Some img -> wellFormed img ->
  hasContext env = true -> hasHeatmapContext env = true ->
  blobConverts env = true ->
  (2 <= width img)%nat -> (2 <= height img)%nat ->
  c ∈ colors ->
  (forall q, q ∈ data img ->
     colorDistanceSq (red q) (green q) (blue q) (colorR c) (colorG c) (colorB c) = 0) ->
  0 < colorMatchThresholdSq ->
  Z.of_nat (width img * height img) > clusterSizeThreshold ->
  exists leakMap,
    performLeakDetection env mapImageSrc colors clusterSizeThreshold
      colorMatchThresholdSq flatnessThresholdSq
    = Resolved (mkResult true leakMap).
Proof.
  intros El Hwf Hc Hh Hb Hw2 Hh2 Hin Hfill Htol Hbig.
  destruct (leakMask_uniform img colors clusterSizeThreshold colorMatchThresholdSq
              flatnessThresholdSq Hwf) as (mask & Em & Hlen & Hfull).
  { intros q Hq. eapply matchesBlueprint_exact; [exact Hin|by apply Hfill|done]. }
  pose proof (analyzeMask_full _ _ _ _ Hlen Hfull Hw2 Hh2 Hbig) as Ea.
  exists (if readerLoads env then Some (heatmapOf (width img) (height img) mask)
          else None).
  unfold performLeakDetection, leakDetectionBody.
  rewrite El, Hc, Em, Hh, Ea. unfold encodeHeatmap. by rewrite Hb.
Qed.

Lemma uniform_block_needs_refinement_witness :
  let img := mkImageData 2 2 (replicate 4 (mkPixel 34 139 34 255)) in
  let env := mkWorkerEnv (fun _ => Some img) true true true true false in
  exists leakMap,
    performLeakDetection env "map" [mkBlueprintColor "forest" 34 139 34] 3 100 None
    = Resolved (mkResult true leakMap).
Proof.
  intros img env.
  apply (uniform_block_needs_refinement env "map" img
           [mkBlueprintColor "forest" 34 139 34]
           (mkBlueprintColor "forest" 34 139 34) 3 100 None).
  - reflexivity.
  - reflexivity.
  - reflexivity.
  - reflexivity.
  - reflexivity.
  - simpl. lia.
  - simpl. lia.
  - apply list_elem_of_singleton. reflexivity.
  - intros q Hq. apply elem_of_replicate in Hq as [-> _]. reflexivity.
  - lia.
  - simpl. lia.
Defined.



(** C6.  When the image cannot be decoded, a canvas context is missing, the
    heat map cannot be encoded, or the worker raises an error event, the
    leak detection call resolves with [needsRefinement = false] and no leak
    map; and the call is never rejected. *)
Theorem analysis_failure_is_fail_safe env colors mapImageSrc mapStyle :
  (forall img, loadImage env mapImageSrc = Some img -> wellFormed img) ->
  (loadImage env mapImageSrc = None \/ hasContext env = false \/
   hasHeatmapContext env = false \/ blobConverts env = false \/
   workerErrors env = true ->
   hasBlueprintLeaks env colors mapImageSrc mapStyle = Resolved failSafe) /\
  (forall e, hasBlueprintLeaks env colors mapImageSrc mapStyle ≠ Rejected e).
Proof.
  intros Hwf. unfold hasBlueprintLeaks.
  destruct (thresholdsFor mapStyle) as [[thr tol] flat]. split.
  - intros Hfail. destruct (workerErrors env) eqn:Ew; [done|].
    apply performLeakDetection_failSafe; [done|].
    destruct Hfail as [?|[?|[?|[?|?]]]]; try tauto. done.
  - intros e. destruct (workerErrors env); [done|].
    apply performLeakDetection_not_rejected.
Qed.

Lemma analysis_failure_is_fail_safe_witness :
  let img := mkImageData 1 1 [mkPixel 34 139 34 255] in
  let env := mkWorkerEnv (fun _ => Some img) true false true true false in
  hasBlueprintLeaks env [] "map" pixel = Resolved failSafe.
Proof.
  intros img env.
  apply (analysis_failure_is_fail_safe env [] "map" pixel).
  - intros img' E. injection E as <-. reflexivity.
  - right. right. left. reflexivity.
Defined.

(** C7.  When a final image exists, no run is in flight, the key is usable
    and the refine, diff and analysis calls resolve, [manualRefine] on a
    history of N records whose last record is final leaves N + 1 records:
    the earlier ones untouched, the previously last one with [isFinal]
    false and no [finalReason] but otherwise unchanged, and one new record
    with [isManual = true] and [isFinal = true] whether or not its analysis
    passed. *)
Theorem manualRefine_appends_one_final_record {AiClient : Type}
    (svc : Hook.Services AiClient) st apiKey mapStyle previousMapUrl aiClient
    currentMapUrl aiChangeMap analysisResult earlier lastRevision :
  Hook.generatedImage st = Some previousMapUrl -> previousMapUrl ≠ "" ->
  Hook.isLoading st = false ->
  Hook.trim svc apiKey ≠ "" ->
  Hook.createAiClient svc (Hook.trim svc apiKey) = inr aiClient ->
  Hook.refineGeneratedMap svc 0 aiClient previousMapUrl mapStyle
    = Resolved currentMapUrl ->
  Hook.generateDiffMap svc 1 previousMapUrl currentMapUrl = Resolved aiChangeMap ->
  Hook.hasBlueprintLeaks svc 2 currentMapUrl mapStyle = Resolved analysisResult ->
  Hook.analysisHistory st = earlier ++ [lastRevision] ->
  Hook.isFinal lastRevision = true ->
  exists reopened appended,
    Hook.analysisHistory (Hook.manualRefine svc st apiKey mapStyle)
      = earlier ++ [reopened; appended] /\
    length (Hook.analysisHistory (Hook.manualRefine svc st apiKey mapStyle))
      = S (length (Hook.analysisHistory st)) /\
    Hook.isFinal reopened = false /\
    Hook.finalReason reopened = None /\
    Hook.revision reopened = Hook.revision lastRevision /\
    Hook.mapImage reopened = Hook.mapImage lastRevision /\
    Hook.aiChangeMap reopened = Hook.aiChangeMap lastRevision /\
    Hook.leakMap reopened = Hook.leakMap lastRevision /\
    Hook.passed reopened = Hook.passed lastRevision /\
    Hook.isManual reopened = Hook.isManual lastRevision /\
    Hook.isManual appended = Some true /\
    Hook.isFinal appended = true /\
    Hook.passed appended = negb (needsRefinement analysisResult).
Proof.
  intros Hg Hne Hl Hk Hc Hr Hd Ha Hh Hf.
  rewrite (manualRefine_resolved svc st apiKey mapStyle previousMapUrl aiClient
             currentMapUrl aiChangeMap analysisResult Hg Hne Hl Hk Hc Hr Hd Ha).
  rewrite Hh, reopenLast_snoc, nextRevision_snoc. cbn [Hook.analysisHistory].
  eexists _, _. split; [by rewrite <- app_assoc|].
  split; [rewrite !length_app; simpl; lia|].
  unfold Hook.reopen. rewrite Hf. simpl. done.
Qed.

Lemma manualRefine_appends_one_final_record_witness :
  let svc := scriptedServices (fun _ => true) in
  let first := Hook.mkRecord 1 "initial map" None None false true
                 (Some Hook.limit_reached) None in
  let st := Hook.mkState false None (Some "initial map") (Some "blueprint") [first] in
  exists reopened appended,
    Hook.analysisHistory (Hook.manualRefine svc st "key" photorealistic)
      = [] ++ [reopened; appended] /\
    length (Hook.analysisHistory (Hook.manualRefine svc st "key" photorealistic))
      = S (length (Hook.analysisHistory st)) /\
    Hook.isFinal reopened = false /\
    Hook.finalReason reopened = None /\
    Hook.revision reopened = Hook.revision first /\
    Hook.mapImage reopened = Hook.mapImage first /\
    Hook.aiChangeMap reopened = Hook.aiChangeMap first /\
    Hook.leakMap reopened = Hook.leakMap first /\
    Hook.passed reopened = Hook.passed first /\
    Hook.isManual reopened = Hook.isManual first /\
    Hook.isManual appended = Some true /\
    Hook.isFinal appended = true /\
    Hook.passed appended = negb (needsRefinement (mkResult true None)).
Proof.
  intros svc first st.
  apply (manualRefine_appends_one_final_record svc st "key" photorealistic
           "initial map" tt "refined map" None (mkResult true None) [] first).
  - reflexivity.
  - discriminate.
  - reflexivity.
  - discriminate.
  - reflexivity.
  - reflexivity.
  - reflexivity.
  - reflexivity.
  - reflexivity.
  - reflexivity.
Defined.



(** C9.  In every state the hook can reach, every record of the history
    obeys: [finalReason = 'passed'] implies [passed = true], and
    [finalReason = 'limit_reached'] implies [passed = false]. *)
Theorem finalReason_agrees_with_passed (AiClient : Type) (st : Hook.HookState) r :
  @reachable AiClient st -> r ∈ Hook.analysisHistory st ->
  (Hook.finalReason r = Some Hook.passed_reason -> Hook.passed r = true) /\
  (Hook.finalReason r = Some Hook.limit_reached -> Hook.passed r = false).
Proof.
  intros Hst Hr. apply reachable_agrees in Hst.
  rewrite Forall_forall in Hst. by apply Hst.
Qed.

Lemma finalReason_agrees_with_passed_witness :
  let r := Hook.mkRecord 2 "refined map" None None false true
             (Some Hook.limit_reached) None in
  (Hook.finalReason r = Some Hook.passed_reason -> Hook.passed r = true) /\
  (Hook.finalReason r = Some Hook.limit_reached -> Hook.passed r = false).
Proof.
  intros r.
  apply (finalReason_agrees_with_passed unit
           (Hook.generateMap (scriptedServices (fun _ => true)) Hook.initialState
              [tt] "blueprint" "key" photorealistic 1) r).
  - apply reachable_generateMap, reachable_initial.
  - vm_compute. apply list_elem_of_further, list_elem_of_here.
Defined.

(** * Further properties of the worker *)

(** ** The hull *)

Lemma popWhile_subseteq hull p : popWhile hull p ⊆ hull.
Proof.
  induction hull as [|b hull IH]; [done|].
  destruct hull as [|a rest]; [done|].
  cbn [popWhile]. case_decide; [|done].
  intros q Hq. right. by apply IH.
Qed.

Lemma buildHullStack_from_subseteq points : forall stack q,
  q ∈ foldl pushPoint stack points -> q ∈ stack \/ q ∈ points.
Proof.
  induction points as [|p points IH]; intros stack q Hq; [by left|].
  simpl in Hq. apply IH in Hq as [Hq|Hq]; [|right; by right].
  unfold pushPoint in Hq. apply elem_of_cons in Hq as [->|Hq]; [right; left|].
  left. by apply popWhile_subseteq in Hq.
Qed.

Lemma buildHull_subseteq points q : q ∈ buildHull points -> q ∈ points.
Proof.
  unfold buildHull, buildHullStack. rewrite elem_of_reverse. intros Hq.
  apply buildHullStack_from_subseteq in Hq as [Hq|Hq]; [|done].
  by apply elem_of_nil in Hq.
Qed.

Lemma dropLast_subseteq {A} (l : list A) q : q ∈ dropLast l -> q ∈ l.
Proof. unfold dropLast. apply subseteq_take. Qed.

(** The traversal of points that make no turn keeps the first and the last
    point only. *)
Lemma buildHullStack_collinear points : forall a,
  collinear (a :: points) ->
  foldl pushPoint [a] points
  = match last points with Some z => [z; a] | None => [a] end.
Proof.
  induction points as [|p points IH] using rev_ind; intros a Hcol; [done|].
  rewrite foldl_snoc, last_snoc. rewrite IH.
  - destruct (last points) as [z|] eqn:El; [|done].
    rewrite pushPoint_pop; [done|].
    rewrite Hcol; [done|left|right|right].
    + apply elem_of_app. left. by apply last_Some_elem_of.
    + apply elem_of_app. right. left.
  - intros x y z Hx Hy Hz. apply Hcol.
    all: rewrite app_comm_cons; apply elem_of_app; by left.
Qed.

Lemma buildHull_collinear a points z :
  collinear (a :: points) -> last points = Some z ->
  buildHull (a :: points) = [a; z].
Proof.
  intros Hcol El. unfold buildHull, buildHullStack. simpl.
  rewrite pushPoint_nil, (buildHullStack_collinear points a Hcol), El. done.
Qed.

Lemma collinear_perm c c' : c ≡ₚ c' -> collinear c -> collinear c'.
Proof.
  intros E Hcol x y z Hx Hy Hz. apply Hcol; by rewrite E.
Qed.

Lemma getConvexHull_collinear c :
  collinear c -> (length (getConvexHull c) <= 2)%nat.
Proof.
  intros Hcol. destruct (decide (length c <= 2)%nat) as [Hs|Hl].
  - by rewrite getConvexHull_small.
  - rewrite getConvexHull_large by lia.
    assert (Hps : sortPoints c ≡ₚ c) by apply merge_sort_Permutation.
    assert (Hlen : length (sortPoints c) = length c) by (by rewrite Hps).
    assert (Hcs : collinear (sortPoints c)) by (by apply (collinear_perm c)).
    assert (Hcr : collinear (reverse (sortPoints c))).
    { apply (collinear_perm c); [|done]. by rewrite reverse_Permutation. }
    assert (Hlr : length (reverse (sortPoints c)) = length c)
      by (by rewrite length_reverse).
    destruct (sortPoints c) as [|a [|b s]] eqn:Es; [simpl in Hlen; lia..|].
    destruct (reverse (a :: b :: s)) as [|a' [|b' s']] eqn:Er; [simpl in Hlr; lia..|].
    destruct (last (b :: s)) as [z|] eqn:El; [|by apply last_None in El].
    destruct (last (b' :: s')) as [z'|] eqn:El'; [|by apply last_None in El'].
    rewrite (buildHull_collinear a (b :: s) z Hcs El).
    rewrite (buildHull_collinear a' (b' :: s') z' Hcr El').
    done.
Qed.

Lemma getConvexHull_subseteq c q : q ∈ getConvexHull c -> q ∈ c.
Proof.
  destruct (decide (length c <= 2)%nat) as [Hs|Hl].
  - by rewrite getConvexHull_small.
  - rewrite getConvexHull_large by lia.
    assert (Hps : sortPoints c ≡ₚ c) by apply merge_sort_Permutation.
    intros Hq. apply elem_of_app in Hq as [Hq|Hq].
    + apply dropLast_subseteq, buildHull_subseteq in Hq. by rewrite <- Hps.
    + apply dropLast_subseteq, buildHull_subseteq in Hq.
      rewrite elem_of_reverse in Hq. by rewrite <- Hps.
Qed.

Lemma getConvexHull_perm c c' :
  c ≡ₚ c' -> (2 < length c)%nat -> getConvexHull c = getConvexHull c'.
Proof.
  intros E Hl. pose proof (Permutation_length E) as El.
  rewrite (getConvexHull_large c), (getConvexHull_large c') by lia.
  by rewrite (sortPoints_perm c c' E).
Qed.

(** ** The mask *)

Lemma leakMask_flat_spec img colors thr tol t :
  wellFormed img -> t > 0 ->
  exists mask regions,
    leakMask img colors thr tol (Some t) = Some mask /\
    flatRegions img t = Some regions /\
    forall i, isSet mask i = true <->
      (exists region, region ∈ regions /\ Z.of_nat (length region) > thr /\ i ∈ region) \/
      (exists p, data img !! i = Some p /\ matchesBlueprint colors tol p = true).
Proof.
  intros Hwf Ht.
  destruct (flatPass_some img thr t Hwf Ht) as (m1 & regions & E1 & E2 & Hl & Hm & _).
  exists (palettePass img colors tol m1), regions.
  unfold leakMask. rewrite E1. split_and!; [done|done|].
  intros i. unfold palettePass. rewrite isSet_palettePassLoop, Hm, Nat.sub_0_r.
  split; (intros [H|(p & Hp & H)]; [by left|right]).
  - exists p. tauto.
  - exists p. split_and!; [done|lia| |done].
    rewrite Hl, <- Hwf. by eapply lookup_lt_Some.
Qed.

Lemma leakMask_palette_spec img colors thr tol :
  wellFormed img ->
  exists mask,
    leakMask img colors thr tol None = Some mask /\
    forall i, isSet mask i = true <->
      exists p, data img !! i = Some p /\ matchesBlueprint colors tol p = true.
Proof.
  intros Hwf. exists (palettePass img colors tol (newMask (width img * height img))).
  split; [done|]. intros i. unfold palettePass.
  rewrite isSet_palettePassLoop, isSet_newMask, Nat.sub_0_r, length_newMask.
  split.
  - intros [H|(p & Hp & H)]; [done|]. exists p. tauto.
  - intros (p & Hp & H). right. exists p. split_and!; [done|lia| |done].
    rewrite <- Hwf. by eapply lookup_lt_Some.
Qed.

(** A mask with no leak pixel is not flagged. *)
Lemma analyzeMask_clear w h leaks thr :
  length leaks = (w * h)%nat -> (forall i, isSet leaks i = false) ->
  analyzeMask w h leaks thr = Some false.
Proof.
  intros Hl Hclear. unfold analyzeMask. case_decide; [done|].
  destruct (clusterAnalysis_iff w h leaks thr Hl) as ([] & E & Hb); [|done].
  destruct (proj1 Hb eq_refl) as (c & (_ & s & [_ Hs] & _) & _).
  by rewrite Hclear in Hs.
Qed.

(** A flagged mask holds more leak pixels than the threshold. *)
Lemma analyzeMask_flagged w h leaks thr :
  length leaks = (w * h)%nat ->
  analyzeMask w h leaks thr = Some true -> totalLeakedPixels leaks > thr.
Proof.
  intros Hl. unfold analyzeMask. case_decide; [done|].
  destruct (decide (totalLeakedPixels leaks <= thr)) as [Hs|Hs]; [|lia].
  by rewrite clusterAnalysis_small.
Qed.

(** ** The diff *)

Lemma diffLoop_sym t base : forall new,
  length base = length new -> diffLoop t base new = diffLoop t new base.
Proof.
  induction base as [|p1 base IH]; intros [|p2 new] Hl; try done.
  simpl in Hl. simpl. rewrite (IH new) by lia.
  by rewrite colorDistanceSq_sym.
Qed.

Lemma diffLoop_threshold_mono t t' base : forall new,
  t <= t' -> (diffLoop t base new).2 = false -> (diffLoop t' base new).2 = false.
Proof.
  induction base as [|p1 base IH]; intros new Ht; [done|].
  simpl. destruct (differs t p1 (head new)) eqn:Ed; [done|]. simpl. intros Hr.
  assert (differs t' p1 (head new) = false) as ->.
  { destruct (head new) as [p2|]; [|done]. simpl in *.
    apply bool_decide_eq_false in Ed. apply bool_decide_eq_false. lia. }
  simpl. by apply IH.
Qed.

(** * Further properties of the controller *)

Section RunFacts.
Context {AiClient : Type} (svc : Hook.Services AiClient).

(** The loop does not start when the check has passed or the limit is
    reached. *)
Lemma refinementLoop_done fuel tick aiClient mapStyle maxRefinements
    refinementCount passedCheck currentMapUrl history :
  negb passedCheck && bool_decide (refinementCount < maxRefinements) = false ->
  Hook.refinementLoop svc fuel tick aiClient mapStyle maxRefinements
    refinementCount passedCheck currentMapUrl history
  = (history, Hook.Finished currentMapUrl passedCheck).
Proof. intros H. destruct fuel; simpl; by rewrite H. Qed.

Lemma numberedFrom_app first h1 h2 :
  numberedFrom first (h1 ++ h2) <->
  numberedFrom first h1 /\ numberedFrom (first + Z.of_nat (length h1)) h2.
Proof.
  revert first. induction h1 as [|r h1 IH]; intros first; simpl.
  - rewrite Z.add_0_r. tauto.
  - rewrite IH. replace (first + 1 + Z.of_nat (length h1))
      with (first + Z.pos (Pos.of_succ_nat (length h1))) by lia. tauto.
Qed.

(** What the loop adds to the history, and how it ends. *)
Lemma refinementLoop_shape aiClient mapStyle maxRefinements fuel :
  forall tick refinementCount passedCheck currentMapUrl history,
  exists added,
    (Hook.refinementLoop svc fuel tick aiClient mapStyle maxRefinements
       refinementCount passedCheck currentMapUrl history).1 = history ++ added /\
    numberedFrom (refinementCount + 2) added /\
    (added = [] \/ refinementCount + Z.of_nat (length added) <= maxRefinements) /\
    match (Hook.refinementLoop svc fuel tick aiClient mapStyle maxRefinements
             refinementCount passedCheck currentMapUrl history).2 with
    | Hook.Finished url passed' =>
        (passed' = true \/
         maxRefinements <= refinementCount + Z.of_nat (length added)) /\
        (added = [] /\ passed' = passedCheck /\ url = currentMapUrl \/
         exists earlier lastRecord,
           added = earlier ++ [lastRecord] /\ Forall openRecord earlier /\
           closingRecord lastRecord /\ Hook.passed lastRecord = passed' /\
           Hook.mapImage lastRecord = url)
    | _ => Forall openRecord added
    end.
Proof.
  induction fuel as [|fuel IH];
    intros tick refinementCount passedCheck currentMapUrl history.
  - exists []. rewrite app_nil_r. simpl.
    destruct (negb passedCheck && bool_decide (refinementCount < maxRefinements))
      eqn:Hc; simpl; split_and!; try done; try (by left).
    apply andb_false_iff in Hc as [Hc|Hc].
    + left. by destruct passedCheck.
    + right. apply bool_decide_eq_false in Hc. lia.
  - simpl.
    destruct (negb passedCheck && bool_decide (refinementCount < maxRefinements))
      eqn:Hc; simpl.
    2:{ exists []. rewrite app_nil_r. split_and!; try done; try (by left).
        apply andb_false_iff in Hc as [Hc|Hc].
        - left. by destruct passedCheck.
        - right. apply bool_decide_eq_false in Hc. simpl. lia. }
    apply andb_true_iff in Hc as [_ Hlt]. apply bool_decide_eq_true in Hlt.
    destruct (Hook.refineGeneratedMap svc tick aiClient currentMapUrl mapStyle)
      as [url| |]; [|exists []; rewrite app_nil_r; split_and!; by try left..].
    destruct (Hook.generateDiffMap svc (tick + 1) currentMapUrl url)
      as [diff| |]; [|exists []; rewrite app_nil_r; split_and!; by try left..].
    destruct (Hook.hasBlueprintLeaks svc (tick + 2) url mapStyle)
      as [res| |]; [|exists []; rewrite app_nil_r; split_and!; by try left..].
    set (passed' := negb (needsRefinement res)).
    set (count' := refinementCount + 1).
    set (final := passed' || bool_decide (count' >= maxRefinements)).
    set (r := Hook.mkRecord (count' + 1) url diff (leakMapUrl res) passed' final
                (Hook.reasonFor final passed') None).
    destruct (negb passed' && bool_decide (count' < maxRefinements)) eqn:Hc'.
    + (* the loop goes on: [r] stays open *)
      apply andb_true_iff in Hc' as [Hp' Hlt'].
      apply negb_true_iff in Hp'. apply bool_decide_eq_true in Hlt'.
      assert (Hfinal : final = false).
      { unfold final. rewrite Hp'. simpl. apply bool_decide_eq_false. lia. }
      assert (Hopen : openRecord r).
      { unfold openRecord, r. simpl. by rewrite Hfinal. }
      destruct (IH (tick + 3)%nat count' passed' url (history ++ [r]))
        as (added & E1 & Hnum & Hlen & Hend).
      exists (r :: added). split_and!.
      * rewrite E1, <- app_assoc. done.
      * simpl. split; [unfold count'; lia|].
        replace (refinementCount + 2 + 1) with (count' + 2) by (unfold count'; lia).
        done.
      * right. simpl length. destruct Hlen as [->|Hlen]; simpl; unfold count' in *; lia.
      * destruct (Hook.refinementLoop svc fuel (tick + 3) aiClient mapStyle
                    maxRefinements count' passed' url (history ++ [r])).2
          as [url'' passed''| |]; [|by constructor..].
        destruct Hend as [Hexit Hlast]. split.
        -- destruct Hexit as [?|Hexit]; [by left|right].
           simpl length. unfold count' in Hexit. lia.
        -- right. destruct Hlast as [(-> & Hp & _)|(earlier & l & -> & Hear & Hl)].
           ++ destruct Hexit as [Hexit|Hexit]; [congruence|simpl in Hexit; lia].
           ++ exists (r :: earlier), l. split; [done|].
              split; [by constructor|done].
    + (* the loop stops after [r] *)
      rewrite refinementLoop_done by done.
      assert (Hfinal : final = true).
      { unfold final. apply andb_false_iff in Hc' as [Hc'|Hc'].
        - apply negb_false_iff in Hc'. by rewrite Hc'.
        - apply bool_decide_eq_false in Hc'. apply orb_true_iff. right.
          apply bool_decide_eq_true. lia. }
      exists [r]. simpl. split_and!.
      * done.
      * unfold count'; lia.
      * done.
      * right. unfold count' in *. lia.
      * apply andb_false_iff in Hc' as [Hc'|Hc'].
        -- left. by apply negb_false_iff in Hc'.
        -- right. apply bool_decide_eq_false in Hc'. unfold count' in Hc'. lia.
      * right. exists [], r. split_and!; [done|constructor| |done|done].
        unfold closingRecord, r. simpl. rewrite Hfinal. done.
Qed.
(** With services that always answer, the fuel of the loop is enough. *)
Lemma refinementLoop_settles aiClient mapStyle maxRefinements fuel :
  forall tick refinementCount passedCheck currentMapUrl history,
  alwaysSettles svc ->
  maxRefinements - refinementCount <= Z.of_nat fuel ->
  (Hook.refinementLoop svc fuel tick aiClient mapStyle maxRefinements
     refinementCount passedCheck currentMapUrl history).2 ≠ Hook.Stuck.
Proof.
  induction fuel as [|fuel IH];
    intros tick refinementCount passedCheck currentMapUrl history Hsvc Hfuel.
  - simpl.
    destruct (negb passedCheck && bool_decide (refinementCount < maxRefinements))
      eqn:Hc; [|done].
    apply andb_true_iff in Hc as [_ Hlt]. apply bool_decide_eq_true in Hlt.
    simpl in Hfuel. lia.
  - simpl.
    destruct (negb passedCheck && bool_decide (refinementCount < maxRefinements));
      [|done].
    pose proof Hsvc as (_ & Hrefine & Hdiff & Hleaks).
    destruct (Hook.refineGeneratedMap svc tick aiClient currentMapUrl mapStyle)
      as [url| |] eqn:E1; [|done|by apply Hrefine in E1].
    destruct (Hook.generateDiffMap svc (tick + 1) currentMapUrl url)
      as [diff| |] eqn:E2; [|done|by apply Hdiff in E2].
    destruct (Hook.hasBlueprintLeaks svc (tick + 2) url mapStyle)
      as [res| |] eqn:E3; [|done|by apply Hleaks in E3].
    apply IH; [done|lia].
Qed.

Lemma generationRun_settles aiClient blueprintData mapStyle maxRefinements :
  alwaysSettles svc ->
  (Hook.generationRun svc aiClient blueprintData mapStyle maxRefinements).2
  ≠ Hook.Stuck.
Proof.
  intros Hsvc. unfold Hook.generationRun.
  pose proof Hsvc as (Hgen & _ & _ & Hleaks).
  destruct (Hook.generateMapFromDrawing svc 0 aiClient blueprintData _)
    as [url| |] eqn:E1; [|simpl; done|by apply Hgen in E1].
  destruct (Hook.hasBlueprintLeaks svc 1 url mapStyle)
    as [res| |] eqn:E2; [|simpl; done|by apply Hleaks in E2].
  apply refinementLoop_settles; [done|lia].
Qed.

(** The history a run leaves, and how the run ends. *)
Lemma generationRun_shape aiClient blueprintData mapStyle maxRefinements :
  numberedFrom 1
    (Hook.generationRun svc aiClient blueprintData mapStyle maxRefinements).1 /\
  match (Hook.generationRun svc aiClient blueprintData mapStyle maxRefinements).2 with
  | Hook.Finished url passed' =>
      exists earlier lastRecord,
        (Hook.generationRun svc aiClient blueprintData mapStyle maxRefinements).1
        = earlier ++ [lastRecord] /\
        Forall openRecord earlier /\
        Hook.passed lastRecord = passed' /\ Hook.mapImage lastRecord = url /\
        (0 <= maxRefinements ->
         closingRecord lastRecord /\
         Z.of_nat (length earlier) <= maxRefinements /\
         (passed' = true \/ Z.of_nat (length earlier) = maxRefinements)) /\
        (Hook.isFinal lastRecord = true -> closingRecord lastRecord)
  | _ =>
      Forall openRecord
        (Hook.generationRun svc aiClient blueprintData mapStyle maxRefinements).1
  end.
Proof.
  unfold Hook.generationRun.
  destruct (Hook.generateMapFromDrawing svc 0 aiClient blueprintData _)
    as [url| |]; [|simpl; split; [done|constructor]..].
  destruct (Hook.hasBlueprintLeaks svc 1 url mapStyle)
    as [res| |]; [|simpl; split; [done|constructor]..].
  set (passed0 := negb (needsRefinement res)).
  set (final0 := passed0 || bool_decide (maxRefinements = 0)).
  set (first := Hook.mkRecord 1 url None (leakMapUrl res) passed0 final0
                  (Hook.reasonFor final0 passed0) None).
  destruct (negb passed0 && bool_decide (0 < maxRefinements)) eqn:Hc.
  - (* the loop runs: the first record stays open *)
    apply andb_true_iff in Hc as [Hp Hlt].
    apply negb_true_iff in Hp. apply bool_decide_eq_true in Hlt.
    assert (Hfinal : final0 = false).
    { unfold final0. rewrite Hp. simpl. apply bool_decide_eq_false. lia. }
    assert (Hopen : openRecord first).
    { unfold openRecord, first. simpl. by rewrite Hfinal. }
    destruct (refinementLoop_shape aiClient mapStyle maxRefinements
                (Z.to_nat maxRefinements) 2 0 passed0 url [first])
      as (added & E1 & Hnum & Hlen & Hend).
    rewrite E1. split; [simpl; split; [done|exact Hnum]|].
    destruct (Hook.refinementLoop svc (Z.to_nat maxRefinements) 2 aiClient
                mapStyle maxRefinements 0 passed0 url [first]).2
      as [url' passed'| |]; [|by constructor..].
    destruct Hend as [Hexit [(-> & Hp' & _)|(earlier & l & -> & Hear & Hl & Hpl & Hul)]].
    + destruct Hexit as [Hexit|Hexit]; [congruence|simpl in Hexit; lia].
    + exists (first :: earlier), l. split; [done|].
      split; [by constructor|]. split; [done|]. split; [done|].
      split; [|done]. intros _. split; [done|].
      rewrite length_app in Hlen, Hexit. simpl in *.
      destruct Hlen as [Hlen|Hlen]; [by destruct earlier|].
      split; [lia|]. destruct Hexit as [?|Hexit]; [by left|right; lia].
  - (* the loop does not run *)
    rewrite refinementLoop_done by done. simpl. split; [done|].
    exists [], first. split; [done|]. split; [constructor|].
    split; [done|]. split; [done|]. split.
    + intros Hmax. assert (Hfinal : final0 = true).
      { unfold final0. apply andb_false_iff in Hc as [Hc|Hc].
        - apply negb_false_iff in Hc. by rewrite Hc.
        - apply bool_decide_eq_false in Hc. apply orb_true_iff. right.
          apply bool_decide_eq_true. lia. }
      split; [unfold closingRecord, first; simpl; by rewrite Hfinal|].
      simpl. split; [lia|].
      apply andb_false_iff in Hc as [Hc|Hc].
      * left. by apply negb_false_iff in Hc.
      * right. apply bool_decide_eq_false in Hc. lia.
    + unfold closingRecord, first. simpl. intros ->. done.
Qed.
End RunFacts.

(** ** Invariants of the history *)

Lemma finalOnlyLast_snoc earlier r :
  Forall (fun r => Hook.isFinal r = false) earlier -> finalOnlyLast (earlier ++ [r]).
Proof.
  intros Hear i x Hi Hfin. rewrite length_app. simpl.
  destruct (decide (i < length earlier)%nat) as [Hlt|Hge].
  - rewrite lookup_app_l in Hi by done.
    rewrite Forall_forall in Hear.
    apply list_elem_of_lookup_2 in Hi. apply Hear in Hi. congruence.
  - apply lookup_lt_Some in Hi. rewrite length_app in Hi. simpl in Hi. lia.
Qed.

Lemma finalOnlyLast_none history :
  Forall (fun r => Hook.isFinal r = false) history -> finalOnlyLast history.
Proof.
  intros Hall i x Hi Hfin. rewrite Forall_forall in Hall.
  apply list_elem_of_lookup_2 in Hi. apply Hall in Hi. congruence.
Qed.

Lemma openRecord_not_final history :
  Forall openRecord history -> Forall (fun r => Hook.isFinal r = false) history.
Proof. intros H. eapply Forall_impl; [exact H|]. by intros r (_ & Hf & _). Qed.

Lemma isFinal_reopen r : Hook.isFinal (Hook.reopen r) = false.
Proof. unfold Hook.reopen. by destruct (Hook.isFinal r) eqn:E. Qed.

Lemma revision_reopen r : Hook.revision (Hook.reopen r) = Hook.revision r.
Proof. unfold Hook.reopen. by destruct (Hook.isFinal r). Qed.

(** After the in-place update no record of the history is final. *)
Lemma reopenLast_no_final history :
  finalOnlyLast history ->
  Forall (fun r => Hook.isFinal r = false) (Hook.reopenLast history).
Proof.
  destruct history as [|r history _] using rev_ind; [constructor|].
  intros Hinv. rewrite reopenLast_snoc. apply Forall_app. split.
  - apply Forall_forall. intros x Hx.
    apply list_elem_of_lookup_1 in Hx as [i Hi].
    destruct (Hook.isFinal x) eqn:Hfin; [|done].
    pose proof (lookup_lt_Some _ _ _ Hi) as Hlt.
    specialize (Hinv i x). rewrite lookup_app_l in Hinv by done.
    specialize (Hinv Hi Hfin). rewrite length_app in Hinv. simpl in Hinv. lia.
  - apply Forall_singleton, isFinal_reopen.
Qed.

Lemma numberedFrom_reopenLast first history :
  numberedFrom first history -> numberedFrom first (Hook.reopenLast history).
Proof.
  destruct history as [|r history _] using rev_ind; [done|].
  rewrite reopenLast_snoc, !numberedFrom_app. simpl.
  by rewrite revision_reopen.
Qed.

Lemma nextRevision_numbered history :
  numberedFrom 1 history ->
  Hook.nextRevision history = 1 + Z.of_nat (length history).
Proof.
  destruct history as [|r history _] using rev_ind; [done|].
  rewrite nextRevision_snoc, numberedFrom_app, length_app. simpl. lia.
Qed.

Lemma reopen_reasonIffFinal r : reasonIffFinal r -> reasonIffFinal (Hook.reopen r).
Proof.
  unfold reasonIffFinal, Hook.reopen.
  destruct (Hook.isFinal r) eqn:E; simpl; [intros _; split; done|by rewrite E].
Qed.

Lemma reasonFor_reasonIffFinal rev url diff leak passedCheck final manual :
  reasonIffFinal (Hook.mkRecord rev url diff leak passedCheck final
                    (Hook.reasonFor final passedCheck) manual).
Proof. unfold reasonIffFinal, Hook.reasonFor. simpl. by destruct final. Qed.

Lemma reopenLast_reasonIffFinal history :
  Forall reasonIffFinal history -> Forall reasonIffFinal (Hook.reopenLast history).
Proof.
  destruct history as [|r history _] using rev_ind; [done|].
  rewrite reopenLast_snoc, !Forall_app, !Forall_singleton.
  intros [H1 H2]. split; [done|by apply reopen_reasonIffFinal].
Qed.

Section HistoryFacts.
Context {AiClient : Type} (svc : Hook.Services AiClient).

Lemma refinementLoop_reasonIffFinal fuel : forall tick aiClient mapStyle
    maxRefinements refinementCount passedCheck currentMapUrl history,
  Forall reasonIffFinal history ->
  Forall reasonIffFinal
    (Hook.refinementLoop svc fuel tick aiClient mapStyle maxRefinements
       refinementCount passedCheck currentMapUrl history).1.
Proof.
  induction fuel as [|fuel IH]; intros tick aiClient mapStyle maxRefinements
    refinementCount passedCheck currentMapUrl history Hh; simpl.
  - by destruct (negb passedCheck && bool_decide (refinementCount < maxRefinements)).
  - destruct (negb passedCheck && bool_decide (refinementCount < maxRefinements));
      [|done].
    destruct (Hook.refineGeneratedMap svc tick aiClient currentMapUrl mapStyle)
      as [url| |]; [|done..].
    destruct (Hook.generateDiffMap svc (tick + 1) currentMapUrl url)
      as [diff| |]; [|done..].
    destruct (Hook.hasBlueprintLeaks svc (tick + 2) url mapStyle)
      as [res| |]; [|done..].
    apply IH. apply Forall_app. split; [done|].
    apply Forall_singleton, reasonFor_reasonIffFinal.
Qed.

Lemma generationRun_reasonIffFinal aiClient blueprintData mapStyle maxRefinements :
  Forall reasonIffFinal
    (Hook.generationRun svc aiClient blueprintData mapStyle maxRefinements).1.
Proof.
  unfold Hook.generationRun.
  destruct (Hook.generateMapFromDrawing svc 0 aiClient blueprintData _)
    as [url| |]; [|constructor..].
  destruct (Hook.hasBlueprintLeaks svc 1 url mapStyle) as [res| |]; [|constructor..].
  apply refinementLoop_reasonIffFinal, Forall_singleton, reasonFor_reasonIffFinal.
Qed.

Lemma generationRun_finalOnlyLast aiClient blueprintData mapStyle maxRefinements :
  finalOnlyLast
    (Hook.generationRun svc aiClient blueprintData mapStyle maxRefinements).1.
Proof.
  pose proof (generationRun_shape svc aiClient blueprintData mapStyle maxRefinements)
    as [_ H].
  destruct (Hook.generationRun svc aiClient blueprintData mapStyle maxRefinements).2
    as [url passed'| |].
  - destruct H as (earlier & l & -> & Hear & _).
    by apply finalOnlyLast_snoc, openRecord_not_final.
  - by apply finalOnlyLast_none, openRecord_not_final.
  - by apply finalOnlyLast_none, openRecord_not_final.
Qed.
End HistoryFacts.

Section Preservation.
Context {AiClient : Type} (svc : Hook.Services AiClient).

Lemma generationRun_historyOk aiClient blueprintData mapStyle maxRefinements :
  historyOk (Hook.generationRun svc aiClient blueprintData mapStyle maxRefinements).1.
Proof.
  split_and!.
  - apply generationRun_shape.
  - apply generationRun_finalOnlyLast.
  - apply generationRun_reasonIffFinal.
Qed.

Lemma generateMap_historyOk {V} st (vectorObjects : list V) blueprintData apiKey
    mapStyle maxRefinements :
  historyOk (Hook.analysisHistory st) ->
  historyOk
    (Hook.analysisHistory
       (Hook.generateMap svc st vectorObjects blueprintData apiKey mapStyle
          maxRefinements)).
Proof.
  intros Hst. unfold Hook.generateMap.
  destruct (decide (length vectorObjects = 0%nat)); [done|].
  destruct (decide (Hook.trim svc apiKey = "")); [done|].
  destruct (Hook.createAiClient svc (Hook.trim svc apiKey)) as [err|aiClient]; [done|].
  destruct (decide (blueprintData = "")); [done|].
  pose proof (generationRun_historyOk aiClient blueprintData mapStyle maxRefinements)
    as H.
  destruct (Hook.generationRun svc aiClient blueprintData mapStyle maxRefinements)
    as [history [url passedCheck|err|]]; done.
Qed.

Lemma reopenLast_historyOk history :
  historyOk history -> historyOk (Hook.reopenLast history).
Proof.
  intros (Hnum & Hfin & Hreason). split_and!.
  - by apply numberedFrom_reopenLast.
  - by apply finalOnlyLast_none, reopenLast_no_final.
  - by apply reopenLast_reasonIffFinal.
Qed.

Lemma manualRefine_historyOk st apiKey mapStyle :
  historyOk (Hook.analysisHistory st) ->
  historyOk (Hook.analysisHistory (Hook.manualRefine svc st apiKey mapStyle)).
Proof.
  intros Hst. pose proof (reopenLast_historyOk _ Hst) as Hre.
  unfold Hook.manualRefine.
  destruct (Hook.generatedImage st) as [img|]; [|done].
  case_decide; [done|]. destruct (Hook.isLoading st); [done|].
  case_decide; [done|].
  destruct (Hook.createAiClient svc (Hook.trim svc apiKey)) as [err|aiClient]; [done|].
  destruct (Hook.refineGeneratedMap svc 0 aiClient img mapStyle) as [url| |]; [|done..].
  destruct (Hook.generateDiffMap svc 1 img url) as [diff| |]; [|done..].
  destruct (Hook.hasBlueprintLeaks svc 2 url mapStyle) as [res| |]; [|done..].
  cbn [Hook.analysisHistory].
  destruct Hst as (Hnum & Hfin & Hreason). split_and!.
  - apply numberedFrom_app. split; [by apply numberedFrom_reopenLast|].
    simpl. rewrite length_reopenLast. split; [|done].
    by apply nextRevision_numbered.
  - by apply finalOnlyLast_snoc, reopenLast_no_final.
  - apply Forall_app. split; [by apply reopenLast_reasonIffFinal|].
    apply Forall_singleton. unfold reasonIffFinal. simpl. split; done.
Qed.
End Preservation.

Lemma reachable_historyOk {AiClient : Type} (st : Hook.HookState) :
  @reachable AiClient st -> historyOk (Hook.analysisHistory st).
Proof.
  induction 1 as [|svc st objs bp key style maxR _ IH|svc st key style _ IH|st _ IH].
  - split_and!; [done| |constructor]. by intros i r Hi.
  - by apply generateMap_historyOk.
  - by apply manualRefine_historyOk.
  - split_and!; [done| |constructor]. by intros i r Hi.
Qed.

(** A state with an image on display has a history. *)
Lemma reachable_image_history {AiClient : Type} (st : Hook.HookState) :
  @reachable AiClient st ->
  Hook.generatedImage st ≠ None -> Hook.analysisHistory st ≠ [].
Proof.
  induction 1 as [|svc st objs bp key style maxR _ IH|svc st key style _ IH|st _ IH].
  - done.
  - unfold Hook.generateMap.
    destruct (decide (length objs = 0%nat)); [done|].
    destruct (decide (Hook.trim svc key = "")); [done|].
    destruct (Hook.createAiClient svc (Hook.trim svc key)) as [err|aiClient]; [done|].
    destruct (decide (bp = "")); [done|].
    pose proof (generationRun_shape svc aiClient bp style maxR) as [_ H].
    destruct (Hook.generationRun svc aiClient bp style maxR)
      as [history [url passedCheck|err|]]; [|done..].
    simpl in *. destruct H as (earlier & l & -> & _). intros _. by destruct earlier.
  - assert (Hre : Hook.generatedImage st ≠ None ->
                   Hook.reopenLast (Hook.analysisHistory st) ≠ []).
    { intros Hg E. apply (f_equal length) in E. rewrite length_reopenLast in E.
      apply IH; [done|]. by destruct (Hook.analysisHistory st). }
    unfold Hook.manualRefine.
    assert (Hst : Hook.analysisHistory st ≠ [] \/ Hook.generatedImage st = None).
    { destruct (Hook.generatedImage st) eqn:Eg; [left; by apply IH|by right]. }
    destruct (Hook.generatedImage st) as [img|] eqn:Eg; [|intros Hn; by destruct Hn].
    destruct Hst as [Hst|Hst]; [|done].
    case_decide; [done|].
    destruct (Hook.isLoading st); [done|].
    case_decide; [done|].
    destruct (Hook.createAiClient svc (Hook.trim svc key)) as [err|aiClient]; [done|].
    destruct (Hook.refineGeneratedMap svc 0 aiClient img style) as [url| |];
      [|simpl; intros _; by apply Hre..].
    destruct (Hook.generateDiffMap svc 1 img url) as [diff| |];
      [|simpl; intros _; by apply Hre..].
    destruct (Hook.hasBlueprintLeaks svc 2 url style) as [res| |];
      [|simpl; intros _; by apply Hre..].
    simpl. intros _. by destruct (Hook.reopenLast (Hook.analysisHistory st)).
  - done.
Qed.

(** * Path simplification *)

Section SimplifyFacts.
Context {VectorPoint : Type}.
Variable dist : VectorPoint -> VectorPoint -> VectorPoint -> Q.

(** The scan for the farthest point: [dmax] is never negative, and once it
    is positive [index] is an interior index. *)
Lemma farthest_fold points first lastPoint n indices : forall st,
  (forall i, i ∈ indices -> (1 <= i <= n)%nat) ->
  (0 <= st.2)%Q -> ((0 < st.2)%Q -> (1 <= st.1 <= n)%nat) ->
  let st' := foldl (farthestStep dist points first lastPoint) st indices in
  (0 <= st'.2)%Q /\ ((0 < st'.2)%Q -> (1 <= st'.1 <= n)%nat).
Proof.
  induction indices as [|i indices IH]; intros st Hin H0 Hpos; [done|].
  simpl. apply IH.
  - intros j Hj. apply Hin. by right.
  - unfold farthestStep. destruct (points !! i) as [p|]; [|done].
    destruct (Qlt_le_dec st.2 (dist p first lastPoint)) as [Hlt|Hle]; [|done].
    simpl. apply Qlt_le_weak. eapply Qle_lt_trans; [exact H0|exact Hlt].
  - unfold farthestStep. destruct (points !! i) as [p|]; [|done].
    destruct (Qlt_le_dec st.2 (dist p first lastPoint)) as [Hlt|Hle]; [|done].
    simpl. intros _. apply Hin. left.
Qed.

Lemma farthest_spec points first lastPoint :
  (0 <= (farthest dist points first lastPoint).2)%Q /\
  ((0 < (farthest dist points first lastPoint).2)%Q ->
   (1 <= (farthest dist points first lastPoint).1 <= length points - 2)%nat).
Proof.
  apply farthest_fold.
  - intros i Hi. apply elem_of_seq in Hi. lia.
  - simpl. apply Qle_refl.
  - simpl. intros H. by apply Qlt_irrefl in H.
Qed.

(** When no interior point is at a positive distance the scan leaves
    [index = 0] and [dmax = 0]. *)
Lemma farthest_flat points first lastPoint :
  (forall i p, points !! i = Some p -> (dist p first lastPoint <= 0)%Q) ->
  farthest dist points first lastPoint = (0%nat, 0%Q).
Proof.
  intros Hflat. unfold farthest.
  induction (seq 1 (length points - 2)) as [|i indices IH]; [done|].
  simpl. unfold farthestStep at 2. destruct (points !! i) as [p|] eqn:Ei; [|done].
  simpl. destruct (Qlt_le_dec 0 (dist p first lastPoint)) as [Hlt|Hle]; [|done].
  apply Hflat in Ei. by apply Qle_not_lt in Ei.
Qed.

Lemma last_drop_lt (l : list VectorPoint) i :
  (i < length l)%nat -> last (drop i l) = last l.
Proof.
  intros Hi. rewrite <- (take_drop i l) at 2. rewrite last_app.
  destruct (last (drop i l)) eqn:E; [done|].
  apply last_None in E. apply (f_equal length) in E.
  rewrite length_drop in E. simpl in E. lia.
Qed.

(** With a tolerance that is not negative each call works on a shorter
    list, so the recursion ends; the result keeps both ends of the path
    and takes its points from the path, in order. *)
Lemma simplifyPath_spec epsilon fuel :
  (0 <= epsilon)%Q ->
  forall points, (length points <= fuel + 2)%nat ->
  exists result,
    simplifyPath dist fuel points epsilon = Some result /\
    result `sublist_of` points /\
    head result = head points /\ last result = last points /\
    ((2 <= length points)%nat -> (2 <= length result)%nat).
Proof.
  intros Heps. induction fuel as [|fuel IH]; intros points Hlen.
  - exists points. simpl. rewrite decide_True by lia. done.
  - simpl. destruct (decide (length points < 3)%nat) as [Hs|Hl].
    { by exists points. }
    destruct points as [|first rest]; [simpl in Hl; lia|].
    destruct (last (first :: rest)) as [lastPoint|] eqn:Elast;
      [|by apply last_None in Elast].
    cbn [head].
    pose proof (farthest_spec (first :: rest) first lastPoint) as [Hd0 Hidx].
    set (st := farthest dist (first :: rest) first lastPoint) in *.
    destruct (Qlt_le_dec epsilon st.2) as [Hfar|Hnear].
    + (* split at the farthest point *)
      assert (Hi : (1 <= st.1 <= length (first :: rest) - 2)%nat).
      { apply Hidx. eapply Qle_lt_trans; [exact Heps|exact Hfar]. }
      set (index := st.1) in *.
      destruct (lookup_lt_is_Some_2 (first :: rest) index) as [mid Hmid]; [lia|].
      destruct (IH (take (index + 1) (first :: rest))) as (r1 & E1 & S1 & H1 & L1 & N1).
      { rewrite length_take. lia. }
      destruct (IH (drop index (first :: rest))) as (r2 & E2 & S2 & H2 & L2 & N2).
      { rewrite length_drop. lia. }
      rewrite E1, E2.
      assert (Etake : take (index + 1) (first :: rest)
                      = take index (first :: rest) ++ [mid]).
      { replace (index + 1)%nat with (S index) by lia. by apply take_S_r. }
      rewrite Etake, last_snoc in L1. apply last_Some in L1 as [r1' ->].
      rewrite dropLast_snoc. rewrite Etake in S1. apply sublist_app_inv_r in S1.
      specialize (N1 ltac:(rewrite length_take; lia)).
      specialize (N2 ltac:(rewrite length_drop; lia)).
      exists (r1' ++ r2). split_and!.
      * done.
      * rewrite <- (take_drop index (first :: rest)). by apply sublist_app.
      * destruct r1' as [|a r1']; [simpl in N1; lia|].
        replace (index + 1)%nat with (S index) in H1 by lia. done.
      * rewrite last_app, L2, last_drop_lt by lia. by rewrite Elast.
      * intros _. rewrite length_app. lia.
    + (* everything is within the tolerance *)
      exists [first; lastPoint]. split_and!; [done| |done|done|done].
      apply last_Some in Elast as [l' El]. rewrite El.
      destruct l' as [|a l']; [apply (f_equal length) in El; simpl in *; lia|].
      injection El as -> _. apply sublist_skip.
      apply sublist_inserts_l. done.
Qed.

(** With a negative tolerance and a path whose interior points are all at
    distance 0 (or less) from the chord, the second recursive call is made
    on the whole path again: no amount of fuel is enough. *)
Lemma simplifyPath_negative epsilon points first lastPoint :
  (epsilon < 0)%Q -> (3 <= length points)%nat ->
  head points = Some first -> last points = Some lastPoint ->
  (forall i p, points !! i = Some p -> (dist p first lastPoint <= 0)%Q) ->
  forall fuel, simplifyPath dist fuel points epsilon = None.
Proof.
  intros Heps Hlen Hhead Hlast Hflat fuel.
  induction fuel as [|fuel IH]; simpl.
  - by rewrite decide_False by lia.
  - rewrite decide_False by lia. rewrite Hhead, Hlast.
    rewrite (farthest_flat points first lastPoint Hflat). simpl.
    destruct (Qlt_le_dec epsilon 0) as [_|Hle]; [|by apply Qle_not_lt in Hle].
    rewrite drop_0, IH.
    by destruct (simplifyPath dist fuel (take 1 points) epsilon).
Qed.
End SimplifyFacts.

(** * The clusters of pass 4 as a partition *)






(** * The regions of pass 1 as a partition *)

Lemma reach_seed_or_accept neighbors accept v0 s i :
  reach neighbors accept v0 s i -> i = s \/ accept i = true.
Proof. induction 1; [by left|by right]. Qed.

Lemma flatRegionsLoop_partition w h pixels t remaining : forall k visited,
  t > 0 ->
  length visited = (w * h)%nat -> (k + length remaining <= w * h)%nat ->
  (forall i p, remaining !! i = Some p -> pixels !! (k + i)%nat = Some p) ->
  exists regions,
    flatRegionsLoop w h pixels t k remaining visited = Some regions /\
    NoDup (concat regions) /\
    (forall j, j ∈ concat regions -> (j < w * h)%nat /\ isSet visited j = false) /\
    (forall j, (k <= j < k + length remaining)%nat ->
       isSet visited j = true \/ j ∈ concat regions) /\
    Forall (flatAround pixels t) regions.
Proof.
  induction remaining as [|start remaining IH]; intros k visited Ht Hlen Hk Hpix.
  - exists []. split_and!; [done|constructor| | |constructor].
    + intros j Hj. by apply elem_of_nil in Hj.
    + simpl. lia.
  - simpl. simpl in Hk.
    assert (Hpix' : forall i p, remaining !! i = Some p ->
              pixels !! (S k + i)%nat = Some p).
    { intros i p Hi. replace (S k + i)%nat with (k + S i)%nat by lia.
      by apply Hpix. }
    destruct (isSet visited k) eqn:Hv.
    + destruct (IH (S k) visited Ht Hlen ltac:(lia) Hpix')
        as (regions & E1 & E2 & E3 & E4 & E5).
      exists regions. split_and!; [done|done|done| |done].
      intros j Hj. destruct (decide (j = k)) as [->|Hne]; [by left|].
      apply E4. lia.
    + destruct (flatRegionAt_spec w h pixels t start k visited Hlen ltac:(lia) Hv)
        as (region & visited' & Hat & Hlen' & Hnd & Hreach & Hfresh & Hmk).
      rewrite Hat.
      destruct (IH (S k) visited' Ht Hlen' ltac:(lia) Hpix')
        as (regions & E1 & E2 & E3 & E4 & E5).
      rewrite E1. exists (region :: regions). simpl. split_and!; [done| | | |].
      * apply NoDup_app. split_and!; [done| |done].
        intros j Hj Hj'. apply E3 in Hj' as [_ Hu].
        assert (isSet visited' j = true) by (apply Hmk; by right). congruence.
      * intros j Hj. apply elem_of_app in Hj as [Hj|Hj]; [by apply Hfresh|].
        apply E3 in Hj as [H1 H2]. split; [done|].
        destruct (isSet visited j) eqn:E; [|done].
        assert (isSet visited' j = true) by (apply Hmk; by left). congruence.
      * intros j Hj. rewrite elem_of_app.
        destruct (decide (j = k)) as [->|Hne].
        -- right. left. apply Hreach. constructor.
        -- destruct (E4 j ltac:(lia)) as [Hm|Hm]; [|by right; right].
           apply Hmk in Hm as [Hm|Hm]; [by left|by right; left].
      * constructor; [|done].
        assert (Hstart : pixels !! k = Some start).
        { specialize (Hpix 0%nat start eq_refl). by rewrite Nat.add_0_r in Hpix. }
        exists k, start. split_and!; [apply Hreach; constructor|done|].
        intros j Hj. apply Hreach, reach_seed_or_accept in Hj as [->|Hj].
        -- exists start. split; [done|]. rewrite colorDistanceSq_same. lia.
        -- unfold isFlatWith in Hj. destruct (pixels !! j) as [p|]; [|done].
           exists p. split; [done|]. by apply bool_decide_eq_true in Hj.
Qed.

(** Pass 1 cuts the bitmap into regions: every pixel lies in exactly one
    region, and each region is flat around the pixel it was grown from. *)
Lemma flatRegions_partition img t :
  wellFormed img -> t > 0 ->
  exists regions,
    flatRegions img t = Some regions /\
    NoDup (concat regions) /\
    (forall j, j ∈ concat regions <-> (j < width img * height img)%nat) /\
    Forall (flatAround (data img) t) regions.
Proof.
  intros Hwf Ht. unfold flatRegions.
  destruct (flatRegionsLoop_partition (width img) (height img) (data img) t (data img)
              0 (newMask (width img * height img)) Ht)
    as (regions & E1 & E2 & E3 & E4 & E5).
  - apply length_newMask.
  - rewrite Hwf. lia.
  - done.
  - exists regions. split_and!; [done|done| |done].
    intros j. split; [intros Hj; by apply E3 in Hj as [? _]|].
    intros Hj. destruct (E4 j) as [Hm|Hm]; [rewrite Hwf; lia| |done].
    by rewrite isSet_newMask in Hm.
Qed.

(** * The shape test does not depend on where the cluster lies *)

Section Translate.
Variables dx dy : Z.

Lemma crossProduct_translate a b c :
  crossProduct (translate dx dy a) (translate dx dy b) (translate dx dy c) = crossProduct a b c.
Proof. unfold crossProduct, translate. simpl. lia. Qed.

Lemma pointLe_translate a b : pointLe (translate dx dy a) (translate dx dy b) <-> pointLe a b.
Proof.
  unfold pointLe, comparePoints, translate. simpl.
  repeat case_decide; lia.
Qed.

Lemma sortPoints_translate c : sortPoints (translate dx dy <$> c) = translate dx dy <$> sortPoints c.
Proof.
  apply (StronglySorted_unique pointLe); [apply sortPoints_sorted| |].
  - pose proof (sortPoints_sorted c) as Hs.
    induction Hs as [|a l Hl IH Ha]; [constructor|].
    rewrite fmap_cons. constructor; [done|].
    apply Forall_fmap. eapply Forall_impl; [exact Ha|].
    intros b Hab. by apply pointLe_translate.
  - unfold sortPoints. rewrite !merge_sort_Permutation. done.
Qed.

Lemma popWhile_translate hull p :
  popWhile (translate dx dy <$> hull) (translate dx dy p) = translate dx dy <$> popWhile hull p.
Proof.
  induction hull as [|b hull IH]; [done|].
  destruct hull as [|a rest]; [done|].
  rewrite !fmap_cons. cbn [popWhile]. rewrite crossProduct_translate.
  case_decide; [|done]. apply IH.
Qed.

Lemma buildHullStack_translate points : forall stack,
  foldl pushPoint (translate dx dy <$> stack) (translate dx dy <$> points) = translate dx dy <$> foldl pushPoint stack points.
Proof.
  induction points as [|p points IH]; intros stack; [done|].
  rewrite fmap_cons. cbn [foldl]. rewrite <- IH. f_equal.
  unfold pushPoint. by rewrite popWhile_translate.
Qed.

Lemma buildHull_translate points : buildHull (translate dx dy <$> points) = translate dx dy <$> buildHull points.
Proof.
  unfold buildHull, buildHullStack.
  change (@nil Point) with (translate dx dy <$> @nil Point) at 1.
  by rewrite buildHullStack_translate, fmap_reverse.
Qed.

Lemma dropLast_fmap {A B} (f : A -> B) (l : list A) :
  dropLast (f <$> l) = f <$> dropLast l.
Proof. unfold dropLast. by rewrite length_fmap, fmap_take. Qed.

Lemma getConvexHull_translate c : getConvexHull (translate dx dy <$> c) = translate dx dy <$> getConvexHull c.
Proof.
  unfold getConvexHull. rewrite length_fmap. case_decide; [done|].
  rewrite sortPoints_translate, <- fmap_reverse, !buildHull_translate.
  by rewrite !dropLast_fmap, fmap_app.
Qed.

(** Along a path the shoelace terms change by a telescoping amount. *)
Lemma shoelace_translate points : forall prev,
  shoelace (translate dx dy prev) (translate dx dy <$> points)
  = shoelace prev points
    + 2 * dx * (pty prev - pty (default prev (last points))).
Proof.
  induction points as [|p points IH]; intros prev.
  - simpl. lia.
  - rewrite fmap_cons. cbn [shoelace]. rewrite IH.
    replace (default prev (last (p :: points))) with (default p (last points)).
    + unfold translate. simpl. lia.
    + destruct points as [|q points]; [done|].
      rewrite last_cons_cons.
      destruct (last (q :: points)) eqn:E; [done|by apply last_None in E].
Qed.

Lemma shoelaceSum_translate points :
  shoelaceSum (translate dx dy <$> points) = shoelaceSum points.
Proof.
  unfold shoelaceSum. rewrite fmap_last.
  destruct (last points) as [pj|] eqn:El; [|done].
  simpl. rewrite shoelace_translate, El. simpl. lia.
Qed.

Lemma polygonArea_translate points :
  polygonArea (translate dx dy <$> points) = polygonArea points.
Proof. unfold polygonArea. by rewrite shoelaceSum_translate. Qed.

Lemma isBlob_translate t c : isBlob t (translate dx dy <$> c) = isBlob t c.
Proof.
  unfold isBlob.
  by rewrite getConvexHull_translate, polygonArea_translate, !length_fmap.
Qed.
End Translate.

(** * The chains of the hull turn left *)

Lemma stackTurns_tail c stack : stackTurns (c :: stack) -> stackTurns stack.
Proof. destruct stack as [|b [|a rest]]; simpl; tauto. Qed.

Lemma popWhile_turns stack p :
  stackTurns stack -> stackTurns (p :: popWhile stack p).
Proof.
  induction stack as [|b stack IH]; [done|].
  destruct stack as [|a rest]; [done|].
  intros Hst. cbn [popWhile]. case_decide as Hc.
  - apply IH. by apply stackTurns_tail in Hst.
  - split; [lia|done].
Qed.

Lemma buildHullStack_turns points : forall stack,
  stackTurns stack -> stackTurns (foldl pushPoint stack points).
Proof.
  induction points as [|p points IH]; intros stack Hst; [done|].
  simpl. apply IH. by apply popWhile_turns.
Qed.

Lemma stackTurns_lookup stack : forall i c b a,
  stackTurns stack ->
  stack !! i = Some c -> stack !! S i = Some b -> stack !! S (S i) = Some a ->
  crossProduct a b c > 0.
Proof.
  induction stack as [|x stack IH]; intros i c b a Hst Hc Hb Ha; [done|].
  destruct i as [|i].
  - destruct stack as [|y [|z rest]]; try done.
    simpl in *. injection Hc as ->. injection Hb as ->. injection Ha as ->. tauto.
  - apply (IH i c b a); [by apply stackTurns_tail in Hst|done..].
Qed.

Lemma buildHull_leftTurns points : leftTurns (buildHull points).
Proof.
  unfold buildHull, buildHullStack.
  pose proof (buildHullStack_turns points [] I) as Hst.
  set (stack := foldl pushPoint [] points) in *.
  intros i a b c Ha Hb Hc.
  pose proof (lookup_lt_Some _ _ _ Hc) as Hlt. rewrite length_reverse in Hlt.
  rewrite reverse_lookup in Ha, Hb, Hc by lia.
  apply (stackTurns_lookup stack (length stack - S (S (S i))) c b a Hst).
  - done.
  - by replace (S (length stack - S (S (S i))))%nat
      with (length stack - S (S i))%nat by lia.
  - by replace (S (S (length stack - S (S (S i)))))%nat
      with (length stack - S i)%nat by lia.
Qed.

(** * The mask grows with the palette and the tolerance *)

Lemma matchesBlueprint_mono colors colors' tol tol' p :
  colors ⊆ colors' -> tol <= tol' ->
  matchesBlueprint colors tol p = true -> matchesBlueprint colors' tol' p = true.
Proof.
  intros Hsub Hle. unfold matchesBlueprint. rewrite !existsb_exists.
  intros (c & Hc & Hd). exists c. split.
  - apply list_elem_of_In. apply Hsub. by apply list_elem_of_In.
  - apply bool_decide_eq_true in Hd. apply bool_decide_eq_true. lia.
Qed.

Lemma leakMask_mono img colors colors' thr tol tol' flat :
  wellFormed img -> colors ⊆ colors' -> tol <= tol' ->
  exists mask mask',
    leakMask img colors thr tol flat = Some mask /\
    leakMask img colors' thr tol' flat = Some mask' /\
    forall i, isSet mask i = true -> isSet mask' i = true.
Proof.
  intros Hwf Hsub Hle.
  destruct (flatPass_total img thr flat Hwf) as (m1 & E & Hl).
  exists (palettePass img colors tol m1), (palettePass img colors' tol' m1).
  unfold leakMask. rewrite E. split_and!; [done|done|].
  intros i. unfold palettePass. rewrite !isSet_palettePassLoop.
  intros [H|(p & Hp & Hr & Hm)]; [by left|right].
  exists p. split_and!; [done|lia|lia|]. by eapply matchesBlueprint_mono.
Qed.

(** * Further properties of the code *)

(** ** The worker *)

(** X1.  On a decoded full-grid bitmap, with a working canvas and encoder,
    every loop of [performLeakDetection] ends: the call resolves with a
    decision and with the heat map of the combined mask, which has one entry
    per pixel. *)
Theorem leak_detection_resolves_on_full_grid env mapImageSrc img colors
    clusterSizeThreshold colorMatchThresholdSq flatnessThresholdSq :
  loadImage env mapImageSrc = Some img -> wellFormed img ->
  hasContext env = true -> hasHeatmapContext env = true ->
  blobConverts env = true -> readerLoads env = true ->
  exists needs mask,
    leakMask img colors clusterSizeThreshold colorMatchThresholdSq
      flatnessThresholdSq = Some mask /\
    length mask = (width img * height img)%nat /\
    performLeakDetection env mapImageSrc colors clusterSizeThreshold
      colorMatchThresholdSq flatnessThresholdSq
    = Resolved (mkResult needs (Some (heatmapOf (width img) (height img) mask))).
Proof.
  intros El Hwf Hc Hh Hb Hr.
  destruct (leakDetectionBody_decoded env mapImageSrc img colors clusterSizeThreshold
              colorMatchThresholdSq flatnessThresholdSq El Hwf Hc Hh)
    as (needs & mask & E1 & Hl & E2 & E3).
  exists needs, mask. split_and!; [done|done|].
  unfold performLeakDetection. rewrite E3. unfold encodeHeatmap. by rewrite Hb, Hr.
Qed.

Lemma leak_detection_resolves_on_full_grid_witness :
  let img := mkImageData 2 2 [mkPixel 10 20 30 255; mkPixel 11 20 30 255;
                              mkPixel 200 0 0 255; mkPixel 10 20 30 255] in
  let env := mkWorkerEnv (fun _ => Some img) true true true true false in
  exists needs mask,
    leakMask img [mkBlueprintColor "a" 10 20 30] 400 100 (Some 50) = Some mask /\
    length mask = (width img * height img)%nat /\
    performLeakDetection env "map" [mkBlueprintColor "a" 10 20 30] 400 100 (Some 50)
    = Resolved (mkResult needs (Some (heatmapOf (width img) (height img) mask))).
Proof.
  intros img env.
  apply (leak_detection_resolves_on_full_grid env "map" img
           [mkBlueprintColor "a" 10 20 30] 400 100 (Some 50)); reflexivity.
Defined.

(** X2.  The combined mask of passes 1 and 2: with a flatness threshold
    above 0 a pixel is marked exactly when it lies in a flood-filled region
    larger than the threshold or its colour is within the tolerance of a
    palette colour; without a flatness threshold, exactly when its colour is
    within the tolerance. *)
Theorem leak_mask_marks_regions_and_matches img colors clusterSizeThreshold
    colorMatchThresholdSq t :
  wellFormed img -> t > 0 ->
  (exists mask regions,
     leakMask img colors clusterSizeThreshold colorMatchThresholdSq (Some t)
     = Some mask /\
     flatRegions img t = Some regions /\
     forall i, isSet mask i = true <->
       (exists region, region ∈ regions /\
          Z.of_nat (length region) > clusterSizeThreshold /\ i ∈ region) \/
       (exists p, data img !! i = Some p /\
          matchesBlueprint colors colorMatchThresholdSq p = true)) /\
  (exists mask,
     leakMask img colors clusterSizeThreshold colorMatchThresholdSq None
     = Some mask /\
     forall i, isSet mask i = true <->
       exists p, data img !! i = Some p /\
         matchesBlueprint colors colorMatchThresholdSq p = true).
Proof.
  intros Hwf Ht. split.
  - by apply leakMask_flat_spec.
  - by apply leakMask_palette_spec.
Qed.

Lemma leak_mask_marks_regions_and_matches_witness :
  let img := mkImageData 2 1 [mkPixel 10 20 30 255; mkPixel 200 0 0 255] in
  let colors := [mkBlueprintColor "a" 10 20 30] in
  (exists mask regions,
     leakMask img colors 400 100 (Some 50) = Some mask /\
     flatRegions img 50 = Some regions /\
     forall i, isSet mask i = true <->
       (exists region, region ∈ regions /\
          Z.of_nat (length region) > 400 /\ i ∈ region) \/
       (exists p, data img !! i = Some p /\ matchesBlueprint colors 100 p = true)) /\
  (exists mask,
     leakMask img colors 400 100 None = Some mask /\
     forall i, isSet mask i = true <->
       exists p, data img !! i = Some p /\ matchesBlueprint colors 100 p = true).
Proof.
  intros img colors.
  apply (leak_mask_marks_regions_and_matches img colors 400 100 50).
  - reflexivity.
  - lia.
Defined.

(** X3.  A mask that is flagged holds more leak pixels than the cluster
    size threshold. *)
Theorem flagged_mask_exceeds_threshold w h leaks clusterSizeThreshold :
  length leaks = (w * h)%nat ->
  analyzeMask w h leaks clusterSizeThreshold = Some true ->
  totalLeakedPixels leaks > clusterSizeThreshold.
Proof. apply analyzeMask_flagged. Qed.

Lemma flagged_mask_exceeds_threshold_witness :
  totalLeakedPixels (replicate 9 true) > 4.
Proof.
  apply (flagged_mask_exceeds_threshold 3 3 (replicate 9 true) 4).
  - reflexivity.
  - vm_compute. reflexivity.
Defined.

(** X4.  When no pixel of the bitmap is within the tolerance of a palette
    colour and the flatness pass is off, the mask is empty and the bitmap is
    not flagged, whatever the threshold. *)
Theorem unmatched_bitmap_is_not_flagged img colors clusterSizeThreshold
    colorMatchThresholdSq :
  wellFormed img ->
  (forall p, p ∈ data img -> matchesBlueprint colors colorMatchThresholdSq p = false) ->
  exists mask,
    leakMask img colors clusterSizeThreshold colorMatchThresholdSq None = Some mask /\
    (forall i, isSet mask i = false) /\
    analyzeMask (width img) (height img) mask clusterSizeThreshold = Some false.
Proof.
  intros Hwf Hno.
  destruct (leakMask_palette_spec img colors clusterSizeThreshold colorMatchThresholdSq
              Hwf) as (mask & E & Hm).
  destruct (leakMask_total img colors clusterSizeThreshold colorMatchThresholdSq None
              Hwf) as (mask' & E' & Hl).
  assert (mask' = mask) as -> by congruence.
  assert (Hclear : forall i, isSet mask i = false).
  { intros i. destruct (isSet mask i) eqn:Ei; [|done].
    apply Hm in Ei as (p & Hp & Hmatch).
    rewrite Hno in Hmatch; [done|]. by eapply list_elem_of_lookup_2. }
  exists mask. split_and!; [done|done|]. by apply analyzeMask_clear.
Qed.

Lemma unmatched_bitmap_is_not_flagged_witness :
  let img := mkImageData 2 1 [mkPixel 10 20 30 255; mkPixel 200 0 0 255] in
  exists mask,
    leakMask img [] (-1) 400 None = Some mask /\
    (forall i, isSet mask i = false) /\
    analyzeMask (width img) (height img) mask (-1) = Some false.
Proof.
  intros img. apply (unmatched_bitmap_is_not_flagged img [] (-1) 400).
  - reflexivity.
  - intros p _. reflexivity.
Defined.

(** X5.  A cluster whose pixels lie on one line is never a blob, however
    many pixels it has: its hull keeps at most two points. *)
Theorem collinear_cluster_is_not_a_blob clusterSizeThreshold clusterPoints :
  collinear clusterPoints ->
  (length (getConvexHull clusterPoints) <= 2)%nat /\
  isBlob clusterSizeThreshold clusterPoints = false.
Proof.
  intros Hcol. pose proof (getConvexHull_collinear clusterPoints Hcol) as Hh.
  split; [done|]. unfold isBlob. case_decide; [|done].
  by rewrite decide_False by lia.
Qed.

Lemma collinear_cluster_is_not_a_blob_witness :
  let diagonal := [mkPoint 0 0; mkPoint 3 3; mkPoint 1 1; mkPoint 2 2] in
  (length (getConvexHull diagonal) <= 2)%nat /\ isBlob 3 diagonal = false.
Proof.
  intros diagonal. apply (collinear_cluster_is_not_a_blob 3 diagonal).
  intros a b c Ha Hb Hc.
  repeat (apply elem_of_cons in Ha as [->|Ha]; [|]);
    try (by apply elem_of_nil in Ha);
    repeat (apply elem_of_cons in Hb as [->|Hb]; [|]);
    try (by apply elem_of_nil in Hb);
    repeat (apply elem_of_cons in Hc as [->|Hc]; [|]);
    try (by apply elem_of_nil in Hc); reflexivity.
Defined.

(** X6.  Every vertex of the hull is one of the input points. *)
Theorem hull_vertices_are_input_points points :
  getConvexHull points ⊆ points.
Proof. intros q. apply getConvexHull_subseteq. Qed.

(** X7.  For more than two points the hull does not depend on the order in
    which the points are given. *)
Theorem hull_ignores_input_order points points' :
  points ≡ₚ points' -> (2 < length points)%nat ->
  getConvexHull points = getConvexHull points'.
Proof. apply getConvexHull_perm. Qed.

Lemma hull_ignores_input_order_witness :
  getConvexHull [mkPoint 1 1; mkPoint 0 0; mkPoint 2 0; mkPoint 0 2]
  = getConvexHull [mkPoint 0 0; mkPoint 1 1; mkPoint 0 2; mkPoint 2 0].
Proof.
  apply (hull_ignores_input_order
           [mkPoint 1 1; mkPoint 0 0; mkPoint 2 0; mkPoint 0 2]
           [mkPoint 0 0; mkPoint 1 1; mkPoint 0 2; mkPoint 2 0]).
  - etrans; [apply perm_swap|]. do 2 apply perm_skip. apply perm_swap.
  - simpl. lia.
Defined.

(** X8.  When [performDiffing] returns an overlay, the overlay has the
    dimensions of the base bitmap, one entry per pixel, and a pixel is
    magenta where the two bitmaps differ by more than the threshold and
    transparent elsewhere. *)
Theorem diff_overlay_marks_changed_pixels env imageBase imageNew imgBase imgNew
    diffThresholdSq overlay :
  loadImage env imageBase = Some imgBase ->
  loadImage env imageNew = Some imgNew ->
  width imgBase = width imgNew -> height imgBase = height imgNew ->
  hasContext env = true -> blobConverts env = true -> readerLoads env = true ->
  performDiffing env imageBase imageNew diffThresholdSq = Resolved (Some overlay) ->
  width overlay = width imgBase /\ height overlay = height imgBase /\
  length (data overlay) = length (data imgBase) /\
  forall i p1, data imgBase !! i = Some p1 ->
    data overlay !! i
    = Some (if differs diffThresholdSq p1 (data imgNew !! i)
            then diffHighlight else transparent).
Proof.
  intros Ea Eb Hw Hh Hc Hb Hr.
  rewrite (performDiffing_same_size env _ _ imgBase imgNew diffThresholdSq
             Ea Eb Hw Hh Hc Hb Hr). cbv zeta.
  destruct (diffLoop diffThresholdSq (data imgBase) (data imgNew)).2; [|done].
  intros [= <-]. simpl. split_and!; [done|done|apply length_diffLoop|].
  intros i p1 Hi. by apply diffLoop_overlay.
Qed.

Lemma diff_overlay_marks_changed_pixels_witness :
  let base := mkImageData 1 2 [mkPixel 0 0 0 255; mkPixel 10 10 10 255] in
  let new := mkImageData 1 2 [mkPixel 0 0 0 255; mkPixel 30 10 10 255] in
  let env :=
    mkWorkerEnv (fun src => if decide (src = "base") then Some base else Some new)
      true true true true false in
  let overlay := mkImageData 1 2 [transparent; diffHighlight] in
  width overlay = width base /\ height overlay = height base /\
  length (data overlay) = length (data base) /\
  forall i p1, data base !! i = Some p1 ->
    data overlay !! i
    = Some (if differs 100 p1 (data new !! i) then diffHighlight else transparent).
Proof.
  intros base new env overlay.
  apply (diff_overlay_marks_changed_pixels env "base" "new" base new 100 overlay);
    reflexivity.
Defined.

(** X9.  The diff does not depend on which of two decoded full-grid bitmaps
    is taken as the base. *)
Theorem diff_is_symmetric env imageBase imageNew imgBase imgNew diffThresholdSq :
  loadImage env imageBase = Some imgBase ->
  loadImage env imageNew = Some imgNew ->
  wellFormed imgBase -> wellFormed imgNew ->
  performDiffing env imageBase imageNew diffThresholdSq
  = performDiffing env imageNew imageBase diffThresholdSq.
Proof.
  intros Ea Eb Hwa Hwb. unfold performDiffing, diffingBody. rewrite Ea, Eb.
  destruct (decide (width imgBase ≠ width imgNew \/ height imgBase ≠ height imgNew))
    as [Hd|Hs].
  - rewrite decide_True by (destruct Hd; [left|right]; congruence). done.
  - assert (Hw : width imgBase = width imgNew) by (destruct (decide (width imgBase = width imgNew)); tauto).
    assert (Hh : height imgBase = height imgNew) by (destruct (decide (height imgBase = height imgNew)); tauto).
    rewrite decide_False by (intros [?|?]; congruence).
    rewrite (diffLoop_sym diffThresholdSq (data imgBase) (data imgNew)).
    + by rewrite Hw, Hh.
    + unfold wellFormed in *. congruence.
Qed.

Lemma diff_is_symmetric_witness :
  let base := mkImageData 1 2 [mkPixel 0 0 0 255; mkPixel 10 10 10 255] in
  let new := mkImageData 1 2 [mkPixel 0 0 0 255; mkPixel 30 10 10 255] in
  let env :=
    mkWorkerEnv (fun src => if decide (src = "base") then Some base else Some new)
      true true true true false in
  performDiffing env "base" "new" 100 = performDiffing env "new" "base" 100.
Proof.
  intros base new env.
  apply (diff_is_symmetric env "base" "new" base new 100); reflexivity.
Defined.

(** ** The controller *)

(** X10.  A request that fails a guard of [generateMap] (nothing drawn, a
    blank key, a client that cannot be created, an empty blueprint) only
    sets the error: the loading flag, the image on display, the blueprint
    and the history stay as they were. *)
Theorem generateMap_rejected_request_keeps_results {AiClient : Type}
    (svc : Hook.Services AiClient) st (vectorObjects : list unit) blueprintData
    apiKey mapStyle maxRefinements :
  vectorObjects = [] \/ Hook.trim svc apiKey = "" \/
  (exists err, Hook.createAiClient svc (Hook.trim svc apiKey) = inl err) \/
  blueprintData = "" ->
  exists message,
    Hook.generateMap svc st vectorObjects blueprintData apiKey mapStyle maxRefinements
    = Hook.mkState (Hook.isLoading st) (Some message) (Hook.generatedImage st)
        (Hook.blueprintImage st) (Hook.analysisHistory st).
Proof.
  intros Hbad. unfold Hook.generateMap.
  destruct (decide (length vectorObjects = 0%nat)); [by eexists|].
  destruct (decide (Hook.trim svc apiKey = "")); [by eexists|].
  destruct (Hook.createAiClient svc (Hook.trim svc apiKey)) as [err|aiClient]
    eqn:Ec; [by eexists|].
  destruct (decide (blueprintData = "")); [by eexists|].
  destruct Hbad as [->|[?|[[err ?]|?]]]; done.
Qed.

Lemma generateMap_rejected_request_keeps_results_witness :
  let svc := scriptedServices (fun _ => true) in
  let st := Hook.mkState false None (Some "old map") (Some "old blueprint") [] in
  exists message,
    Hook.generateMap svc st [tt] "blueprint" "" photorealistic 3
    = Hook.mkState false (Some message) (Some "old map") (Some "old blueprint") [].
Proof.
  intros svc st.
  apply (generateMap_rejected_request_keeps_results svc st [tt] "blueprint" ""
           photorealistic 3).
  right. left. reflexivity.
Defined.

(** X11.  A run of [generateMap] that ends normally, with a limit that is
    not negative, publishes the final image and a history numbered from 1
    in which every record but the last is open (check failed, not final),
    the last record holds the published image and is final with the reason
    that matches its check, and there were at most [maxRefinements]
    refinements, exactly that many when the last check failed. *)
Theorem completed_run_history {AiClient : Type} (svc : Hook.Services AiClient)
    st (vectorObjects : list unit) blueprintData apiKey mapStyle maxRefinements
    aiClient history url passedCheck :
  vectorObjects ≠ [] -> Hook.trim svc apiKey ≠ "" ->
  Hook.createAiClient svc (Hook.trim svc apiKey) = inr aiClient ->
  blueprintData ≠ "" -> 0 <= maxRefinements ->
  Hook.generationRun svc aiClient blueprintData mapStyle maxRefinements
  = (history, Hook.Finished url passedCheck) ->
  Hook.generateMap svc st vectorObjects blueprintData apiKey mapStyle maxRefinements
  = Hook.mkState false None (Some url) (Some blueprintData) history /\
  numberedFrom 1 history /\
  exists earlier lastRecord,
    history = earlier ++ [lastRecord] /\
    Forall openRecord earlier /\
    closingRecord lastRecord /\
    Hook.passed lastRecord = passedCheck /\
    Hook.mapImage lastRecord = url /\
    Z.of_nat (length earlier) <= maxRefinements /\
    (passedCheck = true \/ Z.of_nat (length earlier) = maxRefinements).
Proof.
  intros Hv Hk Hc Hb Hmax Hrun.
  pose proof (generationRun_shape svc aiClient blueprintData mapStyle maxRefinements)
    as [Hnum Hend].
  rewrite Hrun in Hnum, Hend. simpl in Hnum, Hend.
  destruct Hend as (earlier & l & -> & Hear & Hp & Hu & Hclose & _).
  destruct (Hclose Hmax) as (Hcl & Hlen & Hexit).
  split_and!; [|done|by exists earlier, l].
  unfold Hook.generateMap.
  rewrite decide_False by (by destruct vectorObjects).
  rewrite decide_False by done. rewrite Hc.
  rewrite decide_False by done. by rewrite Hrun.
Qed.

Lemma completed_run_history_witness :
  let svc := scriptedServices (fun k => bool_decide (k < 5)%nat) in
  let first := Hook.mkRecord 1 "initial map" None None false false None None in
  let second := Hook.mkRecord 2 "refined map" None None false false None None in
  let third := Hook.mkRecord 3 "refined map" None None true true
                 (Some Hook.passed_reason) None in
  let history := [first; second; third] in
  Hook.generateMap svc Hook.initialState [tt] "blueprint" "key" photorealistic 3
  = Hook.mkState false None (Some "refined map") (Some "blueprint") history /\
  numberedFrom 1 history /\
  exists earlier lastRecord,
    history = earlier ++ [lastRecord] /\
    Forall openRecord earlier /\
    closingRecord lastRecord /\
    Hook.passed lastRecord = true /\
    Hook.mapImage lastRecord = "refined map" /\
    Z.of_nat (length earlier) <= 3 /\
    (true = true \/ Z.of_nat (length earlier) = 3).
Proof.
  intros svc first second third history.
  apply (completed_run_history svc Hook.initialState [tt] "blueprint" "key"
           photorealistic 3 tt history "refined map" true).
  - discriminate.
  - discriminate.
  - reflexivity.
  - discriminate.
  - lia.
  - reflexivity.
Defined.

(** X12.  When an awaited call of a run is rejected, [generateMap] reports
    the parsed error, clears the image and the loading flag, and leaves the
    records written so far: numbered from 1 and all of them open, so the
    history of a failed run has no final record. *)
Theorem failed_run_keeps_open_history {AiClient : Type} (svc : Hook.Services AiClient)
    st (vectorObjects : list unit) blueprintData apiKey mapStyle maxRefinements
    aiClient history err :
  vectorObjects ≠ [] -> Hook.trim svc apiKey ≠ "" ->
  Hook.createAiClient svc (Hook.trim svc apiKey) = inr aiClient ->
  blueprintData ≠ "" ->
  Hook.generationRun svc aiClient blueprintData mapStyle maxRefinements
  = (history, Hook.Threw err) ->
  Hook.generateMap svc st vectorObjects blueprintData apiKey mapStyle maxRefinements
  = Hook.mkState false (Some (Hook.parseErrorMessage svc err)) None
      (Some blueprintData) history /\
  numberedFrom 1 history /\ Forall openRecord history.
Proof.
  intros Hv Hk Hc Hb Hrun.
  pose proof (generationRun_shape svc aiClient blueprintData mapStyle maxRefinements)
    as [Hnum Hend].
  rewrite Hrun in Hnum, Hend. simpl in Hnum, Hend.
  split_and!; [|done|done].
  unfold Hook.generateMap.
  rewrite decide_False by (by destruct vectorObjects).
  rewrite decide_False by done. rewrite Hc.
  rewrite decide_False by done. by rewrite Hrun.
Qed.

Lemma failed_run_keeps_open_history_witness :
  let svc := failingServices (fun _ => true) 5 in
  let first := Hook.mkRecord 1 "initial map" None None false false None None in
  let second := Hook.mkRecord 2 "refined map" None None false false None None in
  Hook.generateMap svc Hook.initialState [tt] "blueprint" "key" photorealistic 3
  = Hook.mkState false (Some "network down") None (Some "blueprint") [first; second] /\
  numberedFrom 1 [first; second] /\ Forall openRecord [first; second].
Proof.
  intros svc first second.
  apply (failed_run_keeps_open_history svc Hook.initialState [tt] "blueprint" "key"
           photorealistic 3 tt [first; second] "network down").
  - discriminate.
  - discriminate.
  - reflexivity.
  - discriminate.
  - reflexivity.
Defined.

(** X13.  Against services that answer every call, neither [generateMap]
    nor [manualRefine] leaves the hook loading: the refinement loop ends
    within [maxRefinements] rounds. *)
Theorem operations_end_when_services_settle {AiClient : Type}
    (svc : Hook.Services AiClient) st (vectorObjects : list unit) blueprintData
    apiKey mapStyle maxRefinements :
  alwaysSettles svc -> Hook.isLoading st = false ->
  Hook.isLoading
    (Hook.generateMap svc st vectorObjects blueprintData apiKey mapStyle
       maxRefinements) = false /\
  Hook.isLoading (Hook.manualRefine svc st apiKey mapStyle) = false.
Proof.
  intros Hsvc Hl. split.
  - unfold Hook.generateMap.
    destruct (decide (length vectorObjects = 0%nat)); [done|].
    destruct (decide (Hook.trim svc apiKey = "")); [done|].
    destruct (Hook.createAiClient svc (Hook.trim svc apiKey)) as [err|aiClient]; [done|].
    destruct (decide (blueprintData = "")); [done|].
    pose proof (generationRun_settles svc aiClient blueprintData mapStyle
                  maxRefinements Hsvc) as Hrun.
    by destruct (Hook.generationRun svc aiClient blueprintData mapStyle maxRefinements)
      as [history [url passedCheck|err|]].
  - destruct Hsvc as (_ & Hrefine & Hdiff & Hleaks). unfold Hook.manualRefine.
    destruct (Hook.generatedImage st) as [img|]; [|done].
    case_decide; [done|]. rewrite Hl.
    case_decide; [done|].
    destruct (Hook.createAiClient svc (Hook.trim svc apiKey)) as [err|aiClient]; [done|].
    destruct (Hook.refineGeneratedMap svc 0 aiClient img mapStyle)
      as [url| |] eqn:E1; [|done|by apply Hrefine in E1].
    destruct (Hook.generateDiffMap svc 1 img url)
      as [diff| |] eqn:E2; [|done|by apply Hdiff in E2].
    by destruct (Hook.hasBlueprintLeaks svc 2 url mapStyle)
      as [res| |] eqn:E3; [| |apply Hleaks in E3].
Qed.

Lemma operations_end_when_services_settle_witness :
  let svc := scriptedServices (fun _ => true) in
  Hook.isLoading
    (Hook.generateMap svc Hook.initialState [tt] "blueprint" "key" pixel 2) = false /\
  Hook.isLoading (Hook.manualRefine svc Hook.initialState "key" pixel) = false.
Proof.
  intros svc.
  apply (operations_end_when_services_settle svc Hook.initialState [tt] "blueprint"
           "key" pixel 2).
  - split_and!; intros; discriminate.
  - reflexivity.
Defined.

(** X14.  [manualRefine] does nothing at all unless an image is on display
    and no run is in flight. *)
Theorem manualRefine_needs_image_and_idle {AiClient : Type}
    (svc : Hook.Services AiClient) st apiKey mapStyle :
  Hook.generatedImage st = None \/ Hook.generatedImage st = Some "" \/
  Hook.isLoading st = true ->
  Hook.manualRefine svc st apiKey mapStyle = st.
Proof.
  intros Hidle. unfold Hook.manualRefine.
  destruct (Hook.generatedImage st) as [img|]; [|done].
  case_decide; [done|]. destruct (Hook.isLoading st); [done|].
  destruct Hidle as [?|[[= ?]|?]]; done.
Qed.

Lemma manualRefine_needs_image_and_idle_witness :
  let st := Hook.mkState true None (Some "map") (Some "blueprint") [] in
  Hook.manualRefine (scriptedServices (fun _ => true)) st "key" pixel = st.
Proof.
  intros st.
  apply (manualRefine_needs_image_and_idle (scriptedServices (fun _ => true)) st
           "key" pixel).
  right. right. reflexivity.
Defined.

(** X15.  The update of the last record happens before the refine call and
    on the record the state holds: when the call is rejected, the history
    keeps its length, its last record has already lost the final mark and
    the reason, the image stays, and the error is reported. *)
Theorem failed_manualRefine_reopens_last_record {AiClient : Type}
    (svc : Hook.Services AiClient) st apiKey mapStyle previousMapUrl aiClient err
    earlier lastRevision :
  Hook.generatedImage st = Some previousMapUrl -> previousMapUrl ≠ "" ->
  Hook.isLoading st = false ->
  Hook.trim svc apiKey ≠ "" ->
  Hook.createAiClient svc (Hook.trim svc apiKey) = inr aiClient ->
  Hook.refineGeneratedMap svc 0 aiClient previousMapUrl mapStyle = Rejected err ->
  Hook.analysisHistory st = earlier ++ [lastRevision] ->
  Hook.isFinal lastRevision = true ->
  Hook.manualRefine svc st apiKey mapStyle
  = Hook.mkState false (Some (Hook.parseErrorMessage svc err)) (Some previousMapUrl)
      (Hook.blueprintImage st)
      (earlier ++
       [Hook.mkRecord (Hook.revision lastRevision) (Hook.mapImage lastRevision)
          (Hook.aiChangeMap lastRevision) (Hook.leakMap lastRevision)
          (Hook.passed lastRevision) false None (Hook.isManual lastRevision)]).
Proof.
  intros Hg Hne Hl Hk Hc Hr Hh Hf. unfold Hook.manualRefine.
  rewrite Hg, Hl, Hc, Hr. rewrite !decide_False by done.
  rewrite Hh, reopenLast_snoc. unfold Hook.reopen. by rewrite Hf.
Qed.

Lemma failed_manualRefine_reopens_last_record_witness :
  let svc := failingServices (fun _ => true) 0 in
  let first := Hook.mkRecord 1 "initial map" None None false true
                 (Some Hook.limit_reached) None in
  let st := Hook.mkState false None (Some "initial map") (Some "blueprint") [first] in
  Hook.manualRefine svc st "key" photorealistic
  = Hook.mkState false (Some "network down") (Some "initial map") (Some "blueprint")
      ([] ++ [Hook.mkRecord 1 "initial map" None None false false None None]).
Proof.
  intros svc first st.
  apply (failed_manualRefine_reopens_last_record svc st "key" photorealistic
           "initial map" tt "network down" [] first).
  - reflexivity.
  - discriminate.
  - reflexivity.
  - discriminate.
  - reflexivity.
  - reflexivity.
  - reflexivity.
  - reflexivity.
Defined.

(** X16.  In every state the hook can reach, the revisions of the history
    are 1, 2, 3, ... in order, manual refinements included. *)
Theorem reachable_history_is_numbered (AiClient : Type) (st : Hook.HookState) :
  @reachable AiClient st -> numberedFrom 1 (Hook.analysisHistory st).
Proof. intros Hst. by apply reachable_historyOk in Hst as (H & _ & _). Qed.

Lemma reachable_history_is_numbered_witness :
  numberedFrom 1
    (Hook.analysisHistory
       (Hook.manualRefine (scriptedServices (fun _ => true))
          (Hook.generateMap (scriptedServices (fun _ => true)) Hook.initialState
             [tt] "blueprint" "key" photorealistic 1)
          "key" photorealistic)).
Proof.
  apply (reachable_history_is_numbered unit).
  apply reachable_manualRefine, reachable_generateMap, reachable_initial.
Defined.

(** X17.  In every state the hook can reach, only the last record of the
    history can be final. *)
Theorem reachable_history_final_only_last (AiClient : Type) (st : Hook.HookState)
    i r :
  @reachable AiClient st ->
  Hook.analysisHistory st !! i = Some r -> Hook.isFinal r = true ->
  S i = length (Hook.analysisHistory st).
Proof.
  intros Hst. apply reachable_historyOk in Hst as (_ & H & _). apply H.
Qed.

Lemma reachable_history_final_only_last_witness :
  let st := Hook.manualRefine (scriptedServices (fun _ => true))
              (Hook.generateMap (scriptedServices (fun _ => true)) Hook.initialState
                 [tt] "blueprint" "key" photorealistic 1)
              "key" photorealistic in
  3%nat = length (Hook.analysisHistory st).
Proof.
  intros st.
  apply (reachable_history_final_only_last unit st 2
           (Hook.mkRecord 3 "refined map" None None false true
              (Some Hook.limit_reached) (Some true))).
  - apply reachable_manualRefine, reachable_generateMap, reachable_initial.
  - reflexivity.
  - reflexivity.
Defined.

(** X18.  In every state the hook can reach, a record of the history has a
    [finalReason] exactly when it is final. *)
Theorem reachable_reason_iff_final (AiClient : Type) (st : Hook.HookState) r :
  @reachable AiClient st -> r ∈ Hook.analysisHistory st ->
  (Hook.isFinal r = true <-> Hook.finalReason r ≠ None).
Proof.
  intros Hst Hr. apply reachable_historyOk in Hst as (_ & _ & H).
  rewrite Forall_forall in H. by apply H.
Qed.

Lemma reachable_reason_iff_final_witness :
  let r := Hook.mkRecord 1 "initial map" None None false false None None in
  Hook.isFinal r = true <-> Hook.finalReason r ≠ None.
Proof.
  intros r.
  apply (reachable_reason_iff_final unit
           (Hook.generateMap (scriptedServices (fun _ => true)) Hook.initialState
              [tt] "blueprint" "key" photorealistic 1) r).
  - apply reachable_generateMap, reachable_initial.
  - vm_compute. apply list_elem_of_here.
Defined.

(** X19.  In every state the hook can reach, an image on display comes with
    a history that is not empty. *)
Theorem reachable_image_has_history (AiClient : Type) (st : Hook.HookState) :
  @reachable AiClient st ->
  Hook.generatedImage st ≠ None -> Hook.analysisHistory st ≠ [].
Proof. apply reachable_image_history. Qed.

Lemma reachable_image_has_history_witness :
  Hook.analysisHistory
    (Hook.generateMap (scriptedServices (fun _ => false)) Hook.initialState
       [tt] "blueprint" "key" photorealistic 1) ≠ [].
Proof.
  apply (reachable_image_has_history unit).
  - apply reachable_generateMap, reachable_initial.
  - discriminate.
Defined.

(** ** Paths *)

(** X20.  With a tolerance that is not negative [simplifyPath] returns (a
    recursion depth of the path's length is enough), the result takes its
    points from the path in their order, it starts and ends where the path
    does, and it has at least two points when the path has. *)
Theorem simplifyPath_keeps_ends {VectorPoint : Type}
    (perpendicularDistance : VectorPoint -> VectorPoint -> VectorPoint -> Q)
    points epsilon :
  (0 <= epsilon)%Q ->
  exists result,
    simplifyPath perpendicularDistance (length points) points epsilon = Some result /\
    result `sublist_of` points /\
    head result = head points /\ last result = last points /\
    ((2 <= length points)%nat -> (2 <= length result)%nat).
Proof. intros Heps. apply simplifyPath_spec; [done|lia]. Qed.

Lemma simplifyPath_keeps_ends_witness :
  let distance := fun p a b : Point => inject_Z (Z.abs (crossProduct a b p)) in
  let path := [mkPoint 0 0; mkPoint 1 0; mkPoint 2 9; mkPoint 3 0; mkPoint 4 0] in
  exists result,
    simplifyPath distance (length path) path 5 = Some result /\
    result `sublist_of` path /\
    head result = head path /\ last result = last path /\
    ((2 <= length path)%nat -> (2 <= length result)%nat).
Proof.
  intros distance path.
  apply (simplifyPath_keeps_ends distance path 5).
  unfold Qle. simpl. lia.
Defined.

(** X21.  With a negative tolerance, on a path of three or more points none
    of which is at a positive distance from the chord between its ends,
    [simplifyPath] calls itself on the whole path again and never returns:
    every recursion depth is used up. *)
Theorem simplifyPath_negative_tolerance_never_returns {VectorPoint : Type}
    (perpendicularDistance : VectorPoint -> VectorPoint -> VectorPoint -> Q)
    points first lastPoint epsilon fuel :
  (epsilon < 0)%Q -> (3 <= length points)%nat ->
  head points = Some first -> last points = Some lastPoint ->
  (forall i p, points !! i = Some p ->
     (perpendicularDistance p first lastPoint <= 0)%Q) ->
  simplifyPath perpendicularDistance fuel points epsilon = None.
Proof. intros. by eapply simplifyPath_negative. Qed.

Lemma simplifyPath_negative_tolerance_never_returns_witness :
  let distance := fun p a b : Point => inject_Z (Z.abs (crossProduct a b p)) in
  let path := [mkPoint 0 0; mkPoint 1 0; mkPoint 2 0] in
  simplifyPath distance 1000 path (-1) = None.
Proof.
  intros distance path.
  apply (simplifyPath_negative_tolerance_never_returns distance path
           (mkPoint 0 0) (mkPoint 2 0) (-1) 1000).
  - reflexivity.
  - simpl. lia.
  - reflexivity.
  - reflexivity.
  - intros i p Hi.
    subst distance.
    destruct i as [|[|[|i]]]; simpl in Hi; try discriminate;
      injection Hi as <-; unfold Qle, crossProduct; simpl; lia.
Defined.

(** X22.  [isPointNearPolyline] is false for a polyline of fewer than two
    points, and a point near a polyline stays near it under every larger
    threshold. *)
Theorem isPointNearPolyline_grows_with_threshold {VectorPoint : Type}
    (perpendicularDistance : VectorPoint -> VectorPoint -> VectorPoint -> Q)
    point polyline threshold threshold' :
  (threshold <= threshold')%Q ->
  ((length polyline < 2)%nat ->
   isPointNearPolyline perpendicularDistance point polyline threshold = false) /\
  (isPointNearPolyline perpendicularDistance point polyline threshold = true ->
   isPointNearPolyline perpendicularDistance point polyline threshold' = true).
Proof.
  intros Hle. unfold isPointNearPolyline. split.
  - intros Hshort. by rewrite decide_True.
  - case_decide; [done|]. rewrite !existsb_exists.
    intros (i & Hi & Hnear). exists i. split; [done|].
    destruct (polyline !! i) as [a|]; [|done].
    destruct (polyline !! S i) as [b|]; [|done].
    destruct (Qlt_le_dec threshold (perpendicularDistance point a b)) as [|Hd]; [done|].
    destruct (Qlt_le_dec threshold' (perpendicularDistance point a b)) as [Hd'|]; [|done].
    exfalso. apply (Qlt_irrefl threshold').
    eapply Qlt_le_trans; [exact Hd'|]. by eapply Qle_trans.
Qed.

Lemma isPointNearPolyline_grows_with_threshold_witness :
  let distance := fun p a b : Point => inject_Z (Z.abs (crossProduct a b p)) in
  let line := [mkPoint 0 0; mkPoint 10 0] in
  ((length line < 2)%nat -> isPointNearPolyline distance (mkPoint 5 1) line 10 = false) /\
  (isPointNearPolyline distance (mkPoint 5 1) line 10 = true ->
   isPointNearPolyline distance (mkPoint 5 1) line 20 = true).
Proof.
  intros distance line.
  apply (isPointNearPolyline_grows_with_threshold distance (mkPoint 5 1) line 10 20).
  unfold Qle. simpl. lia.
Defined.

(** ** More on the worker *)



(** X24.  With a flatness threshold above 0 the regions pass 1 grows
    partition the bitmap: the scan ends, every pixel lies in exactly one
    region, and in each region every pixel's colour is within the threshold
    of the colour of the pixel the region was grown from. *)
Theorem flat_regions_partition_bitmap img t :
  wellFormed img -> t > 0 ->
  exists regions,
    flatRegions img t = Some regions /\
    NoDup (concat regions) /\
    (forall j, j ∈ concat regions <-> (j < width img * height img)%nat) /\
    Forall (flatAround (data img) t) regions.
Proof. apply flatRegions_partition. Qed.

Lemma flat_regions_partition_bitmap_witness :
  let img := mkImageData 3 1 [mkPixel 10 20 30 255; mkPixel 12 20 30 255;
                              mkPixel 200 0 0 255] in
  exists regions,
    flatRegions img 50 = Some regions /\
    NoDup (concat regions) /\
    (forall j, j ∈ concat regions <-> (j < width img * height img)%nat) /\
    Forall (flatAround (data img) 50) regions.
Proof.
  intros img. apply (flat_regions_partition_bitmap img 50).
  - reflexivity.
  - lia.
Defined.

(** X25.  The hull, its area and the shape test do not depend on where in
    the bitmap a cluster lies: moving every pixel by the same offset moves
    the hull by that offset and leaves the area and the verdict as they
    are. *)
Theorem shape_test_ignores_position dx dy clusterSizeThreshold clusterPoints :
  getConvexHull (translate dx dy <$> clusterPoints)
  = translate dx dy <$> getConvexHull clusterPoints /\
  polygonArea (getConvexHull (translate dx dy <$> clusterPoints))
  = polygonArea (getConvexHull clusterPoints) /\
  isBlob clusterSizeThreshold (translate dx dy <$> clusterPoints)
  = isBlob clusterSizeThreshold clusterPoints.
Proof.
  split_and!.
  - apply getConvexHull_translate.
  - by rewrite getConvexHull_translate, polygonArea_translate.
  - apply isBlob_translate.
Qed.

(** X26.  Raising the threshold never turns an empty diff into an overlay:
    when [performDiffing] answers [null] under one threshold it answers
    [null] under every larger one. *)
Theorem diff_stays_null_under_larger_threshold env imageBase imageNew
    diffThresholdSq diffThresholdSq' :
  diffThresholdSq <= diffThresholdSq' ->
  performDiffing env imageBase imageNew diffThresholdSq = Resolved None ->
  performDiffing env imageBase imageNew diffThresholdSq' = Resolved None.
Proof.
  intros Hle. unfold performDiffing, diffingBody.
  destruct (loadImage env imageBase) as [imgBase|]; [|done].
  destruct (loadImage env imageNew) as [imgNew|]; [|done].
  case_decide; [done|]. destruct (hasContext env); [|done]. simpl.
  pose proof (diffLoop_threshold_mono diffThresholdSq diffThresholdSq'
                (data imgBase) (data imgNew) Hle) as Hmono.
  destruct (diffLoop diffThresholdSq (data imgBase) (data imgNew)).2;
    destruct (diffLoop diffThresholdSq' (data imgBase) (data imgNew)).2;
    simpl; destruct (blobConverts env), (readerLoads env); try done.
  all: by specialize (Hmono eq_refl).
Qed.

Lemma diff_stays_null_under_larger_threshold_witness :
  let base := mkImageData 1 2 [mkPixel 0 0 0 255; mkPixel 10 10 10 255] in
  let new := mkImageData 1 2 [mkPixel 0 0 0 255; mkPixel 15 10 10 255] in
  let env :=
    mkWorkerEnv (fun src => if decide (src = "base") then Some base else Some new)
      true true true true false in
  performDiffing env "base" "new" 400 = Resolved None.
Proof.
  intros base new env.
  apply (diff_stays_null_under_larger_threshold env "base" "new" 100 400).
  - lia.
  - reflexivity.
Defined.

(** X27.  Each chain [buildHull] returns turns strictly left at every
    vertex: no three consecutive points of it are collinear or make a right
    turn, whatever the order of the input. *)
Theorem buildHull_chain_turns_left points : leftTurns (buildHull points).
Proof. apply buildHull_leftTurns. Qed.

(** X28.  Adding colours to the palette or raising the colour tolerance
    never unmarks a pixel: the mask of passes 1 and 2 only grows. *)
Theorem leak_mask_grows_with_palette img colors colors' clusterSizeThreshold
    colorMatchThresholdSq colorMatchThresholdSq' flatnessThresholdSq :
  wellFormed img -> colors ⊆ colors' ->
  colorMatchThresholdSq <= colorMatchThresholdSq' ->
  exists mask mask',
    leakMask img colors clusterSizeThreshold colorMatchThresholdSq
      flatnessThresholdSq = Some mask /\
    leakMask img colors' clusterSizeThreshold colorMatchThresholdSq'
      flatnessThresholdSq = Some mask' /\
    forall i, isSet mask i = true -> isSet mask' i = true.
Proof. apply leakMask_mono. Qed.

Lemma leak_mask_grows_with_palette_witness :
  let img := mkImageData 2 1 [mkPixel 10 20 30 255; mkPixel 200 0 0 255] in
  let forest := mkBlueprintColor "forest" 10 20 30 in
  let lava := mkBlueprintColor "lava" 205 0 0 in
  exists mask mask',
    leakMask img [forest] 400 100 (Some 50) = Some mask /\
    leakMask img [forest; lava] 400 400 (Some 50) = Some mask' /\
    forall i, isSet mask i = true -> isSet mask' i = true.
Proof.
  intros img forest lava.
  apply (leak_mask_grows_with_palette img [forest] [forest; lava] 400 100 400 (Some 50)).
  - reflexivity.
  - intros c Hc. apply list_elem_of_singleton in Hc as ->. left.
  - lia.
Defined.
